(** * Self dot product of a seeded integer matrix (mne-onboarding)

    Shallow embedding of the four scripts
      - [my_script.py]                        (printing variant, [np.empty] + [np.sum])
      - [optimization/script_mprof.py]        (naive triple loop)
      - [optimization/script_bcast_mprof.py]  (broadcast and reduce)
      - [optimization/script_dot.py]          (the [@] operator)
    together with the part of numpy they call.

    Modelling decisions.
    - Array elements are numpy [int64]: a [Z] together with the two's
      complement wrap-around [Int64.wrap] applied by every arithmetic
      operation ([dtype=int] is [int64] on the 64-bit platforms the scripts
      target, and [Generator.integers] returns [int64]).
    - Arrays live in a store of buffers; an [ndarray] is a view (buffer
      address, offset, shape, strides), so that [.T], [a[i]] and [a[:, j]]
      alias their base array exactly as in numpy.
    - Python code runs in a state and exception monad over the store.
    - The bit generator is numpy's [PCG64] seeded through [SeedSequence];
      [Generator.integers] draws with Lemire's rejection method. The [while]
      loop of the rejection step is modelled with fuel.
    - [Generator.integers] creates its output with [np.empty(size, np.int64)],
      which refuses a negative extent and a shape whose byte count does not
      fit a signed 64-bit integer ([np.new_shape]), before anything is drawn.
    - The store is unbounded: no call fails for lack of memory, and the R × R
      result of [my_func] is never refused for its size.
    - [my_func] accepts an array of any dtype. The scripts pass [int64]
      arrays only, and [my_func] below is the function on such arrays;
      [my_func_as t] is the same function on an array of the signed integer
      dtype [t] ([int8], [int16], [int32] or [int64]), where products are
      formed in [t], [np.sum] accumulates in [int64] and [@] accumulates
      in [t]. *)

From Stdlib Require Import ZArith Lia List Bool.
From stdpp Require Import base tactics option list.

(* ===================================================================== *)
(** ** 64-bit signed integers *)
(* ===================================================================== *)

Module Int64.

Definition modulus : Z := 2 ^ 64.
Definition min_signed : Z := - 2 ^ 63.
Definition max_signed : Z := 2 ^ 63 - 1.

(** Reduction of a mathematical integer to the [int64] it is stored as. *)
Definition wrap (z : Z) : Z := ((z + 2 ^ 63) mod 2 ^ 64 - 2 ^ 63)%Z.

Definition add (x y : Z) : Z := wrap (x + y).
Definition mul (x y : Z) : Z := wrap (x * y).

Definition in_range (z : Z) : Prop := (min_signed ≤ z ≤ max_signed)%Z.

(** [np.sum] / [add.reduce] over a sequence of [int64], starting at 0. *)
Definition sum (l : list Z) : Z := fold_left add l 0%Z.

End Int64.

(* ===================================================================== *)
(** ** The store, exceptions and the monad *)
(* ===================================================================== *)

(** Python exceptions the modelled calls can raise. [SegFault] stands for an
    access outside a buffer, which numpy's own invariants rule out. *)
Inductive exn : Set := IndexError | ValueError | AssertionError | SegFault.

Inductive outcome (A : Type) : Type :=
| Ok (a : A)
| Raise (e : exn)
| OutOfFuel.
Arguments Ok {A} a.
Arguments Raise {A} e.
Arguments OutOfFuel {A}.

#[global] Instance outcome_ret : MRet outcome := λ A a, Ok a.
#[global] Instance outcome_bind : MBind outcome := λ A B f m,
  match m with
  | Ok a => f a
  | Raise e => Raise e
  | OutOfFuel => OutOfFuel
  end.

(** The store: buffer number [b] holds the elements of the [b]-th
    allocation. Buffers are never freed. *)
Abbreviation heap := (list (list Z)).

Definition M (A : Type) : Type := heap → outcome (A * heap).

#[global] Instance M_ret : MRet M := λ A a h, Ok (a, h).
#[global] Instance M_bind : MBind M := λ A B f m h,
  match m h with
  | Ok (a, h') => f a h'
  | Raise e => Raise e
  | OutOfFuel => OutOfFuel
  end.

Definition raise {A} (e : exn) : M A := λ _, Raise e.
Definition lift {A} (o : outcome A) : M A := λ h,
  match o with
  | Ok a => Ok (a, h)
  | Raise e => Raise e
  | OutOfFuel => OutOfFuel
  end.

(** [for i in l: body(i)] and [for i in range(n): body(i)]. *)
Fixpoint for_each (l : list nat) (body : nat → M unit) : M unit :=
  match l with
  | [] => mret tt
  | i :: l' => body i;; for_each l' body
  end.
Definition for_range (n : nat) (body : nat → M unit) : M unit :=
  for_each (seq 0 n) body.

(** Evaluate [f 0], ..., [f (n-1)] in order and collect the results. *)
Fixpoint collect {A} (l : list nat) (f : nat → M A) : M (list A) :=
  match l with
  | [] => mret []
  | i :: l' => x ← f i; xs ← collect l' f; mret (x :: xs)
  end.
Definition tabulate {A} (n : nat) (f : nat → M A) : M (list A) :=
  collect (seq 0 n) f.

Definition alloc (data : list Z) : M nat := λ h, Ok (length h, h ++ [data]).

Definition load (b i : nat) : M Z := λ h,
  match h !! b ≫= (.!! i) with
  | Some z => Ok (z, h)
  | None => Raise SegFault
  end.

Definition store (b i : nat) (v : Z) : M unit := λ h,
  match h !! b with
  | Some buf =>
      if decide (i < length buf) then Ok (tt, <[b := <[i := v]> buf]> h)
      else Raise SegFault
  | None => Raise SegFault
  end.

(* ===================================================================== *)
(** ** numpy arrays as views *)
(* ===================================================================== *)

Module np.

(** A two-dimensional array object; strides count elements. *)
Record ndarray : Set := mk_ndarray {
  base : nat;
  offset : nat;
  shape : nat * nat;
  strides : nat * nat }.

(** A one-dimensional array object. *)
Record ndarray1 : Set := mk_ndarray1 {
  base1 : nat;
  offset1 : nat;
  shape1 : nat;
  strides1 : nat }.

Definition addr (a : ndarray) (i j : nat) : nat :=
  offset a + i * fst (strides a) + j * snd (strides a).
Definition addr1 (v : ndarray1) (k : nat) : nat :=
  offset1 v + k * strides1 v.

(** A freshly allocated C-contiguous array owning [data]. *)
Definition fresh (sh : nat * nat) (data : list Z) : M ndarray :=
  b ← alloc data;
  mret {| base := b; offset := 0; shape := sh; strides := (snd sh, 1) |}.
Definition fresh1 (data : list Z) : M ndarray1 :=
  b ← alloc data;
  mret {| base1 := b; offset1 := 0; shape1 := length data; strides1 := 1 |}.

(** [np.zeros(sh, dtype=int)] *)
Definition zeros (sh : nat * nat) : M ndarray :=
  fresh sh (replicate (fst sh * snd sh) 0%Z).

(** [np.empty(sh, dtype=int)]: the block is handed out as the allocator
    left it; [junk k] is whatever 64-bit pattern sits in its [k]-th slot. *)
Definition empty (junk : nat → Z) (sh : nat * nat) : M ndarray :=
  fresh sh (map (λ k, Int64.wrap (junk k)) (seq 0 (fst sh * snd sh))).

(** [a[i, j]] *)
Definition getitem (a : ndarray) (ij : nat * nat) : M Z :=
  if decide (fst ij < fst (shape a) ∧ snd ij < snd (shape a))
  then load (base a) (addr a (fst ij) (snd ij))
  else raise IndexError.

(** [a[i, j] = v] *)
Definition setitem (a : ndarray) (ij : nat * nat) (v : Z) : M unit :=
  if decide (fst ij < fst (shape a) ∧ snd ij < snd (shape a))
  then store (base a) (addr a (fst ij) (snd ij)) v
  else raise IndexError.

(** [a[i, j] += v]: read, add with wrap-around, write back. *)
Definition iadd (a : ndarray) (ij : nat * nat) (v : Z) : M unit :=
  old ← getitem a ij; setitem a ij (Int64.add old v).

(** [a.T]: the same buffer with shape and strides swapped. *)
Definition T (a : ndarray) : ndarray :=
  {| base := base a; offset := offset a;
     shape := (snd (shape a), fst (shape a));
     strides := (snd (strides a), fst (strides a)) |}.

(** [a[i]]: view of row [i]. *)
Definition row (a : ndarray) (i : nat) : M ndarray1 :=
  if decide (i < fst (shape a))
  then mret {| base1 := base a; offset1 := offset a + i * fst (strides a);
               shape1 := snd (shape a); strides1 := snd (strides a) |}
  else raise IndexError.

(** [a[:, j]]: view of column [j]. *)
Definition col (a : ndarray) (j : nat) : M ndarray1 :=
  if decide (j < snd (shape a))
  then mret {| base1 := base a; offset1 := offset a + j * snd (strides a);
               shape1 := fst (shape a); strides1 := fst (strides a) |}
  else raise IndexError.

(** [v[:, np.newaxis]]: a column of shape [(len v, 1)]. *)
Definition newaxis (v : ndarray1) : ndarray :=
  {| base := base1 v; offset := offset1 v;
     shape := (shape1 v, 1); strides := (strides1 v, 0) |}.

(** Broadcasting of one dimension: equal extents, or one of them is 1. *)
Definition broadcast_dim (n m : nat) : outcome nat :=
  if decide (n = m) then Ok n
  else if decide (n = 1) then Ok m
  else if decide (m = 1) then Ok n
  else Raise ValueError.

(** Stride of an operand of extent [n] viewed with extent [d]: a
    broadcast dimension is read with stride 0. *)
Definition broadcast_stride (n s d : nat) : nat :=
  if decide (n = d) then s else 0.

Definition broadcast_to (a : ndarray) (sh : nat * nat) : ndarray :=
  {| base := base a; offset := offset a; shape := sh;
     strides := (broadcast_stride (fst (shape a)) (fst (strides a)) (fst sh),
                 broadcast_stride (snd (shape a)) (snd (strides a)) (snd sh)) |}.

Definition broadcast_to1 (v : ndarray1) (n : nat) : ndarray1 :=
  {| base1 := base1 v; offset1 := offset1 v; shape1 := n;
     strides1 := broadcast_stride (shape1 v) (strides1 v) n |}.

(** [v * w] on one-dimensional arrays: a new array of wrapped products. *)
Definition multiply1 (v w : ndarray1) : M ndarray1 :=
  n ← lift (broadcast_dim (shape1 v) (shape1 w));
  let v' := broadcast_to1 v n in
  let w' := broadcast_to1 w n in
  data ← tabulate n (λ k,
            x ← load (base1 v') (addr1 v' k);
            y ← load (base1 w') (addr1 w' k);
            mret (Int64.mul x y));
  fresh1 data.

(** [a * b] on two-dimensional arrays, with broadcasting. *)
Definition multiply (a b : ndarray) : M ndarray :=
  n0 ← lift (broadcast_dim (fst (shape a)) (fst (shape b)));
  n1 ← lift (broadcast_dim (snd (shape a)) (snd (shape b)));
  let a' := broadcast_to a (n0, n1) in
  let b' := broadcast_to b (n0, n1) in
  data ← tabulate (n0 * n1) (λ k,
            x ← load (base a') (addr a' (k / n1) (k mod n1));
            y ← load (base b') (addr b' (k / n1) (k mod n1));
            mret (Int64.mul x y));
  fresh (n0, n1) data.

(** [np.sum(v)] of a one-dimensional array: an [int64] scalar. Integer
    addition modulo 2^64 is associative and commutative, so the order in
    which numpy's reduction loop visits the elements does not matter. *)
Definition sum (v : ndarray1) : M Z :=
  xs ← tabulate (shape1 v) (λ k, load (base1 v) (addr1 v k));
  mret (Int64.sum xs).

(** [np.sum(a, axis=0)]: column sums, a new one-dimensional array. *)
Definition sum_axis0 (a : ndarray) : M ndarray1 :=
  data ← tabulate (snd (shape a)) (λ j,
            xs ← tabulate (fst (shape a)) (λ i, load (base a) (addr a i j));
            mret (Int64.sum xs));
  fresh1 data.

(** [a[i] = v]: copy (with broadcasting) a one-dimensional array into
    row [i]. The right-hand side is read in full before the row is
    written. *)
Definition setrow (a : ndarray) (i : nat) (v : ndarray1) : M unit :=
  r ← row a i;
  (if decide (shape1 v = shape1 r ∨ shape1 v = 1) then mret tt
   else raise ValueError);;
  let v' := broadcast_to1 v (shape1 r) in
  xs ← tabulate (shape1 r) (λ k, load (base1 v') (addr1 v' k));
  for_range (shape1 r) (λ k, store (base1 r) (addr1 r k) (xs !!! k)).

(** [a @ b]: matrix product of two-dimensional [int64] arrays. numpy uses
    its own integer loops here (no BLAS), with wrap-around. *)
Definition matmul (a b : ndarray) : M ndarray :=
  let '(n, k) := shape a in
  let '(k', m) := shape b in
  (if decide (k = k') then mret tt else raise ValueError);;
  data ← tabulate (n * m) (λ p,
            xs ← tabulate k (λ e,
                    x ← load (base a) (addr a (p / m) e);
                    y ← load (base b) (addr b e (p mod m));
                    mret (Int64.mul x y));
            mret (Int64.sum xs));
  fresh (n, m) data.

(** [a.tolist()]: the elements, row by row. *)
Definition tolist (a : ndarray) : M (list (list Z)) :=
  tabulate (fst (shape a)) (λ i,
    tabulate (snd (shape a)) (λ j, load (base a) (addr a i j))).

(** [np.testing.assert_array_equal(a, np.array(lit))] for a rectangular
    literal: shapes and all elements must agree. *)
Definition assert_array_equal (a : ndarray) (lit : list (list Z)) : M unit :=
  xs ← tolist a;
  if decide (xs = lit) then mret tt else raise AssertionError.

(** The largest [npy_intp], and the size in bytes of an [int64]. *)
Definition NPY_MAX_INTP : Z := (2 ^ 63 - 1)%Z.
Definition itemsize : Z := 8.

(** The loop over the requested extents made when an array is created:
    [nbytes] starts as the item size and is multiplied by every extent
    other than 0. A negative extent is a [ValueError] (negative dimensions
    are not allowed), and so is a product beyond [NPY_MAX_INTP] (array is
    too big). An extent that does not fit [npy_intp] at all is a
    [ValueError] as well, and is caught by the same comparisons. *)
Fixpoint check_dims (dims : list Z) (nbytes : Z) : outcome Z :=
  match dims with
  | [] => Ok nbytes
  | d :: dims' =>
      if (d =? 0)%Z then check_dims dims' nbytes
      else if (d <? 0)%Z then Raise ValueError
      else if (NPY_MAX_INTP <? nbytes * d)%Z then Raise ValueError
      else check_dims dims' (nbytes * d)%Z
  end.

(** The shape of [np.empty(size, np.int64)], when numpy accepts [size]. *)
Definition new_shape (size : Z * Z) : outcome (nat * nat) :=
  check_dims [fst size; snd size] itemsize;;
  mret (Z.to_nat (fst size), Z.to_nat (snd size)).

(** Signed integer dtypes an array passed to [my_func] can have. *)
Inductive dtype : Set := int8 | int16 | int32 | int64.

Definition bits (t : dtype) : Z :=
  match t with int8 => 8 | int16 => 16 | int32 => 32 | int64 => 64 end.

(** Reduction of a mathematical integer to the dtype [t] (two's
    complement); [cast int64] is [Int64.wrap]. *)
Definition cast (t : dtype) (z : Z) : Z :=
  ((z + 2 ^ (bits t - 1)) mod 2 ^ bits t - 2 ^ (bits t - 1))%Z.

Definition in_dtype (t : dtype) (z : Z) : Prop :=
  (- 2 ^ (bits t - 1) ≤ z ≤ 2 ^ (bits t - 1) - 1)%Z.

(** [v * w] on one-dimensional arrays of dtype [t]: the product array has
    dtype [t] as well. *)
Definition multiply1_as (t : dtype) (v w : ndarray1) : M ndarray1 :=
  n ← lift (broadcast_dim (shape1 v) (shape1 w));
  let v' := broadcast_to1 v n in
  let w' := broadcast_to1 w n in
  data ← tabulate n (λ k,
            x ← load (base1 v') (addr1 v' k);
            y ← load (base1 w') (addr1 w' k);
            mret (cast t (x * y)));
  fresh1 data.

(** [a * b] on two-dimensional arrays of dtype [t], with broadcasting. *)
Definition multiply_as (t : dtype) (a b : ndarray) : M ndarray :=
  n0 ← lift (broadcast_dim (fst (shape a)) (fst (shape b)));
  n1 ← lift (broadcast_dim (snd (shape a)) (snd (shape b)));
  let a' := broadcast_to a (n0, n1) in
  let b' := broadcast_to b (n0, n1) in
  data ← tabulate (n0 * n1) (λ k,
            x ← load (base a') (addr a' (k / n1) (k mod n1));
            y ← load (base b') (addr b' (k / n1) (k mod n1));
            mret (cast t (x * y)));
  fresh (n0, n1) data.

(** [a @ b] on arrays of dtype [t]: the result has dtype [t], and the
    inner loop multiplies and accumulates in [t]. *)
Definition matmul_as (t : dtype) (a b : ndarray) : M ndarray :=
  let '(n, k) := shape a in
  let '(k', m) := shape b in
  (if decide (k = k') then mret tt else raise ValueError);;
  data ← tabulate (n * m) (λ p,
            xs ← tabulate k (λ e,
                    x ← load (base a) (addr a (p / m) e);
                    y ← load (base b) (addr b e (p mod m));
                    mret (cast t (x * y)));
            mret (fold_left (λ acc x, cast t (acc + x)) xs 0%Z));
  fresh (n, m) data.

End np.

(* ===================================================================== *)
(** ** numpy.random: SeedSequence, PCG64 and Generator.integers *)
(* ===================================================================== *)

Definition uint32 (z : Z) : Z := Z.land z 0xFFFFFFFF.
Definition uint64 (z : Z) : Z := Z.land z 0xFFFFFFFFFFFFFFFF.
Definition uint128 (z : Z) : Z := Z.land z 0xFFFFFFFFFFFFFFFFFFFFFFFFFFFFFFFF.

(** [SeedSequence(entropy)]: hashes an integer seed into a pool of four
    32-bit words, from which the bit generator's initial state is drawn. *)
Module SeedSequence.

Definition DEFAULT_POOL_SIZE : nat := 4.
Definition INIT_A : Z := 0x43b0d7e5.
Definition MULT_A : Z := 0x931e8875.
Definition INIT_B : Z := 0x8b51f9dd.
Definition MULT_B : Z := 0x58f38ded.
Definition MIX_MULT_L : Z := 0xca01f9dd.
Definition MIX_MULT_R : Z := 0x4973f715.
Definition XSHIFT : Z := 16.

(** [hashmix(value, hash_const)]: returns the hashed value and the
    updated multiplier (an in-out parameter in the source). *)
Definition hashmix (value hash_const : Z) : Z * Z :=
  let value := Z.lxor value hash_const in
  let hash_const := uint32 (hash_const * MULT_A) in
  let value := uint32 (value * hash_const) in
  (Z.lxor value (Z.shiftr value XSHIFT), hash_const).

Definition mix (x y : Z) : Z :=
  let result := uint32 (MIX_MULT_L * x - MIX_MULT_R * y) in
  Z.lxor result (Z.shiftr result XSHIFT).

(** [_int_to_array]: little-endian 32-bit words of a non-negative
    integer, one word for 0. The [while n > 0] loop runs once per word. *)
Fixpoint int_to_words (fuel : nat) (n : Z) : list Z :=
  match fuel with
  | O => []
  | S fuel' =>
      if (0 <? n)%Z then uint32 n :: int_to_words fuel' (n / 2 ^ 32)%Z
      else []
  end.
Definition int_to_array (n : Z) : outcome (list Z) :=
  if (n <? 0)%Z then Raise ValueError
  else if (n =? 0)%Z then Ok [0%Z]
  else Ok (int_to_words (S (Z.to_nat (Z.log2 n))) n).

(** State threaded through [mix_entropy]: the pool and [hash_const]. *)
Definition mixer : Type := list Z * Z.

(** First loop: fill the pool from the entropy, padding with zeros. *)
Definition fill_pool (entropy : list Z) (st : mixer) (i : nat) : mixer :=
  let '(pool, hash_const) := st in
  let '(v, hash_const) := hashmix (default 0%Z (entropy !! i)) hash_const in
  (<[i := v]> pool, hash_const).

(** Second loop: every pool word is mixed into every other one. *)
Definition cross_mix (st : mixer) (p : nat * nat) : mixer :=
  let '(pool, hash_const) := st in
  let '(i_src, i_dst) := p in
  if decide (i_src = i_dst) then st
  else
    let '(v, hash_const) := hashmix (pool !!! i_src) hash_const in
    (<[i_dst := mix (pool !!! i_dst) v]> pool, hash_const).

(** Third loop: entropy words beyond the pool size. *)
Definition extra_mix (entropy : list Z) (st : mixer) (p : nat * nat) : mixer :=
  let '(pool, hash_const) := st in
  let '(i_src, i_dst) := p in
  let '(v, hash_const) := hashmix (entropy !!! i_src) hash_const in
  (<[i_dst := mix (pool !!! i_dst) v]> pool, hash_const).

Definition index_pairs (srcs dsts : list nat) : list (nat * nat) :=
  i_src ← srcs; i_dst ← dsts; [(i_src, i_dst)].

Definition mix_entropy (entropy : list Z) : list Z :=
  let ixs := seq 0 DEFAULT_POOL_SIZE in
  let st := (replicate DEFAULT_POOL_SIZE 0%Z, INIT_A) in
  let st := fold_left (fill_pool entropy) ixs st in
  let st := fold_left cross_mix (index_pairs ixs ixs) st in
  let rest := seq DEFAULT_POOL_SIZE (length entropy - DEFAULT_POOL_SIZE) in
  let st := fold_left (extra_mix entropy) (index_pairs rest ixs) st in
  fst st.

(** [generate_state(n_words)] as 32-bit words. *)
Fixpoint generate_words (pool : list Z) (n_words i_dst : nat) (hash_const : Z)
  : list Z :=
  match n_words with
  | O => []
  | S n_words' =>
      let data_val := Z.lxor (pool !!! (i_dst mod length pool)) hash_const in
      let hash_const := uint32 (hash_const * MULT_B) in
      let data_val := uint32 (data_val * hash_const) in
      let data_val := Z.lxor data_val (Z.shiftr data_val XSHIFT) in
      data_val :: generate_words pool n_words' (S i_dst) hash_const
  end.

(** [generate_state(n, np.uint64)]: pairs of words, low word first. *)
Definition generate_state64 (pool : list Z) (n : nat) : list Z :=
  let w := generate_words pool (2 * n) 0 INIT_B in
  map (λ k : nat, (w !!! (2 * k)%nat + Z.shiftl (w !!! (2 * k + 1)%nat) 32)%Z) (seq 0 n).

End SeedSequence.

(** The PCG64 bit generator (XSL-RR 128/64). *)
Module PCG64.

Record pcg64_state : Set := mk_state {
  state : Z;            (* 128-bit LCG state *)
  inc : Z;              (* 128-bit odd increment *)
  has_uint32 : bool;    (* a buffered upper half is pending *)
  uinteger : Z }.

Definition PCG_DEFAULT_MULTIPLIER_128 : Z :=
  (2549297995355413924 * 2 ^ 64 + 4865540595714422341)%Z.

Definition step (s i : Z) : Z := uint128 (s * PCG_DEFAULT_MULTIPLIER_128 + i).

Definition rotr_64 (value rot : Z) : Z :=
  Z.lor (Z.shiftr value rot) (uint64 (Z.shiftl value (Z.land (- rot) 63))).

Definition output_xsl_rr_128_64 (s : Z) : Z :=
  rotr_64 (Z.lxor (Z.shiftr s 64) (uint64 s)) (Z.shiftr s 122).

(** [pcg64_set_seed] followed by [pcg_setseq_128_srandom_r]. *)
Definition set_seed (seed0 seed1 inc0 inc1 : Z) : pcg64_state :=
  let initstate := (seed0 * 2 ^ 64 + seed1)%Z in
  let initseq := (inc0 * 2 ^ 64 + inc1)%Z in
  let i := uint128 (Z.lor (Z.shiftl initseq 1) 1) in
  let s := step 0 i in
  let s := uint128 (s + initstate) in
  {| state := step s i; inc := i; has_uint32 := false; uinteger := 0 |}.

(** [PCG64(seed)] for an integer seed. *)
Definition seed (entropy : Z) : outcome pcg64_state :=
  words ← SeedSequence.int_to_array entropy;
  let val := SeedSequence.generate_state64 (SeedSequence.mix_entropy words) 4 in
  mret (set_seed (val !!! 0) (val !!! 1) (val !!! 2) (val !!! 3)).

Definition next_uint64 (g : pcg64_state) : Z * pcg64_state :=
  let s := step (state g) (inc g) in
  (output_xsl_rr_128_64 s,
   {| state := s; inc := inc g;
      has_uint32 := has_uint32 g; uinteger := uinteger g |}).

Definition next_uint32 (g : pcg64_state) : Z * pcg64_state :=
  if has_uint32 g then
    (uinteger g,
     {| state := state g; inc := inc g;
        has_uint32 := false; uinteger := uinteger g |})
  else
    let '(next, g') := next_uint64 g in
    (uint32 next,
     {| state := state g'; inc := inc g';
        has_uint32 := true; uinteger := Z.shiftr next 32 |}).

End PCG64.

(** [np.random.default_rng(seed=...)] and the [integers(10, size=...)]
    call of the scripts. *)
Module Generator.
Import PCG64.

Definition default_rng (seed : Z) : outcome pcg64_state := PCG64.seed seed.

Definition UINT32_MAX : Z := 0xFFFFFFFF.

(** The [while (leftover < threshold)] loop of the rejection step. *)
Fixpoint lemire_while (fuel : nat) (threshold rng_excl m : Z) (g : pcg64_state)
  : outcome (Z * pcg64_state) :=
  if (uint32 m <? threshold)%Z then
    match fuel with
    | O => OutOfFuel
    | S fuel' =>
        let '(u, g') := next_uint32 g in
        lemire_while fuel' threshold rng_excl (u * rng_excl) g'
    end
  else Ok (m, g).

(** A draw from [0, rng], for [rng < 0xFFFFFFFF]. *)
Definition buffered_bounded_lemire_uint32 (fuel : nat) (rng : Z) (g : pcg64_state)
  : outcome (Z * pcg64_state) :=
  let rng_excl := uint32 (rng + 1) in
  let '(u, g) := next_uint32 g in
  let m := (u * rng_excl)%Z in
  let leftover := uint32 m in
  if (leftover <? rng_excl)%Z then
    let threshold := ((UINT32_MAX - rng) mod rng_excl)%Z in
    '(m, g) ← lemire_while fuel threshold rng_excl m g;
    mret (Z.shiftr m 32, g)
  else mret (Z.shiftr m 32, g).

(** The branch of [random_bounded_uint64_fill] taken for
    [0 < rng < 0xFFFFFFFF] without masking: [out[i] = off + draw],
    for [i] from 0 to [cnt - 1]. [out] is built back to front. *)
Fixpoint fill_loop (fuel : nat) (off rng : Z) (cnt : nat) (g : pcg64_state)
  (out : list Z) : outcome (list Z * pcg64_state) :=
  match cnt with
  | O => Ok (rev_append out [], g)
  | S cnt' =>
      match buffered_bounded_lemire_uint32 fuel rng g with
      | Ok (v, g') => fill_loop fuel off rng cnt' g' ((off + v)%Z :: out)
      | Raise e => Raise e
      | OutOfFuel => OutOfFuel
      end
  end.
Definition random_bounded_uint64_fill (fuel : nat) (off rng : Z) (cnt : nat)
  (g : pcg64_state) : outcome (list Z * pcg64_state) :=
  fill_loop fuel off rng cnt g [].

(** [g.integers(10, size=size)]: [low = 0], [high = 10], [dtype=int64],
    [endpoint=False], so [rng = high - 1 - low = 9] and [off = 0]. The
    output array is created first, by [np.empty(size, np.int64)]: a
    negative extent and a shape that is too big are rejected there, with
    nothing drawn; a zero extent gives an empty array. Every element of the
    array is then written by [random_bounded_uint64_fill]. The generator
    object is a temporary, its final state is dropped. *)
Definition integers (fuel : nat) (g : pcg64_state) (size : Z * Z) : M np.ndarray :=
  let high := 10%Z in
  let low := 0%Z in
  sh ← lift (np.new_shape size);
  '(data, _) ← lift (random_bounded_uint64_fill fuel low (high - 1 - low)
                       (fst sh * snd sh) g);
  np.fresh sh data.

(** The deterministic matrix generator of the scripts, with seed and
    extents as parameters:
    [np.random.default_rng(seed=seed).integers(10, size=(R, N))]. *)
Definition generate (fuel : nat) (seed : Z) (size : Z * Z) : M np.ndarray :=
  g ← lift (default_rng seed);
  integers fuel g size.

End Generator.

(* ===================================================================== *)
(** ** The four scripts *)
(* ===================================================================== *)

(** The literal the three asserting scripts compare against. *)
Definition expected : list (list Z) :=
  [[2842216; 2016906]; [2016906; 2840381]]%Z.

(** [my_script.py]: the printing variant. *)
Module my_script.

Definition n : Z := 10000000.

(** [ARR = np.random.default_rng(seed=8675309).integers(10, size=(2, n))] *)
Definition ARR (fuel : nat) : M np.ndarray :=
  Generator.generate fuel 8675309 (2, n)%Z.

Definition my_func (junk : nat → Z) (input_array : np.ndarray) : M np.ndarray :=
  let nrow := fst (np.shape input_array) in
  result ← np.empty junk (nrow, nrow);
  for_range nrow (λ rix,
    for_range nrow (λ cix,
      r ← np.row input_array rix;
      c ← np.col (np.T input_array) cix;
      p ← np.multiply1 r c;
      s ← np.sum p;
      np.setitem result (rix, cix) s));;
  mret result.

(** [print(my_func(ARR))]: the value handed to [print]. *)
Definition main (fuel : nat) (junk : nat → Z) : M (list (list Z)) :=
  arr ← ARR fuel; r ← my_func junk arr; np.tolist r.

(** [my_func] on an array of dtype [t]: the product of the row and the
    column has dtype [t]; [np.sum] accumulates in [int64]. *)
Definition my_func_as (t : np.dtype) (junk : nat → Z) (input_array : np.ndarray)
  : M np.ndarray :=
  let nrow := fst (np.shape input_array) in
  result ← np.empty junk (nrow, nrow);
  for_range nrow (λ rix,
    for_range nrow (λ cix,
      r ← np.row input_array rix;
      c ← np.col (np.T input_array) cix;
      p ← np.multiply1_as t r c;
      s ← np.sum p;
      np.setitem result (rix, cix) s));;
  mret result.

End my_script.

(** [optimization/script_mprof.py]: the naive triple loop. The [@profile]
    decorator only measures the call. *)
Module script_mprof.

Definition n : Z := 100000.

(** [ARR = np.random.default_rng(seed=8675309).integers(10, size=(2, n))] *)
Definition ARR (fuel : nat) : M np.ndarray :=
  Generator.generate fuel 8675309 (2, n)%Z.

Definition my_func (input_array : np.ndarray) : M np.ndarray :=
  let '(nrow, ncol) := np.shape input_array in
  result ← np.zeros (nrow, nrow);
  for_range nrow (λ rix,
    for_range nrow (λ cix,
      for_range ncol (λ eix,
        x ← np.getitem input_array (rix, eix);
        y ← np.getitem (np.T input_array) (eix, cix);
        np.iadd result (rix, cix) (Int64.mul x y))));;
  mret result.

Definition main (fuel : nat) : M unit :=
  arr ← ARR fuel; r ← my_func arr; np.assert_array_equal r expected.

(** [my_func] on an array of dtype [t]: the two elements are scalars of
    dtype [t] and so is their product; [+=] adds it to an [int64]. *)
Definition my_func_as (t : np.dtype) (input_array : np.ndarray) : M np.ndarray :=
  let '(nrow, ncol) := np.shape input_array in
  result ← np.zeros (nrow, nrow);
  for_range nrow (λ rix,
    for_range nrow (λ cix,
      for_range ncol (λ eix,
        x ← np.getitem input_array (rix, eix);
        y ← np.getitem (np.T input_array) (eix, cix);
        np.iadd result (rix, cix) (np.cast t (x * y)))));;
  mret result.

End script_mprof.

(** [optimization/script_bcast_mprof.py]: one broadcast product and one
    reduction per output row. *)
Module script_bcast_mprof.

Definition n : Z := 100000.

(** [ARR = np.random.default_rng(seed=8675309).integers(10, size=(2, n))] *)
Definition ARR (fuel : nat) : M np.ndarray :=
  Generator.generate fuel 8675309 (2, n)%Z.

Definition my_func (input_array : np.ndarray) : M np.ndarray :=
  let '(nrow, ncol) := np.shape input_array in
  result ← np.zeros (nrow, nrow);
  for_range nrow (λ rix,
    r ← np.row input_array rix;
    p ← np.multiply (np.newaxis r) (np.T input_array);
    s ← np.sum_axis0 p;
    np.setrow result rix s);;
  mret result.

Definition main (fuel : nat) : M unit :=
  arr ← ARR fuel; r ← my_func arr; np.assert_array_equal r expected.

(** [my_func] on an array of dtype [t]: the broadcast product has dtype
    [t]; [np.sum(..., axis=0)] accumulates in [int64]. *)
Definition my_func_as (t : np.dtype) (input_array : np.ndarray) : M np.ndarray :=
  let '(nrow, ncol) := np.shape input_array in
  result ← np.zeros (nrow, nrow);
  for_range nrow (λ rix,
    r ← np.row input_array rix;
    p ← np.multiply_as t (np.newaxis r) (np.T input_array);
    s ← np.sum_axis0 p;
    np.setrow result rix s);;
  mret result.

End script_bcast_mprof.

(** [optimization/script_dot.py]: the matrix-multiply operator. *)
Module script_dot.

Definition n : Z := 100000.

(** [ARR = np.random.default_rng(seed=8675309).integers(10, size=(2, n))] *)
Definition ARR (fuel : nat) : M np.ndarray :=
  Generator.generate fuel 8675309 (2, n)%Z.

Definition my_func (input_array : np.ndarray) : M np.ndarray :=
  result ← np.matmul input_array (np.T input_array);
  mret result.

Definition main (fuel : nat) : M unit :=
  arr ← ARR fuel; r ← my_func arr; np.assert_array_equal r expected.

(** [my_func] on an array of dtype [t]: the result of [@] has dtype [t]. *)
Definition my_func_as (t : np.dtype) (input_array : np.ndarray) : M np.ndarray :=
  result ← np.matmul_as t input_array (np.T input_array);
  mret result.

End script_dot.

(* ===================================================================== *)
(** ** Specification vocabulary *)
(* ===================================================================== *)

(** [Σ_{k < n} f k * g k], over the mathematical integers. *)
Fixpoint dotprod (f g : nat → Z) (n : nat) : Z :=
  match n with
  | O => 0
  | S n' => dotprod f g n' + f n' * g n'
  end%Z.

(** The element a view shows at an index (0 outside the buffer). *)
Definition peek (h : heap) (a : np.ndarray) (i j : nat) : Z :=
  default 0%Z (h !! np.base a ≫= (.!! np.addr a i j)).
Definition peek1 (h : heap) (v : np.ndarray1) (k : nat) : Z :=
  default 0%Z (h !! np.base1 v ≫= (.!! np.addr1 v k)).

(** numpy's invariant on array objects: every index within the shape
    designates a slot of the buffer. A well-formed R×N matrix is a valid
    two-dimensional view; its rows cannot differ in length. *)
Definition valid (h : heap) (a : np.ndarray) : Prop :=
  ∃ buf, h !! np.base a = Some buf ∧
    ∀ i j, i < fst (np.shape a) → j < snd (np.shape a) →
           np.addr a i j < length buf.
Definition valid1 (h : heap) (v : np.ndarray1) : Prop :=
  ∃ buf, h !! np.base1 v = Some buf ∧
    ∀ k, k < np.shape1 v → np.addr1 v k < length buf.

(** Every element of the view is an [int64]. *)
Definition int64_entries (h : heap) (a : np.ndarray) : Prop :=
  ∀ i j, i < fst (np.shape a) → j < snd (np.shape a) →
         Int64.in_range (peek h a i j).

(** A C-contiguous array that owns its whole buffer. *)
Definition contig (h : heap) (r : np.ndarray) : Prop :=
  np.offset r = 0 ∧ np.strides r = (snd (np.shape r), 1) ∧
  ∃ buf, h !! np.base r = Some buf ∧
         length buf = fst (np.shape r) * snd (np.shape r).

(** Entry [(i, j)] of the product of [a] with its transpose, exact. *)
Definition gram (h : heap) (a : np.ndarray) (i j : nat) : Z :=
  dotprod (peek h a i) (peek h a j) (snd (np.shape a)).

(** What a call [my_func(a)] started in store [h] must deliver: a fresh
    R×R array [r] in a store [h'] that extends [h] without touching it,
    whose entries are the wrapped row dot products. *)
Definition my_func_post (h : heap) (a : np.ndarray) (r : np.ndarray) (h' : heap)
  : Prop :=
  h `prefix_of` h' ∧
  np.base r = length h ∧
  np.shape r = (fst (np.shape a), fst (np.shape a)) ∧
  contig h' r ∧
  ∀ i j, i < fst (np.shape a) → j < fst (np.shape a) →
         peek h' r i j = Int64.wrap (gram h a i j).

(** Total correctness of a call. *)
Definition returns {A} (m : M A) (h : heap) (Q : A → heap → Prop) : Prop :=
  ∃ a h', m h = Ok (a, h') ∧ Q a h'.

(** A computation that only reads the store. *)
Definition reads {A} (m : M A) (h : heap) (a : A) : Prop := m h = Ok (a, h).

(** The contents of a C-contiguous array that owns its buffer. *)
Definition cells (h : heap) (r : np.ndarray) (F : nat → nat → Z) : Prop :=
  contig h r ∧
  ∀ i j, i < fst (np.shape r) → j < snd (np.shape r) → peek h r i j = F i j.

(** The views [a[i]] and [a[:, j]] evaluate to. *)
Definition row_view (a : np.ndarray) (i : nat) : np.ndarray1 :=
  {| np.base1 := np.base a;
     np.offset1 := np.offset a + i * fst (np.strides a);
     np.shape1 := snd (np.shape a); np.strides1 := snd (np.strides a) |}.
Definition col_view (a : np.ndarray) (j : nat) : np.ndarray1 :=
  {| np.base1 := np.base a;
     np.offset1 := np.offset a + j * snd (np.strides a);
     np.shape1 := fst (np.shape a); np.strides1 := fst (np.strides a) |}.

(** The array objects [np.fresh] and [np.fresh1] return in store [h]. *)
Definition fresh_at (h : heap) (sh : nat * nat) : np.ndarray :=
  {| np.base := length h; np.offset := 0; np.shape := sh;
     np.strides := (snd sh, 1) |}.
Definition fresh1_at (h : heap) (n : nat) : np.ndarray1 :=
  {| np.base1 := length h; np.offset1 := 0; np.shape1 := n;
     np.strides1 := 1 |}.

(** The four variants of [my_func] under one name. *)
Inductive strategy : Type :=
| Printing (junk : nat → Z)   (* my_script.py; [junk] is what [np.empty] exposes *)
| Naive                       (* optimization/script_mprof.py *)
| Broadcast                   (* optimization/script_bcast_mprof.py *)
| DirectMultiply.             (* optimization/script_dot.py *)

Definition my_func_of (s : strategy) : np.ndarray → M np.ndarray :=
  match s with
  | Printing junk => my_script.my_func junk
  | Naive => script_mprof.my_func
  | Broadcast => script_bcast_mprof.my_func
  | DirectMultiply => script_dot.my_func
  end.

(** The matrix a view shows, as nested lists. *)
Definition matrix_of (h : heap) (a : np.ndarray) : list (list Z) :=
  map (λ i, map (λ j, peek h a i j) (seq 0 (snd (np.shape a))))
      (seq 0 (fst (np.shape a))).

(** The product of [a] with its transpose, reduced to [int64]. *)
Definition gram_matrix (h : heap) (a : np.ndarray) : list (list Z) :=
  map (λ i, map (λ j, Int64.wrap (gram h a i j)) (seq 0 (fst (np.shape a))))
      (seq 0 (fst (np.shape a))).

Definition nonneg_entries (h : heap) (a : np.ndarray) : Prop :=
  ∀ i j, i < fst (np.shape a) → j < snd (np.shape a) → (0 ≤ peek h a i j)%Z.

Definition entries_below (c : Z) (h : heap) (a : np.ndarray) : Prop :=
  ∀ i j, i < fst (np.shape a) → j < snd (np.shape a) → (0 ≤ peek h a i j < c)%Z.


(** The statements of the specification that the code does not meet, as
    the specification words them. *)
Definition exact_product_claim (f : np.ndarray → M np.ndarray) : Prop :=
  ∀ h a, valid h a → int64_entries h a →
    returns (f a) h (λ r h',
      np.shape r = (fst (np.shape a), fst (np.shape a)) ∧
      ∀ i j, i < fst (np.shape a) → j < fst (np.shape a) →
             peek h' r i j = gram h a i j).

Definition nonneg_result_claim (f : np.ndarray → M np.ndarray) : Prop :=
  ∀ h a, valid h a → int64_entries h a → nonneg_entries h a →
    returns (f a) h (λ r h',
      ∀ i j, i < fst (np.shape a) → j < fst (np.shape a) →
             (0 ≤ peek h' r i j)%Z).


(** Concrete inputs used to exercise the theorems. *)
Definition c_array (b : nat) (sh : nat * nat) : np.ndarray :=
  {| np.base := b; np.offset := 0; np.shape := sh; np.strides := (snd sh, 1) |}.
Definition sample_store : heap := [[1; 2; 3; 4; 5; 6]%Z].
Definition sample : np.ndarray := c_array 0 (2, 3).
Definition big_store : heap := [[4294967296]%Z].
Definition big : np.ndarray := c_array 0 (1, 1).
Definition large_store : heap := [[3037000500]%Z].

(** [n] steps of the generator's underlying linear congruential map. *)
Fixpoint lcg_iter (n : nat) (i s : Z) : Z :=
  match n with
  | O => s
  | S n' => PCG64.step (lcg_iter n' i s) i
  end.

(** The affine map [x ↦ P * x + Q] that [2 ^ j] steps amount to. *)
Fixpoint lcg_pow2 (j : nat) (i : Z) : Z * Z :=
  match j with
  | O => (PCG64.PCG_DEFAULT_MULTIPLIER_128, i)
  | S j' => let '(P, Q) := lcg_pow2 j' i in (P * P, (P + 1) * Q)%Z
  end.

(** Invariant of the bit generator's state. *)
Definition gen_ok (g : PCG64.pcg64_state) : Prop :=
  (0 ≤ PCG64.state g < 2 ^ 128)%Z ∧
  (PCG64.inc g mod 2 = 1)%Z ∧
  (0 ≤ PCG64.uinteger g < 2 ^ 32)%Z.

(** Fuel that is enough for every rejection loop: the generator runs
    through all [2 ^ 128] states before it repeats. *)
Definition enough_fuel : nat := Z.to_nat (2 ^ 129 + 3).

(** A product [u * rng_excl] of a 32-bit draw. *)
Definition scaled (rng_excl m : Z) : Prop :=
  ∃ u, (0 ≤ u < 2 ^ 32)%Z ∧ m = (u * rng_excl)%Z.

(** The rejection loop ended with a product of a draw and a sound state. *)
Definition accepted (rng_excl : Z) (r : outcome (Z * PCG64.pcg64_state)) : Prop :=
  ∃ m' g', r = Ok (m', g') ∧ gen_ok g' ∧ scaled rng_excl m'.

(** Dot product of the first [n] elements of two lists, accumulated from
    the front. *)
Fixpoint dot_acc (n : nat) (l1 l2 : list Z) (acc : Z) : Z :=
  match n, l1, l2 with
  | S n', x :: l1', y :: l2' => dot_acc n' l1' l2' (acc + x * y)
  | _, _, _ => acc
  end.

(** Dot product of rows [i] and [j] of a row-major buffer with [n] columns. *)
Definition rows_dot (n : nat) (data : list Z) (i j : nat) : Z :=
  dot_acc n (drop (i * n) data) (drop (j * n) data) 0.

(** The three distinct row dot products of the matrix the scripts generate
    ([None] if the generation does not return). *)
Definition ARR_summary (fuel : nat) (n : Z) : option (Z * Z * Z) :=
  match Generator.default_rng 8675309 with
  | Ok g =>
      match Generator.random_bounded_uint64_fill fuel 0 9
              (Z.to_nat 2 * Z.to_nat n) g with
      | Ok (data, _) =>
          Some (rows_dot (Z.to_nat n) data 0 0,
                rows_dot (Z.to_nat n) data 0 1,
                rows_dot (Z.to_nat n) data 1 1)
      | _ => None
      end
  | _ => None
  end.

(** The statement of the specification on invalid extents, as worded. *)
Definition invalid_dimension_claim : Prop :=
  ∀ fuel seed R N h, (0 ≤ seed)%Z → (R ≤ 0 ∨ N ≤ 0)%Z →
    ∃ e, Generator.generate fuel seed (R, N) h = Raise e.

(** numpy's limit on an [int64] array of shape [(R, N)]: eight times the
    product of the extents other than 0 must not exceed 2^63 - 1. *)
Definition too_big (R N : Z) : Prop :=
  (2 ^ 63 - 1 < 8 * Z.max 1 R * Z.max 1 N)%Z.

(** The four variants of [my_func] on an array of dtype [t]. *)
Definition my_func_as_of (s : strategy) (t : np.dtype)
  : np.ndarray → M np.ndarray :=
  match s with
  | Printing junk => my_script.my_func_as t junk
  | Naive => script_mprof.my_func_as t
  | Broadcast => script_bcast_mprof.my_func_as t
  | DirectMultiply => script_dot.my_func_as t
  end.

(** Every element of the view is a value of the dtype [t]. *)
Definition entries_of (t : np.dtype) (h : heap) (a : np.ndarray) : Prop :=
  ∀ i j, i < fst (np.shape a) → j < snd (np.shape a) →
         np.in_dtype t (peek h a i j).

(** The strategy equivalence of the specification as it words it, for
    every integer matrix: whatever the dtype of the matrix, the naive, the
    broadcast and the direct-multiply [my_func] return the same matrix. *)
Definition strategies_agree_claim : Prop :=
  ∀ t h a, valid h a → entries_of t h a →
    ∃ m : list (list Z),
      returns (script_mprof.my_func_as t a) h (λ r h', matrix_of h' r = m) ∧
      returns (script_bcast_mprof.my_func_as t a) h (λ r h', matrix_of h' r = m) ∧
      returns (script_dot.my_func_as t a) h (λ r h', matrix_of h' r = m).

(** The 1 × 2 matrix [[9, 9]], which fits every dtype. *)
Definition nines_store : heap := [[9; 9]%Z].
Definition nines : np.ndarray := c_array 0 (1, 2).

(** Decoding of little-endian 32-bit words. *)
Definition words_to_int (ws : list Z) : Z :=
  fold_right (λ w acc, w + 2 ^ 32 * acc)%Z 0%Z ws.

(** The generator after [k] calls of [next_uint64]. *)
Fixpoint advance (k : nat) (g : PCG64.pcg64_state) : PCG64.pcg64_state :=
  match k with
  | O => g
  | S k' => snd (PCG64.next_uint64 (advance k' g))
  end.

(** A generator state for exercising the theorems. *)
Definition sample_gen : PCG64.pcg64_state := PCG64.set_seed 1 2 3 4.

(** A store whose first array has a zero row. *)
Definition zero_row_store : heap := [[0; 0; 0; 4; 5; 6]%Z].

(** The number of elements of each buffer of a store, in the order of
    allocation. *)
Definition sizes (h : heap) : list nat := map length h.

(** Whenever [m] returns, every buffer that existed has kept its size, the
    buffers allocated meanwhile have the sizes [l], in this order, and the
    value satisfies [R]. *)
Definition costs {A} (m : M A) (l : list nat) (R : A → Prop) : Prop :=
  ∀ h a h', m h = Ok (a, h') → sizes h' = sizes h ++ l ∧ R a.

(** The sizes allocated by [n] iterations of a loop whose body allocates
    buffers of the sizes [l]. *)
Definition each_of (n : nat) (l : list nat) : list nat :=
  mjoin (replicate n l).

(** Sizes of the buffers one call of each variant allocates on an R × N
    input, in order: the R × R result first, then the temporaries. The
    printing variant allocates, for each of the R rows and each of the R
    columns, the product of a row and a column (N elements); the broadcast
    variant allocates, for each of the R rows, the broadcast product (N × R
    elements) and its column sums (R elements). *)
Definition footprint (s : strategy) (R N : nat) : list nat :=
  match s with
  | Printing _ => R * R :: each_of R (each_of R [N])
  | Naive => [R * R]
  | Broadcast => R * R :: each_of R [N * R; R]
  | DirectMultiply => [R * R]
  end.

(* ===================================================================== *)
(** ** Arithmetic of [int64] *)
(* ===================================================================== *)

Section int64_facts.
Local Open Scope Z_scope.

Lemma wrap_in_range z : Int64.in_range (Int64.wrap z).
Proof.
  unfold Int64.in_range, Int64.wrap, Int64.min_signed, Int64.max_signed.
  pose proof (Z.mod_pos_bound (z + 2 ^ 63) (2 ^ 64) ltac:(lia)). lia.
Qed.

Lemma wrap_id z : Int64.in_range z → Int64.wrap z = z.
Proof.
  unfold Int64.in_range, Int64.wrap, Int64.min_signed, Int64.max_signed.
  intros Hz. rewrite Z.mod_small; lia.
Qed.

Lemma wrap_congr x y : x mod 2 ^ 64 = y mod 2 ^ 64 → Int64.wrap x = Int64.wrap y.
Proof.
  intros Hxy. unfold Int64.wrap. f_equal.
  rewrite <- (Zplus_mod_idemp_l x), <- (Zplus_mod_idemp_l y), Hxy. done.
Qed.

Lemma wrap_mod z : Int64.wrap z mod 2 ^ 64 = z mod 2 ^ 64.
Proof.
  unfold Int64.wrap.
  rewrite Zminus_mod, Zmod_mod, <- Zminus_mod. f_equal. lia.
Qed.

Lemma wrap_add_l x y : Int64.wrap (Int64.wrap x + y) = Int64.wrap (x + y).
Proof.
  apply wrap_congr.
  rewrite <- Zplus_mod_idemp_l, wrap_mod, Zplus_mod_idemp_l. done.
Qed.

Lemma wrap_add_r x y : Int64.wrap (x + Int64.wrap y) = Int64.wrap (x + y).
Proof. rewrite Z.add_comm, wrap_add_l. f_equal. lia. Qed.

Lemma wrap_wrap z : Int64.wrap (Int64.wrap z) = Int64.wrap z.
Proof. apply wrap_id, wrap_in_range. Qed.

Lemma add_wrap_mul acc f g :
  Int64.add (Int64.wrap acc) (Int64.mul f g) = Int64.wrap (acc + f * g).
Proof. unfold Int64.add, Int64.mul. by rewrite wrap_add_l, wrap_add_r. Qed.

(** [np.sum] of the wrapped products is the wrapped exact dot product. *)
Lemma sum_products f g n :
  Int64.sum (map (λ k, Int64.mul (f k) (g k)) (seq 0 n))
  = Int64.wrap (dotprod f g n).
Proof.
  unfold Int64.sum. induction n as [|n IH].
  - reflexivity.
  - rewrite seq_S, map_app, fold_left_app, IH. simpl.
    apply add_wrap_mul.
Qed.

Lemma dotprod_comm f g n : dotprod f g n = dotprod g f n.
Proof. induction n as [|n IH]; simpl; [done | rewrite IH; lia]. Qed.

Lemma dotprod_ext f f' g g' n :
  (∀ k, (k < n)%nat → f k = f' k) → (∀ k, (k < n)%nat → g k = g' k) →
  dotprod f g n = dotprod f' g' n.
Proof.
  induction n as [|n IH]; intros Hf Hg; simpl; [done|].
  rewrite IH, Hf, Hg by (intros; first [apply Hf | apply Hg | idtac]; lia).
  done.
Qed.

Lemma dotprod_nonneg f g n :
  (∀ k, (k < n)%nat → 0 ≤ f k) → (∀ k, (k < n)%nat → 0 ≤ g k) →
  0 ≤ dotprod f g n.
Proof.
  induction n as [|n IH]; intros Hf Hg; simpl; [done|].
  specialize (IH ltac:(intros; apply Hf; lia) ltac:(intros; apply Hg; lia)).
  pose proof (Hf n ltac:(lia)). pose proof (Hg n ltac:(lia)). nia.
Qed.

Lemma dotprod_bound f g n (c : Z) :
  (∀ k, (k < n)%nat → 0 ≤ f k < c) → (∀ k, (k < n)%nat → 0 ≤ g k < c) →
  0 ≤ dotprod f g n ≤ Z.of_nat n * ((c - 1) * (c - 1)).
Proof.
  induction n as [|n IH]; intros Hf Hg; [simpl; lia|].
  specialize (IH ltac:(intros; apply Hf; lia) ltac:(intros; apply Hg; lia)).
  pose proof (Hf n ltac:(lia)). pose proof (Hg n ltac:(lia)).
  cbn [dotprod]. nia.
Qed.

End int64_facts.

(* ===================================================================== *)
(** ** Reasoning rules for the monad *)
(* ===================================================================== *)

Section monad_facts.
Context {A B : Type}.

Lemma bind_ok (m : M A) (f : A → M B) h a h' :
  m h = Ok (a, h') → (m ≫= f) h = f a h'.
Proof. intros E. unfold mbind, M_bind. by rewrite E. Qed.

Lemma returns_bind (m : M A) (f : A → M B) h Q :
  returns m h (λ a h1, returns (f a) h1 Q) → returns (m ≫= f) h Q.
Proof.
  intros (a & h1 & E & b & h2 & E2 & HQ).
  exists b, h2. split; [|done]. by rewrite (bind_ok _ _ _ _ _ E).
Qed.

Lemma returns_ret (a : A) h (Q : A → heap → Prop) :
  Q a h → returns (mret a) h Q.
Proof. intros HQ. by exists a, h. Qed.

Lemma returns_weaken (m : M A) h (Q Q' : A → heap → Prop) :
  returns m h Q → (∀ a h', Q a h' → Q' a h') → returns m h Q'.
Proof. intros (a & h' & E & HQ) HQQ. exists a, h'. auto. Qed.

Lemma returns_eq (m : M A) h a h' (Q : A → heap → Prop) :
  m h = Ok (a, h') → Q a h' → returns m h Q.
Proof. intros E HQ. by exists a, h'. Qed.

Lemma returns_lift (o : outcome A) (a : A) h (Q : A → heap → Prop) :
  o = Ok a → Q a h → returns (lift o) h Q.
Proof. intros -> HQ. by exists a, h. Qed.

End monad_facts.

Section loops.

Lemma reads_bind {A B} (m : M A) (f : A → M B) h a b :
  reads m h a → reads (f a) h b → reads (m ≫= f) h b.
Proof. unfold reads. intros E1 E2. by rewrite (bind_ok _ _ _ _ _ E1). Qed.

Lemma reads_ret {A} (a : A) h : reads (mret a) h a.
Proof. reflexivity. Qed.

Lemma reads_returns {A} (m : M A) h a (Q : A → heap → Prop) :
  reads m h a → Q a h → returns m h Q.
Proof. intros E HQ. by exists a, h. Qed.

Lemma reads_collect {A} (f : nat → M A) (g : nat → A) h l :
  (∀ k, k ∈ l → reads (f k) h (g k)) → reads (collect l f) h (map g l).
Proof.
  induction l as [|i l IH]; intros Hf; [reflexivity|].
  simpl. eapply reads_bind; [apply Hf; left|].
  eapply reads_bind; [apply IH; intros; apply Hf; by right|].
  reflexivity.
Qed.

Lemma reads_tabulate {A} (f : nat → M A) (g : nat → A) h n :
  (∀ k, k < n → reads (f k) h (g k)) →
  reads (tabulate n f) h (map g (seq 0 n)).
Proof.
  intros Hf. apply reads_collect. intros k Hk. apply Hf.
  apply elem_of_seq in Hk. lia.
Qed.

(** The invariant rule for [for i in range(start, start + n)]. *)
Lemma for_each_seq_rule (I : nat → heap → Prop) body n : ∀ start h,
  (∀ i h, start ≤ i < start + n → I i h →
          returns (body i) h (λ _ h', I (S i) h')) →
  I start h →
  returns (for_each (seq start n) body) h (λ _ h', I (start + n) h').
Proof.
  induction n as [|n IH]; intros start h Hbody HI.
  - apply returns_ret. by rewrite Nat.add_0_r.
  - simpl. apply returns_bind.
    eapply returns_weaken; [apply Hbody; [lia | done]|].
    intros [] h1 HI1. simpl in *.
    eapply returns_weaken; [apply IH; [|done]|].
    + intros i h2 Hi. apply Hbody. lia.
    + intros [] h2. by rewrite Nat.add_succ_r.
Qed.

Lemma for_range_rule (I : nat → heap → Prop) body n h :
  (∀ i h, i < n → I i h → returns (body i) h (λ _ h', I (S i) h')) →
  I 0 h →
  returns (for_range n body) h (λ _ h', I n h').
Proof.
  intros Hbody HI. apply (for_each_seq_rule I body n 0 h); [|done].
  intros i h1 Hi. apply Hbody. lia.
Qed.

Lemma lookup_map_seq {A} (g : nat → A) n k :
  k < n → map g (seq 0 n) !! k = Some (g k).
Proof.
  intros Hk. change (map g (seq 0 n)) with (g <$> seq 0 n).
  rewrite list_lookup_fmap, lookup_seq_lt by done. reflexivity.
Qed.

Lemma index_div i j m : j < m → (i * m + j) / m = i.
Proof. intros Hj. symmetry. apply (Nat.div_unique _ _ _ j); lia. Qed.

Lemma index_mod i j m : j < m → (i * m + j) mod m = j.
Proof. intros Hj. symmetry. apply (Nat.mod_unique _ _ i); lia. Qed.

Lemma index_bound i j n m : i < n → j < m → i * m + j < n * m.
Proof. nia. Qed.

End loops.

(* ===================================================================== *)
(** ** Views and the store *)
(* ===================================================================== *)

Section views.
Implicit Types (h : heap) (a r : np.ndarray) (v : np.ndarray1).

Lemma reads_load h b i buf z :
  h !! b = Some buf → buf !! i = Some z → reads (load b i) h z.
Proof. intros Hb Hi. unfold reads, load. rewrite Hb. simpl. by rewrite Hi. Qed.

Lemma reads_load_valid h a i j :
  valid h a → i < fst (np.shape a) → j < snd (np.shape a) →
  reads (load (np.base a) (np.addr a i j)) h (peek h a i j).
Proof.
  intros (buf & Hb & Hin) Hi Hj.
  destruct (lookup_lt_is_Some_2 buf (np.addr a i j) (Hin i j Hi Hj)) as [z Hz].
  unfold peek. rewrite Hb. simpl. rewrite Hz. simpl.
  by eapply reads_load.
Qed.

Lemma reads_load_valid1 h v k :
  valid1 h v → k < np.shape1 v →
  reads (load (np.base1 v) (np.addr1 v k)) h (peek1 h v k).
Proof.
  intros (buf & Hb & Hin) Hk.
  destruct (lookup_lt_is_Some_2 buf (np.addr1 v k) (Hin k Hk)) as [z Hz].
  unfold peek1. rewrite Hb. simpl. rewrite Hz. simpl.
  by eapply reads_load.
Qed.

Lemma addr_T a i j : np.addr (np.T a) i j = np.addr a j i.
Proof. unfold np.addr, np.T. simpl. lia. Qed.

Lemma peek_T h a i j : peek h (np.T a) i j = peek h a j i.
Proof. unfold peek. by rewrite addr_T. Qed.

Lemma valid_T h a : valid h a → valid h (np.T a).
Proof.
  intros (buf & Hb & Hin). exists buf. split; [done|].
  intros i j Hi Hj. rewrite addr_T. apply Hin; done.
Qed.

Lemma valid_prefix h h' a : h `prefix_of` h' → valid h a → valid h' a.
Proof.
  intros Hp (buf & Hb & Hin). exists buf. split; [|done].
  by eapply prefix_lookup_Some.
Qed.

Lemma peek_prefix h h' a i j :
  h `prefix_of` h' → valid h a → peek h' a i j = peek h a i j.
Proof.
  intros Hp (buf & Hb & _). unfold peek.
  by rewrite Hb, (prefix_lookup_Some _ _ _ _ Hb Hp).
Qed.

Lemma valid1_prefix h h' v : h `prefix_of` h' → valid1 h v → valid1 h' v.
Proof.
  intros Hp (buf & Hb & Hin). exists buf. split; [|done].
  by eapply prefix_lookup_Some.
Qed.

Lemma peek1_prefix h h' v k :
  h `prefix_of` h' → valid1 h v → peek1 h' v k = peek1 h v k.
Proof.
  intros Hp (buf & Hb & _). unfold peek1.
  by rewrite Hb, (prefix_lookup_Some _ _ _ _ Hb Hp).
Qed.

Lemma gram_prefix h h' a i j :
  h `prefix_of` h' → valid h a → gram h' a i j = gram h a i j.
Proof.
  intros Hp Hv. unfold gram.
  apply dotprod_ext; intros; by apply peek_prefix.
Qed.

Lemma contig_valid h r : contig h r → valid h r.
Proof.
  intros (Ho & Hs & buf & Hb & Hlen). exists buf. split; [done|].
  intros i j Hi Hj. unfold np.addr. rewrite Ho, Hs, Hlen. simpl. nia.
Qed.

Lemma contig_addr h r i j : contig h r → np.addr r i j = i * snd (np.shape r) + j.
Proof. intros (Ho & Hs & _). unfold np.addr. rewrite Ho, Hs. simpl. lia. Qed.

Lemma returns_fresh sh data h (Q : np.ndarray → heap → Prop) :
  Q {| np.base := length h; np.offset := 0; np.shape := sh;
       np.strides := (snd sh, 1) |} (h ++ [data]) →
  returns (np.fresh sh data) h Q.
Proof. intros HQ. eexists _, _. split; [reflexivity | exact HQ]. Qed.

Lemma returns_fresh1 data h (Q : np.ndarray1 → heap → Prop) :
  Q {| np.base1 := length h; np.offset1 := 0; np.shape1 := length data;
       np.strides1 := 1 |} (h ++ [data]) →
  returns (np.fresh1 data) h Q.
Proof. intros HQ. eexists _, _. split; [reflexivity | exact HQ]. Qed.

Lemma lookup_fresh h (data : list Z) : (h ++ [data]) !! length h = Some data.
Proof. by rewrite lookup_app_r, Nat.sub_diag by lia. Qed.

Lemma contig_fresh h data sh :
  length data = fst sh * snd sh →
  contig (h ++ [data])
    {| np.base := length h; np.offset := 0; np.shape := sh;
       np.strides := (snd sh, 1) |}.
Proof.
  intros Hlen. split; [done|]. split; [done|].
  exists data. split; [apply lookup_fresh | done].
Qed.

Lemma peek_fresh h data sh i j :
  peek (h ++ [data])
    {| np.base := length h; np.offset := 0; np.shape := sh;
       np.strides := (snd sh, 1) |} i j
  = default 0%Z (data !! (i * snd sh + j)).
Proof.
  unfold peek, np.addr. simpl. rewrite lookup_fresh. simpl.
  do 2 f_equal. lia.
Qed.

Lemma peek1_fresh h data k :
  peek1 (h ++ [data])
    {| np.base1 := length h; np.offset1 := 0; np.shape1 := length data;
       np.strides1 := 1 |} k
  = default 0%Z (data !! k).
Proof.
  unfold peek1, np.addr1. simpl. rewrite lookup_fresh. simpl.
  do 2 f_equal. lia.
Qed.

Lemma valid1_fresh h data :
  valid1 (h ++ [data])
    {| np.base1 := length h; np.offset1 := 0; np.shape1 := length data;
       np.strides1 := 1 |}.
Proof.
  exists data. split; [apply lookup_fresh|].
  intros k Hk. unfold np.addr1. simpl in *. lia.
Qed.

End views.

(* ===================================================================== *)
(** ** [script_dot.my_func] *)
(* ===================================================================== *)

Section script_dot_correct.

(** The [@] of a valid array with its transpose. *)
Lemma script_dot_spec h a :
  valid h a → returns (script_dot.my_func a) h (my_func_post h a).
Proof.
  intros Hv. unfold script_dot.my_func, np.matmul.
  destruct a as [b o [n k] [s0 s1]]. cbn [np.shape np.T np.base fst snd].
  set (a := {| np.base := b; np.offset := o; np.shape := (n, k);
               np.strides := (s0, s1) |}) in *.
  destruct (decide (k = k)) as [_|]; [|done].
  apply returns_bind, returns_bind. apply returns_ret.
  apply returns_bind.
  eapply reads_returns.
  { apply reads_tabulate with
      (g := λ p, Int64.sum (map (λ e, Int64.mul (peek h a (p / n) e)
                                         (peek h a (p mod n) e)) (seq 0 k))).
    intros p Hp.
    assert (Hn : n ≠ 0) by (intros ->; lia).
    assert (p / n < n) by (apply Nat.Div0.div_lt_upper_bound; lia).
    assert (p mod n < n) by (by apply Nat.mod_upper_bound).
    eapply reads_bind; [|apply reads_ret].
    apply reads_tabulate. intros e He.
    eapply reads_bind.
    { by apply (reads_load_valid h a). }
    eapply reads_bind.
    { by apply (reads_load_valid h (np.T a)); [apply valid_T | |]. }
    rewrite peek_T. apply reads_ret. }
  apply returns_fresh. apply returns_ret.
  split; [by eexists|]. split; [done|]. split; [done|].
  split; [apply contig_fresh; by rewrite length_map, length_seq|].
  cbn [np.shape fst snd]. intros i j Hi Hj.
  rewrite peek_fresh. cbn [snd].
  rewrite lookup_map_seq by (by apply index_bound). cbn [default].
  rewrite index_div, index_mod by done.
  by rewrite sum_products.
Qed.

End script_dot_correct.

(* ===================================================================== *)
(** ** Writing into the result array *)
(* ===================================================================== *)

Section result_array.
Implicit Types (h : heap) (a r : np.ndarray).

Lemma returns_store h b i v buf (Q : unit → heap → Prop) :
  h !! b = Some buf → i < length buf →
  Q tt (<[b := <[i := v]> buf]> h) → returns (store b i v) h Q.
Proof.
  intros Hb Hi HQ. exists tt, (<[b := <[i := v]> buf]> h). split; [|done].
  unfold store. rewrite Hb. by destruct (decide (i < length buf)).
Qed.

Lemma prefix_insert_ge (h0 h : heap) b x :
  h0 `prefix_of` h → length h0 ≤ b → h0 `prefix_of` <[b := x]> h.
Proof.
  intros [k ->] Hb. exists (<[b - length h0 := x]> k).
  by rewrite insert_app_r_alt.
Qed.

Lemma cells_ext h r F G :
  cells h r F →
  (∀ i j, i < fst (np.shape r) → j < snd (np.shape r) → F i j = G i j) →
  cells h r G.
Proof.
  intros [Hc HF] HFG. split; [done|].
  intros i j Hi Hj. rewrite HF by done. by apply HFG.
Qed.

Lemma reads_getitem h a i j :
  valid h a → i < fst (np.shape a) → j < snd (np.shape a) →
  reads (np.getitem a (i, j)) h (peek h a i j).
Proof.
  intros Hv Hi Hj. unfold np.getitem. cbn [fst snd].
  destruct (decide _) as [_|Hn]; [|by destruct Hn].
  by apply reads_load_valid.
Qed.

Lemma index_inj i j i' j' m :
  j < m → j' < m → i * m + j = i' * m + j' → i = i' ∧ j = j'.
Proof. intros Hj Hj' E. assert (i = i') by nia. subst. lia. Qed.

(** [r[i, j] = v] changes this cell of [r] and nothing below [r]. *)
Lemma returns_setitem (h0 h : heap) r i j v F :
  h0 `prefix_of` h → length h0 ≤ np.base r → cells h r F →
  i < fst (np.shape r) → j < snd (np.shape r) →
  returns (np.setitem r (i, j) v) h (λ _ h2,
    h0 `prefix_of` h2 ∧
    cells h2 r (λ i' j', if decide (i' = i ∧ j' = j) then v else F i' j')).
Proof.
  intros Hp Hb [Hc HF] Hi Hj. unfold np.setitem. cbn [fst snd].
  destruct (decide _) as [_|Hn]; [|by destruct Hn].
  pose proof Hc as (Ho & Hs & buf & Hbuf & Hlen).
  assert (Hr : np.base r < length h) by (by eapply lookup_lt_Some).
  rewrite (contig_addr h r i j Hc).
  eapply returns_store; [done | rewrite Hlen; by apply index_bound |].
  split; [by apply prefix_insert_ge|].
  assert (Hc2 : contig (<[np.base r := <[i * snd (np.shape r) + j := v]> buf]> h) r).
  { split; [done|]. split; [done|]. eexists. split.
    - by apply list_lookup_insert_eq.
    - by rewrite length_insert. }
  split; [done|]. intros i' j' Hi' Hj'.
  unfold peek. rewrite list_lookup_insert_eq by done. cbn [mbind option_bind].
  rewrite (contig_addr _ r i' j' Hc2).
  destruct (decide (i' = i ∧ j' = j)) as [[-> ->]|Hne].
  - rewrite list_lookup_insert_eq; [done|].
    rewrite Hlen. by apply index_bound.
  - rewrite list_lookup_insert_ne.
    + rewrite <- (HF i' j' Hi' Hj'). unfold peek.
      rewrite Hbuf. cbn [mbind option_bind].
      by rewrite (contig_addr h r i' j' Hc).
    + intros E. destruct (index_inj _ _ _ _ _ Hj Hj' E). by destruct Hne.
Qed.

(** [r[i, j] += v] *)
Lemma returns_iadd (h0 h : heap) r i j v F :
  h0 `prefix_of` h → length h0 ≤ np.base r → cells h r F →
  i < fst (np.shape r) → j < snd (np.shape r) →
  returns (np.iadd r (i, j) v) h (λ _ h2,
    h0 `prefix_of` h2 ∧
    cells h2 r (λ i' j',
      if decide (i' = i ∧ j' = j) then Int64.add (F i j) v else F i' j')).
Proof.
  intros Hp Hb Hc Hi Hj. unfold np.iadd. apply returns_bind.
  eapply reads_returns.
  { apply reads_getitem; [apply contig_valid, Hc | done..]. }
  destruct Hc as [Hc HF]. rewrite HF by done.
  by apply returns_setitem.
Qed.

Lemma cells_zeros h n m :
  cells (h ++ [replicate (n * m) 0%Z])
    {| np.base := length h; np.offset := 0; np.shape := (n, m);
       np.strides := (m, 1) |} (λ _ _, 0%Z).
Proof.
  split; [apply (contig_fresh h _ (n, m)); by rewrite length_replicate|].
  cbn [np.shape fst snd]. intros i j Hi Hj.
  rewrite (peek_fresh h _ (n, m)). cbn [snd].
  rewrite lookup_replicate_2; [done | by apply index_bound].
Qed.

End result_array.

(* ===================================================================== *)
(** ** [script_mprof.my_func]: the triple loop *)
(* ===================================================================== *)

Section script_mprof_correct.
Variables (h : heap) (a : np.ndarray) (r : np.ndarray).
Hypothesis Hv : valid h a.
Hypothesis Hbase : np.base r = length h.
Hypothesis Hshape : np.shape r = (fst (np.shape a), fst (np.shape a)).

Let nrow := fst (np.shape a).
Let ncol := snd (np.shape a).
Let W i j := Int64.wrap (gram h a i j).

(** Cells already final when the loops stand at [(rix, cix)]. *)
Let done_upto (rix cix i j : nat) : Z :=
  if decide (i < rix ∨ (i = rix ∧ j < cix)) then W i j else 0%Z.

Lemma mprof_inner rix cix hc :
  rix < nrow → cix < nrow →
  h `prefix_of` hc → cells hc r (done_upto rix cix) →
  returns
    (for_range ncol (λ eix,
       x ← np.getitem a (rix, eix);
       y ← np.getitem (np.T a) (eix, cix);
       np.iadd r (rix, cix) (Int64.mul x y))) hc
    (λ _ hc', h `prefix_of` hc' ∧ cells hc' r (done_upto rix (S cix))).
Proof.
  intros Hr Hc Hp Hcells.
  pose (I := λ eix hx, h `prefix_of` hx ∧
    cells hx r (λ i j, if decide (i = rix ∧ j = cix)
                       then Int64.wrap (dotprod (peek h a rix) (peek h a cix) eix)
                       else done_upto rix cix i j)).
  eapply returns_weaken; [apply (for_range_rule I)|].
  - intros eix hx He [Hpx Hcx]. apply returns_bind.
    eapply reads_returns.
    { apply reads_getitem; [by eapply valid_prefix | done..]. }
    apply returns_bind. eapply reads_returns.
    { apply reads_getitem; [by eapply valid_T, valid_prefix | done..]. }
    rewrite peek_T, !(peek_prefix h hx) by done.
    eapply returns_weaken.
    { eapply returns_iadd; [exact Hpx | lia | exact Hcx | rewrite Hshape; done..]. }
    intros [] h2 [Hp2 Hc2]. split; [done|].
    eapply cells_ext; [exact Hc2|]. intros i j Hi Hj. cbn beta.
    destruct (decide (i = rix ∧ j = cix)) as [_|_]; [|done].
    destruct (decide (rix = rix ∧ cix = cix)) as [_|[]]; [|done].
    apply add_wrap_mul.
  - split; [done|]. eapply cells_ext; [exact Hcells|].
    intros i j Hi Hj. destruct (decide (i = rix ∧ j = cix)) as [[-> ->]|]; [|done].
    unfold done_upto. destruct (decide _) as [Hd|]; [lia | done].
  - intros [] hx [Hpx Hcx]. split; [done|].
    eapply cells_ext; [exact Hcx|]. intros i j Hi Hj. cbn beta.
    unfold done_upto.
    destruct (decide (i = rix ∧ j = cix)) as [[-> ->]|Hne].
    + destruct (decide _) as [|Hn]; [done | lia].
    + repeat destruct (decide _); try done; lia.
Qed.

Lemma mprof_middle rix hc :
  rix < nrow →
  h `prefix_of` hc → cells hc r (done_upto rix 0) →
  returns
    (for_range nrow (λ cix,
       for_range ncol (λ eix,
         x ← np.getitem a (rix, eix);
         y ← np.getitem (np.T a) (eix, cix);
         np.iadd r (rix, cix) (Int64.mul x y)))) hc
    (λ _ hc', h `prefix_of` hc' ∧ cells hc' r (done_upto (S rix) 0)).
Proof.
  intros Hr Hp Hcells.
  pose (I := λ cix hx, h `prefix_of` hx ∧ cells hx r (done_upto rix cix)).
  eapply returns_weaken; [apply (for_range_rule I)|].
  - intros cix hx Hc [Hpx Hcx]. by apply mprof_inner.
  - done.
  - intros [] hx [Hpx Hcx]. split; [done|].
    eapply cells_ext; [exact Hcx|]. rewrite Hshape. cbn [fst snd].
    intros i j Hi Hj. unfold done_upto.
    repeat destruct (decide _); try done; lia.
Qed.

Lemma mprof_outer hc :
  h `prefix_of` hc → cells hc r (λ _ _, 0%Z) →
  returns
    (for_range nrow (λ rix,
       for_range nrow (λ cix,
         for_range ncol (λ eix,
           x ← np.getitem a (rix, eix);
           y ← np.getitem (np.T a) (eix, cix);
           np.iadd r (rix, cix) (Int64.mul x y))))) hc
    (λ _ hc', h `prefix_of` hc' ∧ cells hc' r W).
Proof.
  intros Hp Hcells.
  pose (I := λ rix hx, h `prefix_of` hx ∧ cells hx r (done_upto rix 0)).
  eapply returns_weaken; [apply (for_range_rule I)|].
  - intros rix hx Hr [Hpx Hcx]. by apply mprof_middle.
  - split; [done|]. eapply cells_ext; [exact Hcells|].
    intros i j _ _. unfold done_upto. destruct (decide _); [lia | done].
  - intros [] hx [Hpx Hcx]. split; [done|].
    eapply cells_ext; [exact Hcx|]. rewrite Hshape. cbn [fst snd].
    intros i j Hi Hj. unfold done_upto.
    destruct (decide _); [done | lia].
Qed.

End script_mprof_correct.

Lemma script_mprof_spec h a :
  valid h a → returns (script_mprof.my_func a) h (my_func_post h a).
Proof.
  intros Hv. unfold script_mprof.my_func.
  destruct (np.shape a) as [nrow ncol] eqn:Hsh.
  unfold np.zeros. apply returns_bind, returns_fresh. cbn [fst snd].
  apply returns_bind.
  pose (r := {| np.base := length h; np.offset := 0; np.shape := (nrow, nrow);
                np.strides := (nrow, 1) |}).
  eapply returns_weaken.
  { pose proof (mprof_outer h a r Hv eq_refl) as Hloop.
    rewrite Hsh in Hloop. cbn [fst snd] in Hloop.
    apply (Hloop eq_refl); [by eexists | apply cells_zeros]. }
  intros [] h' [Hp [Hc Hcells]]. apply returns_ret.
  split; [done|]. split; [done|]. rewrite Hsh. cbn [fst].
  split; [done|]. split; [done|]. exact Hcells.
Qed.

(* ===================================================================== *)
(** ** Specifications of the array operations *)
(* ===================================================================== *)

Section numpy_ops.
Implicit Types (h : heap) (a b r : np.ndarray) (v w : np.ndarray1).

Lemma reads_row h a i :
  i < fst (np.shape a) → reads (np.row a i) h (row_view a i).
Proof. intros Hi. unfold np.row. by destruct (decide _). Qed.

Lemma reads_col h a j :
  j < snd (np.shape a) → reads (np.col a j) h (col_view a j).
Proof. intros Hj. unfold np.col. by destruct (decide _). Qed.

Lemma addr1_row a i k : np.addr1 (row_view a i) k = np.addr a i k.
Proof. reflexivity. Qed.

Lemma addr1_col a j k : np.addr1 (col_view a j) k = np.addr a k j.
Proof. unfold np.addr1, np.addr, col_view. simpl. lia. Qed.

Lemma peek1_row h a i k : peek1 h (row_view a i) k = peek h a i k.
Proof. reflexivity. Qed.

Lemma peek1_col h a j k : peek1 h (col_view a j) k = peek h a k j.
Proof. unfold peek1, peek. by rewrite addr1_col. Qed.

Lemma valid1_row h a i : valid h a → i < fst (np.shape a) → valid1 h (row_view a i).
Proof.
  intros (buf & Hb & Hin) Hi. exists buf. split; [done|].
  intros k Hk. rewrite addr1_row. by apply Hin.
Qed.

Lemma valid1_col h a j : valid h a → j < snd (np.shape a) → valid1 h (col_view a j).
Proof.
  intros (buf & Hb & Hin) Hj. exists buf. split; [done|].
  intros k Hk. rewrite addr1_col. by apply Hin.
Qed.

Lemma broadcast_dim_ok n m d :
  np.broadcast_dim n m = Ok d → (n = d ∨ n = 1) ∧ (m = d ∨ m = 1).
Proof.
  unfold np.broadcast_dim. repeat destruct (decide _); intros E;
    simplify_eq; auto.
Qed.

Lemma broadcast_dim_same n : np.broadcast_dim n n = Ok n.
Proof. unfold np.broadcast_dim. by destruct (decide _). Qed.

Lemma broadcast_dim_one m : np.broadcast_dim 1 m = Ok m.
Proof. unfold np.broadcast_dim. repeat destruct (decide _); by subst. Qed.

Lemma broadcast_to1_same v n : np.shape1 v = n → np.broadcast_to1 v n = v.
Proof.
  intros <-. destruct v. unfold np.broadcast_to1, np.broadcast_stride. simpl.
  by destruct (decide _).
Qed.

Lemma list_of_lookups (data : list Z) :
  map (λ k, default 0%Z (data !! k)) (seq 0 (length data)) = data.
Proof.
  apply list_eq. intros k. destruct (decide (k < length data)) as [Hk|Hk].
  - rewrite lookup_map_seq by done.
    destruct (lookup_lt_is_Some_2 data k Hk) as [z Hz]. by rewrite Hz.
  - rewrite !lookup_ge_None_2; [done | lia |].
    rewrite length_map, length_seq. lia.
Qed.

(** [v * w] for two one-dimensional views of the same length. *)
Lemma returns_multiply1 h v w (Q : np.ndarray1 → heap → Prop) :
  valid1 h v → valid1 h w → np.shape1 w = np.shape1 v →
  (let data := map (λ k, Int64.mul (peek1 h v k) (peek1 h w k))
                   (seq 0 (np.shape1 v)) in
   Q (fresh1_at h (np.shape1 v)) (h ++ [data])) →
  returns (np.multiply1 v w) h Q.
Proof.
  intros Hv Hw Hlen HQ. unfold np.multiply1.
  apply returns_bind. eapply returns_lift.
  { rewrite Hlen. apply broadcast_dim_same. }
  rewrite !broadcast_to1_same by done.
  apply returns_bind. eapply reads_returns.
  { apply reads_tabulate with (g := λ k, Int64.mul (peek1 h v k) (peek1 h w k)).
    intros k Hk.
    eapply reads_bind; [by apply reads_load_valid1|].
    eapply reads_bind; [apply reads_load_valid1; [done | by rewrite Hlen]|].
    apply reads_ret. }
  apply returns_fresh1. rewrite length_map, length_seq. exact HQ.
Qed.

(** [np.sum(v)] *)
Lemma reads_sum h v :
  valid1 h v →
  reads (np.sum v) h (Int64.sum (map (peek1 h v) (seq 0 (np.shape1 v)))).
Proof.
  intros Hv. unfold np.sum. eapply reads_bind; [|apply reads_ret].
  apply reads_tabulate. intros k Hk. by apply reads_load_valid1.
Qed.

Lemma cells_prefix h h' r F : h `prefix_of` h' → cells h r F → cells h' r F.
Proof.
  intros Hp [Hc HF]. pose proof (contig_valid _ _ Hc) as Hv.
  split.
  - destruct Hc as (Ho & Hs & buf & Hb & Hlen).
    split; [done|]. split; [done|]. exists buf. split; [|done].
    by eapply prefix_lookup_Some.
  - intros i j Hi Hj. rewrite (peek_prefix h h') by done. by apply HF.
Qed.

Lemma prefix_snoc (h0 h : heap) x : h0 `prefix_of` h → h0 `prefix_of` h ++ [x].
Proof. intros Hp. by apply prefix_app_r. Qed.

End numpy_ops.

(* ===================================================================== *)
(** ** [my_script.my_func]: one [np.sum] per cell of an [np.empty] array *)
(* ===================================================================== *)

Section my_script_correct.
Variables (h : heap) (a : np.ndarray) (r : np.ndarray) (J : nat → nat → Z).
Hypothesis Hv : valid h a.
Hypothesis Hbase : np.base r = length h.
Hypothesis Hshape : np.shape r = (fst (np.shape a), fst (np.shape a)).

Let nrow := fst (np.shape a).
Let W i j := Int64.wrap (gram h a i j).

(** Before the loops reach a cell it still holds what [np.empty] left. *)
Let filled (rix cix i j : nat) : Z :=
  if decide (i < rix ∨ (i = rix ∧ j < cix)) then W i j else J i j.

Lemma my_script_cell rix cix hc F :
  rix < nrow → cix < nrow →
  h `prefix_of` hc → cells hc r F →
  returns
    (r1 ← np.row a rix;
     c ← np.col (np.T a) cix;
     p ← np.multiply1 r1 c;
     s ← np.sum p;
     np.setitem r (rix, cix) s) hc
    (λ _ hc', h `prefix_of` hc' ∧
       cells hc' r (λ i j, if decide (i = rix ∧ j = cix) then W rix cix
                           else F i j)).
Proof.
  intros Hr Hc Hp Hcells.
  assert (Hvc : valid hc a) by (by eapply valid_prefix).
  apply returns_bind. eapply reads_returns; [by apply reads_row|].
  apply returns_bind. eapply reads_returns; [by apply reads_col|].
  apply returns_bind. apply returns_multiply1;
    [by apply valid1_row | apply valid1_col; [by apply valid_T | done] | done |].
  cbn zeta. change (np.shape1 (row_view a rix)) with (snd (np.shape a)).
  set (data := map _ _).
  assert (Hlen : length data = snd (np.shape a))
    by (unfold data; by rewrite length_map, length_seq).
  apply returns_bind. eapply reads_returns.
  { apply reads_sum. rewrite <- Hlen. apply valid1_fresh. }
  cbn [fresh1_at np.shape1].
  rewrite (map_ext _ (λ k, default 0%Z (data !! k)))
    by (intros k; rewrite <- Hlen; apply peek1_fresh).
  rewrite <- Hlen, list_of_lookups. unfold data.
  rewrite (sum_products (peek1 hc (row_view a rix))
             (peek1 hc (col_view (np.T a) cix))).
  rewrite (dotprod_ext _ (peek h a rix) _ (peek h a cix)).
  2: { intros k _. rewrite peek1_row. by apply peek_prefix. }
  2: { intros k _. rewrite peek1_col, peek_T. by apply peek_prefix. }
  apply (returns_setitem h); [by apply prefix_snoc | lia | | by rewrite Hshape..].
  eapply cells_prefix; [|done]. by apply prefix_app_r.
Qed.

Lemma my_script_row rix hc :
  rix < nrow →
  h `prefix_of` hc → cells hc r (filled rix 0) →
  returns
    (for_range nrow (λ cix,
       r1 ← np.row a rix;
       c ← np.col (np.T a) cix;
       p ← np.multiply1 r1 c;
       s ← np.sum p;
       np.setitem r (rix, cix) s)) hc
    (λ _ hc', h `prefix_of` hc' ∧ cells hc' r (filled (S rix) 0)).
Proof.
  intros Hr Hp Hcells.
  pose (I := λ cix hx, h `prefix_of` hx ∧ cells hx r (filled rix cix)).
  eapply returns_weaken; [apply (for_range_rule I)|].
  - intros cix hx Hc [Hpx Hcx].
    eapply returns_weaken; [by apply my_script_cell|].
    intros [] h2 [Hp2 Hc2]. split; [done|].
    eapply cells_ext; [exact Hc2|]. intros i j Hi Hj. cbn beta. unfold filled.
    destruct (decide (i = rix ∧ j = cix)) as [[-> ->]|Hne].
    + destruct (decide _); [done | lia].
    + repeat destruct (decide _); try done; lia.
  - done.
  - intros [] hx [Hpx Hcx]. split; [done|].
    eapply cells_ext; [exact Hcx|]. rewrite Hshape. cbn [fst snd].
    intros i j Hi Hj. unfold filled.
    repeat destruct (decide _); try done; lia.
Qed.

Lemma my_script_loops hc :
  h `prefix_of` hc → cells hc r J →
  returns
    (for_range nrow (λ rix,
       for_range nrow (λ cix,
         r1 ← np.row a rix;
         c ← np.col (np.T a) cix;
         p ← np.multiply1 r1 c;
         s ← np.sum p;
         np.setitem r (rix, cix) s))) hc
    (λ _ hc', h `prefix_of` hc' ∧ cells hc' r W).
Proof.
  intros Hp Hcells.
  pose (I := λ rix hx, h `prefix_of` hx ∧ cells hx r (filled rix 0)).
  eapply returns_weaken; [apply (for_range_rule I)|].
  - intros rix hx Hr [Hpx Hcx]. by apply my_script_row.
  - split; [done|]. eapply cells_ext; [exact Hcells|].
    intros i j _ _. unfold filled. destruct (decide _); [lia | done].
  - intros [] hx [Hpx Hcx]. split; [done|].
    eapply cells_ext; [exact Hcx|]. rewrite Hshape. cbn [fst snd].
    intros i j Hi Hj. unfold filled.
    destruct (decide _); [done | lia].
Qed.

End my_script_correct.

Lemma cells_empty h (junk : nat → Z) n m :
  cells (h ++ [map (λ k, Int64.wrap (junk k)) (seq 0 (n * m))])
    (fresh_at h (n, m)) (λ i j, Int64.wrap (junk (i * m + j))).
Proof.
  split; [apply (contig_fresh h _ (n, m)); by rewrite length_map, length_seq|].
  cbn [fresh_at np.shape fst snd]. intros i j Hi Hj.
  rewrite (peek_fresh h _ (n, m)). cbn [snd].
  rewrite lookup_map_seq; [done | by apply index_bound].
Qed.

Lemma my_script_spec junk h a :
  valid h a → returns (my_script.my_func junk a) h (my_func_post h a).
Proof.
  intros Hv. unfold my_script.my_func, np.empty.
  apply returns_bind, returns_fresh. cbn [fst snd].
  apply returns_bind.
  eapply returns_weaken.
  { apply (my_script_loops h a (fresh_at h (fst (np.shape a), fst (np.shape a)))
             (λ i j, Int64.wrap (junk (i * fst (np.shape a) + j))) Hv eq_refl eq_refl).
    - by eexists.
    - apply cells_empty. }
  intros [] h' [Hp [Hc Hcells]]. apply returns_ret.
  split; [done|]. split; [done|]. split; [done|]. split; [done|]. exact Hcells.
Qed.

(* ===================================================================== *)
(** ** Broadcast product, column sums and row assignment *)
(* ===================================================================== *)

Section broadcast_ops.
Implicit Types (h : heap) (a b r : np.ndarray) (v w : np.ndarray1).

Lemma peek_broadcast_to h a sh i j :
  peek h (np.broadcast_to a sh) i j
  = peek h a (if decide (fst (np.shape a) = fst sh) then i else 0)
             (if decide (snd (np.shape a) = snd sh) then j else 0).
Proof.
  unfold peek, np.addr, np.broadcast_to, np.broadcast_stride. simpl.
  do 3 f_equal; repeat destruct (decide _); lia.
Qed.

Lemma valid_broadcast_to h a sh :
  valid h a →
  (fst (np.shape a) = fst sh ∨ fst (np.shape a) = 1) →
  (snd (np.shape a) = snd sh ∨ snd (np.shape a) = 1) →
  valid h (np.broadcast_to a sh).
Proof.
  intros (buf & Hb & Hin) H0 H1. exists buf. split; [done|].
  cbn [np.broadcast_to np.shape]. intros i j Hi Hj.
  unfold np.addr in *. simpl. unfold np.broadcast_stride.
  destruct (decide (fst (np.shape a) = fst sh)) as [E0|N0],
           (decide (snd (np.shape a) = snd sh)) as [E1|N1].
  - apply Hin; lia.
  - specialize (Hin i 0). lia.
  - specialize (Hin 0 j). lia.
  - specialize (Hin 0 0). lia.
Qed.

Lemma peek_newaxis h v k j : peek h (np.newaxis v) k j = peek1 h v k.
Proof. unfold peek, peek1, np.addr, np.addr1, np.newaxis. simpl. do 3 f_equal. lia. Qed.

Lemma valid_newaxis h v : valid1 h v → valid h (np.newaxis v).
Proof.
  intros (buf & Hb & Hin). exists buf. split; [done|].
  intros i j Hi Hj. specialize (Hin i Hi).
  unfold np.addr, np.addr1, np.newaxis in *. simpl in *. lia.
Qed.

(** [a * b] with broadcasting *)
Lemma returns_multiply h a b n0 n1 (Q : np.ndarray → heap → Prop) :
  valid h a → valid h b →
  np.broadcast_dim (fst (np.shape a)) (fst (np.shape b)) = Ok n0 →
  np.broadcast_dim (snd (np.shape a)) (snd (np.shape b)) = Ok n1 →
  (let data :=
     map (λ k, Int64.mul
                 (peek h (np.broadcast_to a (n0, n1)) (k / n1) (k mod n1))
                 (peek h (np.broadcast_to b (n0, n1)) (k / n1) (k mod n1)))
         (seq 0 (n0 * n1)) in
   Q (fresh_at h (n0, n1)) (h ++ [data])) →
  returns (np.multiply a b) h Q.
Proof.
  intros Ha Hb H0 H1 HQ. unfold np.multiply.
  apply returns_bind. eapply returns_lift; [exact H0|].
  apply returns_bind. eapply returns_lift; [exact H1|].
  apply broadcast_dim_ok in H0 as [H0a H0b], H1 as [H1a H1b].
  apply returns_bind. eapply reads_returns.
  { apply reads_tabulate with
      (g := λ k, Int64.mul
                   (peek h (np.broadcast_to a (n0, n1)) (k / n1) (k mod n1))
                   (peek h (np.broadcast_to b (n0, n1)) (k / n1) (k mod n1))).
    intros k Hk.
    assert (Hn : n1 ≠ 0) by (intros ->; lia).
    assert (k / n1 < n0) by (apply Nat.Div0.div_lt_upper_bound; lia).
    assert (k mod n1 < n1) by (by apply Nat.mod_upper_bound).
    eapply reads_bind.
    { by apply (reads_load_valid h (np.broadcast_to a (n0, n1)));
        [apply valid_broadcast_to | |]. }
    eapply reads_bind.
    { by apply (reads_load_valid h (np.broadcast_to b (n0, n1)));
        [apply valid_broadcast_to | |]. }
    apply reads_ret. }
  apply returns_fresh. exact HQ.
Qed.

(** [np.sum(a, axis=0)] *)
Lemma returns_sum_axis0 h a (Q : np.ndarray1 → heap → Prop) :
  valid h a →
  (let data :=
     map (λ j, Int64.sum (map (λ i, peek h a i j) (seq 0 (fst (np.shape a)))))
         (seq 0 (snd (np.shape a))) in
   Q (fresh1_at h (snd (np.shape a))) (h ++ [data])) →
  returns (np.sum_axis0 a) h Q.
Proof.
  intros Ha HQ. unfold np.sum_axis0.
  apply returns_bind. eapply reads_returns.
  { apply reads_tabulate with
      (g := λ j, Int64.sum (map (λ i, peek h a i j) (seq 0 (fst (np.shape a))))).
    intros j Hj. eapply reads_bind; [|apply reads_ret].
    apply reads_tabulate. intros i Hi. by apply reads_load_valid. }
  apply returns_fresh1. rewrite length_map, length_seq. exact HQ.
Qed.

Lemma returns_store_cell (h0 h : heap) r i j (z : Z) F :
  h0 `prefix_of` h → length h0 ≤ np.base r → cells h r F →
  i < fst (np.shape r) → j < snd (np.shape r) →
  returns (store (np.base r) (np.addr r i j) z) h (λ _ h2,
    h0 `prefix_of` h2 ∧
    cells h2 r (λ i' j', if decide (i' = i ∧ j' = j) then z else F i' j')).
Proof.
  intros Hp Hb Hc Hi Hj.
  pose proof (returns_setitem h0 h r i j z F Hp Hb Hc Hi Hj) as Hs.
  unfold np.setitem in Hs. cbn [fst snd] in Hs.
  destruct (decide _) as [_|Hn] in Hs; [exact Hs | by destruct Hn].
Qed.

(** [r[i] = v] for [v] as long as a row of [r] *)
Lemma returns_setrow (h0 h : heap) r i v F :
  h0 `prefix_of` h → length h0 ≤ np.base r → cells h r F →
  i < fst (np.shape r) → valid1 h v → np.shape1 v = snd (np.shape r) →
  returns (np.setrow r i v) h (λ _ h2,
    h0 `prefix_of` h2 ∧
    cells h2 r (λ i' j', if decide (i' = i) then peek1 h v j' else F i' j')).
Proof.
  intros Hp Hb Hc Hi Hv Hlen. unfold np.setrow.
  apply returns_bind. eapply reads_returns; [by apply reads_row|].
  cbn [row_view np.shape1].
  apply returns_bind.
  destruct (decide _) as [_|Hn]; [|destruct Hn; by left].
  apply returns_ret. rewrite broadcast_to1_same by done.
  apply returns_bind. eapply reads_returns.
  { apply reads_tabulate with (g := peek1 h v).
    intros k Hk. apply reads_load_valid1; [done | by rewrite Hlen]. }
  pose (I := λ k hx, h0 `prefix_of` hx ∧
    cells hx r (λ i' j', if decide (i' = i ∧ j' < k) then peek1 h v j'
                         else F i' j')).
  eapply returns_weaken; [apply (for_range_rule I)|].
  - intros k hx Hk [Hpx Hcx].
    change (np.base1 (row_view r i)) with (np.base r).
    rewrite addr1_row.
    rewrite (list_lookup_total_correct _ _ _ (lookup_map_seq (peek1 h v) _ k Hk)).
    eapply returns_weaken; [by apply (returns_store_cell h0)|].
    intros [] h2 [Hp2 Hc2]. split; [done|].
    eapply cells_ext; [exact Hc2|]. intros i' j' Hi' Hj'. cbn beta.
    destruct (decide (i' = i ∧ j' = k)) as [[-> ->]|Hne].
    + destruct (decide _) as [_|N]; [done | destruct N; lia].
    + destruct (decide (i' = i ∧ j' < k)) as [[? ?]|?],
               (decide (i' = i ∧ j' < S k)) as [[? ?]|?];
        try done; exfalso; naive_solver lia.
  - split; [done|]. eapply cells_ext; [exact Hc|]. intros i' j' _ _.
    destruct (decide _); [lia | done].
  - intros [] hx [Hpx Hcx]. split; [done|].
    eapply cells_ext; [exact Hcx|]. intros i' j' Hi' Hj'. cbn beta.
    destruct (decide (i' = i ∧ j' < snd (np.shape r))) as [[? ?]|?],
             (decide (i' = i)) as [?|?];
      try done; exfalso; naive_solver lia.
Qed.

End broadcast_ops.

(* ===================================================================== *)
(** ** [script_bcast_mprof.my_func]: one output row per iteration *)
(* ===================================================================== *)

Section script_bcast_correct.
Variables (h : heap) (a : np.ndarray) (r : np.ndarray).
Hypothesis Hv : valid h a.
Hypothesis Hbase : np.base r = length h.
Hypothesis Hshape : np.shape r = (fst (np.shape a), fst (np.shape a)).

Let nrow := fst (np.shape a).
Let ncol := snd (np.shape a).
Let W i j := Int64.wrap (gram h a i j).

Lemma bcast_row rix hc F :
  rix < nrow → h `prefix_of` hc → cells hc r F →
  returns
    (r1 ← np.row a rix;
     p ← np.multiply (np.newaxis r1) (np.T a);
     s ← np.sum_axis0 p;
     np.setrow r rix s) hc
    (λ _ hc', h `prefix_of` hc' ∧
       cells hc' r (λ i j, if decide (i = rix) then W rix j else F i j)).
Proof.
  intros Hr Hp Hcells.
  assert (Hvc : valid hc a) by (by eapply valid_prefix).
  apply returns_bind. eapply reads_returns; [by apply reads_row|].
  apply returns_bind.
  apply (returns_multiply hc _ _ ncol nrow).
  { by apply valid_newaxis, valid1_row. }
  { by apply valid_T. }
  { apply broadcast_dim_same. }
  { apply broadcast_dim_one. }
  cbn zeta. set (data := map _ _).
  assert (Hdata : ∀ k j, k < ncol → j < nrow →
            data !! (k * nrow + j)
            = Some (Int64.mul (peek h a rix k) (peek h a j k))).
  { intros k j Hk Hj. unfold data.
    rewrite lookup_map_seq by (by apply index_bound).
    rewrite index_div, index_mod by done.
    rewrite !peek_broadcast_to. cbn [np.newaxis np.T np.shape fst snd row_view
                                     np.shape1].
    rewrite peek_T, peek_newaxis, peek1_row.
    rewrite !decide_True by done.
    by rewrite !(peek_prefix h hc). }
  set (hc1 := hc ++ [data]).
  apply returns_bind. apply returns_sum_axis0.
  { apply contig_valid, (contig_fresh hc data (ncol, nrow)).
    unfold data. by rewrite length_map, length_seq. }
  cbn zeta. cbn [fresh_at np.shape fst snd]. set (sums := map _ _).
  assert (Hsums : ∀ j, j < nrow → sums !! j = Some (W rix j)).
  { intros j Hj. unfold sums. rewrite lookup_map_seq by done. f_equal.
    transitivity (Int64.sum (map (λ k, Int64.mul (peek h a rix k) (peek h a j k))
                                (seq 0 ncol))); [|apply sum_products].
    f_equal.
    apply map_ext_in. intros k Hk%in_seq.
    unfold hc1. rewrite (peek_fresh hc data (ncol, nrow)). cbn [snd].
    rewrite Hdata by (done || lia). done. }
  assert (Hlen : length sums = nrow)
    by (unfold sums; by rewrite length_map, length_seq).
  eapply returns_weaken.
  { apply (returns_setrow h _ r rix (fresh1_at hc1 nrow) F).
    - unfold hc1. by apply prefix_snoc, prefix_snoc.
    - lia.
    - eapply cells_prefix; [|exact Hcells].
      unfold hc1. by apply prefix_app_r, prefix_app_r.
    - by rewrite Hshape.
    - rewrite <- Hlen. apply valid1_fresh.
    - by rewrite Hshape. }
  intros [] h2 [Hp2 Hc2]. split; [done|].
  eapply cells_ext; [exact Hc2|]. rewrite Hshape. cbn [fst snd].
  intros i j Hi Hj. cbn beta.
  destruct (decide (i = rix)) as [->|]; [|done].
  rewrite <- Hlen, peek1_fresh, Hsums by done. done.
Qed.

Lemma bcast_loop hc :
  h `prefix_of` hc → cells hc r (λ _ _, 0%Z) →
  returns
    (for_range nrow (λ rix,
       r1 ← np.row a rix;
       p ← np.multiply (np.newaxis r1) (np.T a);
       s ← np.sum_axis0 p;
       np.setrow r rix s)) hc
    (λ _ hc', h `prefix_of` hc' ∧ cells hc' r W).
Proof.
  intros Hp Hcells.
  pose (I := λ rix hx, h `prefix_of` hx ∧
              cells hx r (λ i j, if decide (i < rix) then W i j else 0%Z)).
  eapply returns_weaken; [apply (for_range_rule I)|].
  - intros rix hx Hr [Hpx Hcx].
    eapply returns_weaken; [by apply bcast_row|].
    intros [] h2 [Hp2 Hc2]. split; [done|].
    eapply cells_ext; [exact Hc2|]. intros i j Hi Hj. cbn beta.
    destruct (decide (i = rix)) as [->|].
    + destruct (decide _); [done | lia].
    + repeat destruct (decide _); try done; lia.
  - split; [done|]. eapply cells_ext; [exact Hcells|].
    intros i j _ _. destruct (decide _); [lia | done].
  - intros [] hx [Hpx Hcx]. split; [done|].
    eapply cells_ext; [exact Hcx|]. rewrite Hshape. cbn [fst snd].
    intros i j Hi Hj. cbn beta. destruct (decide _); [done | lia].
Qed.

End script_bcast_correct.

Lemma script_bcast_mprof_spec h a :
  valid h a → returns (script_bcast_mprof.my_func a) h (my_func_post h a).
Proof.
  intros Hv. unfold script_bcast_mprof.my_func.
  destruct (np.shape a) as [nrow ncol] eqn:Hsh.
  unfold np.zeros. apply returns_bind, returns_fresh. cbn [fst snd].
  apply returns_bind.
  pose (r := {| np.base := length h; np.offset := 0; np.shape := (nrow, nrow);
                np.strides := (nrow, 1) |}).
  eapply returns_weaken.
  { pose proof (bcast_loop h a r Hv eq_refl) as Hloop.
    rewrite Hsh in Hloop. cbn [fst snd] in Hloop.
    apply (Hloop eq_refl); [by eexists | apply cells_zeros]. }
  intros [] h' [Hp [Hc Hcells]]. apply returns_ret.
  split; [done|]. split; [done|]. rewrite Hsh. cbn [fst].
  split; [done|]. split; [done|]. exact Hcells.
Qed.

(* ===================================================================== *)
(** ** All four variants meet one specification *)
(* ===================================================================== *)

Section all_variants.
Implicit Types (h : heap) (a r : np.ndarray) (s : strategy).

Lemma my_func_of_spec s h a :
  valid h a → returns (my_func_of s a) h (my_func_post h a).
Proof.
  destruct s; cbn [my_func_of].
  - apply my_script_spec.
  - apply script_mprof_spec.
  - apply script_bcast_mprof_spec.
  - apply script_dot_spec.
Qed.

Lemma matrix_of_ext h h' a b :
  np.shape a = np.shape b →
  (∀ i j, i < fst (np.shape a) → j < snd (np.shape a) →
          peek h a i j = peek h' b i j) →
  matrix_of h a = matrix_of h' b.
Proof.
  intros Hsh Hpeek. unfold matrix_of. rewrite <- Hsh.
  apply map_ext_in. intros i Hi%in_seq.
  apply map_ext_in. intros j Hj%in_seq.
  apply Hpeek; lia.
Qed.

Lemma post_matrix h a r h' :
  my_func_post h a r h' → matrix_of h' r = gram_matrix h a.
Proof.
  intros (_ & _ & Hsh & _ & Hcells). unfold matrix_of, gram_matrix.
  rewrite Hsh. cbn [fst snd].
  apply map_ext_in. intros i Hi%in_seq.
  apply map_ext_in. intros j Hj%in_seq.
  apply Hcells; lia.
Qed.

Lemma gram_sym h a i j : gram h a i j = gram h a j i.
Proof. apply dotprod_comm. Qed.


Lemma gram_nonneg h a i j :
  nonneg_entries h a → i < fst (np.shape a) → j < fst (np.shape a) →
  (0 ≤ gram h a i j)%Z.
Proof. intros Hnn Hi Hj. apply dotprod_nonneg; intros k Hk; by apply Hnn. Qed.

Lemma gram_bound (c : Z) h a i j :
  entries_below c h a → i < fst (np.shape a) → j < fst (np.shape a) →
  (0 ≤ gram h a i j ≤ Z.of_nat (snd (np.shape a)) * ((c - 1) * (c - 1)))%Z.
Proof. intros Hb Hi Hj. apply dotprod_bound; intros k Hk; by apply Hb. Qed.

Lemma valid_c_array (h : heap) b sh buf :
  h !! b = Some buf → length buf = fst sh * snd sh → valid h (c_array b sh).
Proof.
  intros Hb Hlen. apply contig_valid. split; [done|]. split; [done|].
  by exists buf.
Qed.

(** [a.tolist()] reads back [matrix_of]. *)
Lemma reads_tolist h a : valid h a → reads (np.tolist a) h (matrix_of h a).
Proof.
  intros Hv. unfold np.tolist, matrix_of.
  apply reads_tabulate. intros i Hi.
  apply reads_tabulate. intros j Hj.
  by apply reads_load_valid.
Qed.

End all_variants.

(* ===================================================================== *)
(** ** The bit generator visits every state *)
(* ===================================================================== *)

Section lcg_period.
Local Open Scope Z_scope.

Lemma uint128_mod z : uint128 z = z mod 2 ^ 128.
Proof. unfold uint128. rewrite <- Z.land_ones by lia. reflexivity. Qed.

Lemma uint64_mod z : uint64 z = z mod 2 ^ 64.
Proof. unfold uint64. rewrite <- Z.land_ones by lia. reflexivity. Qed.

Lemma uint32_mod z : uint32 z = z mod 2 ^ 32.
Proof. unfold uint32. rewrite <- Z.land_ones by lia. reflexivity. Qed.

Lemma uint32_range z : 0 ≤ uint32 z < 2 ^ 32.
Proof. rewrite uint32_mod. apply Z.mod_pos_bound. lia. Qed.

Lemma step_mod s i :
  PCG64.step s i = (PCG64.PCG_DEFAULT_MULTIPLIER_128 * s + i) mod 2 ^ 128.
Proof. unfold PCG64.step. rewrite uint128_mod. f_equal. lia. Qed.

Lemma step_range s i : 0 ≤ PCG64.step s i < 2 ^ 128.
Proof. rewrite step_mod. apply Z.mod_pos_bound. lia. Qed.

Lemma lcg_iter_add n m i s :
  lcg_iter (n + m) i s = lcg_iter n i (lcg_iter m i s).
Proof. induction n as [|n IH]; simpl; [done | by rewrite IH]. Qed.

Lemma lcg_iter_shift n i s : lcg_iter (S n) i s = lcg_iter n i (PCG64.step s i).
Proof. by rewrite <- Nat.add_1_r, lcg_iter_add. Qed.

Lemma lcg_iter_range n i s : (0 < n)%nat → 0 ≤ lcg_iter n i s < 2 ^ 128.
Proof. destruct n; [lia|]. intros _. apply step_range. Qed.

(** [2 ^ j] steps are the affine map [lcg_pow2 j]. *)
Lemma lcg_pow2_iter j i s :
  lcg_iter (2 ^ j) i s
  = (fst (lcg_pow2 j i) * s + snd (lcg_pow2 j i)) mod 2 ^ 128.
Proof.
  revert s. induction j as [|j IH]; intros s.
  - simpl. apply step_mod.
  - replace (2 ^ S j)%nat with (2 ^ j + 2 ^ j)%nat by (simpl; lia).
    rewrite lcg_iter_add, !IH. simpl.
    destruct (lcg_pow2 j i) as [P Q]. cbn [fst snd].
    rewrite Zplus_mod, Zmult_mod_idemp_r, <- Zplus_mod.
    f_equal. ring.
Qed.

(** The multiplier is 1 modulo 4 and the increment is odd, so after
    [2 ^ j] steps the factor is 1 modulo [2 ^ (j + 2)] and the offset is
    [2 ^ j] modulo [2 ^ (j + 1)]. *)
Lemma lcg_pow2_shape j i :
  i mod 2 = 1 →
  ∃ u w, fst (lcg_pow2 j i) = 1 + 2 ^ (Z.of_nat j + 2) * u ∧
         snd (lcg_pow2 j i) = 2 ^ Z.of_nat j + 2 ^ (Z.of_nat j + 1) * w.
Proof.
  intros Hodd. induction j as [|j (u & w & HP & HQ)].
  - exists (PCG64.PCG_DEFAULT_MULTIPLIER_128 / 4), (i / 2). split.
    + reflexivity.
    + cbn [lcg_pow2 snd]. change (2 ^ (Z.of_nat 0 + 1)) with 2.
      change (2 ^ Z.of_nat 0) with 1.
      pose proof (Z.div_mod i 2 ltac:(lia)). lia.
  - cbn [lcg_pow2]. destruct (lcg_pow2 j i) as [P Q]. cbn [fst snd] in *.
    rewrite Nat2Z.inj_succ.
    replace (Z.succ (Z.of_nat j) + 2) with (Z.of_nat j + 3) by lia.
    replace (Z.succ (Z.of_nat j) + 1) with (Z.of_nat j + 2) by lia.
    replace (Z.succ (Z.of_nat j)) with (Z.of_nat j + 1) by lia.
    rewrite !Z.pow_add_r in * by lia.
    set (p := 2 ^ Z.of_nat j) in *.
    change (2 ^ 1) with 2 in *. change (2 ^ 2) with 4 in *.
    change (2 ^ 3) with 8.
    exists (u + 2 * p * u * u), (w + u * Q). subst P. split; [ring|].
    rewrite HQ at 1. ring_simplify. rewrite HQ. ring.
Qed.

(** [2 ^ j] steps flip bit [j] of the state and keep the bits below. *)
Lemma lcg_flip_bit (j : nat) i s :
  i mod 2 = 1 → (j < 128)%nat →
  lcg_iter (2 ^ j) i s mod 2 ^ (Z.of_nat j + 1)
  = (s + 2 ^ Z.of_nat j) mod 2 ^ (Z.of_nat j + 1).
Proof.
  intros Hodd Hj. rewrite lcg_pow2_iter.
  destruct (lcg_pow2_shape j i Hodd) as (u & w & -> & ->).
  rewrite Z.mod_mod_divide.
  2: { exists (2 ^ (127 - Z.of_nat j)).
       rewrite <- Z.pow_add_r by lia. f_equal. lia. }
  rewrite !Z.pow_add_r by lia. change (2 ^ 1) with 2. change (2 ^ 2) with 4.
  set (p := 2 ^ Z.of_nat j).
  replace ((1 + p * 4 * u) * s + (p + p * 2 * w))
    with (s + p + (2 * u * s + w) * (p * 2)) by ring.
  by rewrite Z_mod_plus_full.
Qed.

Lemma mod_double_cases x t m :
  0 < m → x mod m = t mod m →
  x mod (2 * m) = t mod (2 * m) ∨ (x + m) mod (2 * m) = t mod (2 * m).
Proof.
  intros Hm Hxt.
  assert (Hd : ∃ q, t - x = m * q).
  { exists (t / m - x / m).
    pose proof (Z.div_mod x m ltac:(lia)). pose proof (Z.div_mod t m ltac:(lia)).
    nia. }
  destruct Hd as [q Hq].
  destruct (Z.Even_or_Odd q) as [[c ->]|[c ->]].
  - left. replace t with (x + c * (2 * m)) by lia.
    by rewrite Z_mod_plus_full.
  - right. replace t with (x + m + c * (2 * m)) by lia.
    by rewrite Z_mod_plus_full.
Qed.

(** Any residue modulo [2 ^ j] is reached within [2 ^ j] steps. *)
Lemma lcg_reach_mod (j : nat) i :
  i mod 2 = 1 → (j ≤ 128)%nat →
  ∀ s t, ∃ n : nat, Z.of_nat n < 2 ^ Z.of_nat j ∧
                    lcg_iter n i s mod 2 ^ Z.of_nat j = t mod 2 ^ Z.of_nat j.
Proof.
  intros Hodd. induction j as [|j IH]; intros Hj s t.
  - exists 0%nat. split; [done|]. by rewrite !Z.mod_1_r.
  - destruct (IH ltac:(lia) s t) as (n & Hn & Hreach).
    rewrite Nat2Z.inj_succ, Z.pow_succ_r by lia.
    assert (Hp : 0 < 2 ^ Z.of_nat j) by (apply Z.pow_pos_nonneg; lia).
    destruct (mod_double_cases _ _ _ Hp Hreach) as [Hsame|Hflip].
    + exists n. split; [lia | done].
    + exists (2 ^ j + n)%nat. split.
      * rewrite Nat2Z.inj_add, Nat2Z.inj_pow. simpl Z.of_nat at 1. lia.
      * rewrite lcg_iter_add.
        pose proof (lcg_flip_bit j i (lcg_iter n i s) Hodd ltac:(lia)) as Hf.
        rewrite Z.pow_add_r in Hf by lia. change (2 ^ 1) with 2 in Hf.
        rewrite (Z.mul_comm _ 2) in Hf. by rewrite Hf.
Qed.

(** Every state is reached from every state in at least one and at most
    [2 ^ 128] steps. *)
Lemma lcg_reach i s t :
  i mod 2 = 1 → 0 ≤ t < 2 ^ 128 →
  ∃ n : nat, Z.of_nat n < 2 ^ 128 ∧ lcg_iter (S n) i s = t.
Proof.
  intros Hodd Ht.
  destruct (lcg_reach_mod 128 i Hodd ltac:(lia) (PCG64.step s i) t)
    as (n & Hn & Hreach).
  exists n. split; [exact Hn|].
  rewrite lcg_iter_shift.
  change (2 ^ Z.of_nat 128) with (2 ^ 128) in Hreach.
  rewrite (Z.mod_small t) in Hreach by done.
  rewrite <- Hreach. symmetry. apply Z.mod_small.
  destruct n; [apply step_range | apply step_range].
Qed.

End lcg_period.

(* ===================================================================== *)
(** ** Draws of the bit generator *)
(* ===================================================================== *)

Section bit_generator.
Local Open Scope Z_scope.
Import PCG64.

Lemma below_pow2_log2 a n : 0 ≤ n → 0 ≤ a → (a < 2 ^ n ↔ a = 0 ∨ Z.log2 a < n).
Proof.
  intros Hn Ha. destruct (decide (a = 0)) as [->|Hne].
  - split; [auto|]. intros _. apply Z.pow_pos_nonneg; lia.
  - rewrite Z.log2_lt_pow2 by lia. intuition.
Qed.

Lemma lor_range a b n :
  0 ≤ n → 0 ≤ a < 2 ^ n → 0 ≤ b < 2 ^ n → 0 ≤ Z.lor a b < 2 ^ n.
Proof.
  intros Hn [Ha Ha'] [Hb Hb']. split; [by apply Z.lor_nonneg|].
  apply below_pow2_log2; [done | by apply Z.lor_nonneg |].
  apply below_pow2_log2 in Ha', Hb'; try done.
  destruct Ha' as [->|Ha']; [rewrite Z.lor_0_l; tauto|].
  destruct Hb' as [->|Hb']; [rewrite Z.lor_0_r; tauto|].
  right. rewrite Z.log2_lor by done. lia.
Qed.

Lemma lxor_range a b n :
  0 ≤ n → 0 ≤ a < 2 ^ n → 0 ≤ b < 2 ^ n → 0 ≤ Z.lxor a b < 2 ^ n.
Proof.
  intros Hn [Ha Ha'] [Hb Hb']. split; [by apply Z.lxor_nonneg|].
  apply below_pow2_log2; [done | by apply Z.lxor_nonneg |].
  apply below_pow2_log2 in Ha', Hb'; try done.
  destruct Ha' as [->|Ha']; [rewrite Z.lxor_0_l; tauto|].
  destruct Hb' as [->|Hb']; [rewrite Z.lxor_0_r; tauto|].
  right. pose proof (Z.log2_lxor a b Ha Hb). lia.
Qed.

Lemma shiftr_range a k n : 0 ≤ k → 0 ≤ a < 2 ^ n → 0 ≤ Z.shiftr a k < 2 ^ n.
Proof.
  intros Hk [Ha Ha']. rewrite Z.shiftr_div_pow2 by done.
  assert (0 < 2 ^ k) by (apply Z.pow_pos_nonneg; lia).
  split; [apply Z.div_pos; lia|].
  eapply Z.le_lt_trans; [|exact Ha'].
  apply Z.div_le_upper_bound; [lia | nia].
Qed.

Lemma uint64_range z : 0 ≤ uint64 z < 2 ^ 64.
Proof. rewrite uint64_mod. apply Z.mod_pos_bound. lia. Qed.

Lemma output_range s : 0 ≤ s < 2 ^ 128 → 0 ≤ output_xsl_rr_128_64 s < 2 ^ 64.
Proof.
  intros Hs. unfold output_xsl_rr_128_64, rotr_64.
  apply lor_range; [lia | | apply uint64_range].
  apply shiftr_range.
  - rewrite Z.shiftr_div_pow2 by lia. apply Z.div_pos; lia.
  - apply lxor_range; [lia | | apply uint64_range].
    rewrite Z.shiftr_div_pow2 by lia. split; [apply Z.div_pos; lia|].
    apply Z.div_lt_upper_bound; lia.
Qed.

Lemma next_uint32_ok g :
  gen_ok g →
  0 ≤ fst (next_uint32 g) < 2 ^ 32 ∧ gen_ok (snd (next_uint32 g)).
Proof.
  intros (Hs & Hi & Hu). unfold next_uint32.
  destruct (has_uint32 g); cbn [fst snd next_uint64].
  - split; [done|]. by split.
  - split; [apply uint32_range|].
    split; [apply step_range|]. split; [done|]. cbn [uinteger].
    pose proof (output_range (step (state g) (inc g)) (step_range _ _)).
    rewrite Z.shiftr_div_pow2 by lia. split; [apply Z.div_pos; lia|].
    apply Z.div_lt_upper_bound; lia.
Qed.

Lemma lemire_while_eq fuel thr rex m g :
  Generator.lemire_while fuel thr rex m g
  = if uint32 m <? thr then
      match fuel with
      | O => OutOfFuel
      | S fuel' =>
          Generator.lemire_while fuel' thr rex
            (fst (next_uint32 g) * rex) (snd (next_uint32 g))
      end
    else Ok (m, g).
Proof. destruct fuel; simpl; destruct (next_uint32 g); reflexivity. Qed.

Lemma lemire_while_mono fuel : ∀ fuel' thr rex m g x,
  Generator.lemire_while fuel thr rex m g = Ok x → (fuel ≤ fuel')%nat →
  Generator.lemire_while fuel' thr rex m g = Ok x.
Proof.
  induction fuel as [|fuel IH]; intros fuel' thr rex m g x;
    rewrite (lemire_while_eq _ thr), (lemire_while_eq fuel' thr);
    destruct (uint32 m <? thr); try done.
  intros E Hle. destruct fuel' as [|fuel']; [lia|].
  apply IH; [done | lia].
Qed.

Section rejection.
Variables (thr rex : Z).
Hypothesis Hthr : 0 ≤ thr ≤ rex.
Hypothesis Hrex : 0 ≤ rex < 2 ^ 32.

Lemma accepted_ok m g : gen_ok g → scaled rex m → accepted rex (Ok (m, g)).
Proof. intros Hg Hm. by exists m, g. Qed.

Lemma scaled_draw g : gen_ok g → scaled rex (fst (next_uint32 g) * rex).
Proof.
  intros Hg. exists (fst (next_uint32 g)).
  split; [by apply next_uint32_ok | done].
Qed.

(** With no buffered half pending and the state [n + 1] steps away from
    1, at most [2 n + 2] further draws are rejected. *)
Lemma lemire_while_fresh n : ∀ g m fuel,
  gen_ok g → has_uint32 g = false →
  lcg_iter (S n) (inc g) (state g) = 1 →
  (2 * n + 2 ≤ fuel)%nat → scaled rex m →
  accepted rex (Generator.lemire_while fuel thr rex m g).
Proof.
  induction n as [|n IH]; intros g m fuel Hg Hno Hreach Hfuel Hm;
    rewrite lemire_while_eq; (destruct (uint32 m <? thr); [|by apply accepted_ok]);
    (destruct fuel as [|fuel]; [lia|]);
    pose proof (next_uint32_ok g Hg) as [Hu Hg1];
    pose proof (scaled_draw g Hg) as Hm1;
    rewrite lemire_while_eq.
  - (* the next state is 1: its low half is accepted *)
    assert (E : fst (next_uint32 g) = 1).
    { unfold next_uint32. rewrite Hno. cbn [next_uint64 fst].
      simpl in Hreach. by rewrite Hreach. }
    rewrite E, Z.mul_1_l, uint32_mod, Z.mod_small by lia.
    destruct (rex <? thr) eqn:Hlt; [lia|].
    apply accepted_ok; [done|]. exists 1. lia.
  - destruct (uint32 _ <? thr); [|by apply accepted_ok].
    destruct fuel as [|fuel]; [lia|].
    set (g1 := snd (next_uint32 g)) in *.
    assert (Hg1s : state g1 = step (state g) (inc g) ∧ inc g1 = inc g
                   ∧ has_uint32 g1 = true).
    { unfold g1, next_uint32. by rewrite Hno. }
    destruct Hg1s as (Hs1 & Hi1 & Hh1).
    pose proof (next_uint32_ok g1 Hg1) as [Hu2 Hg2].
    apply IH.
    + done.
    + unfold next_uint32. by rewrite Hh1.
    + unfold next_uint32. rewrite Hh1. cbn [snd state inc].
      rewrite Hs1, Hi1, <- lcg_iter_shift. done.
    + lia.
    + by apply scaled_draw.
Qed.

(** Enough fuel always ends the loop. *)
Lemma lemire_while_total g m fuel :
  gen_ok g → (enough_fuel ≤ fuel)%nat → scaled rex m →
  accepted rex (Generator.lemire_while fuel thr rex m g).
Proof.
  intros Hg Hfuel Hm.
  destruct (lcg_reach (inc g) (state g) 1) as (n & Hn & Hreach);
    [apply Hg | lia |].
  assert (Hfuel' : (2 * n + 3 ≤ fuel)%nat) by (unfold enough_fuel in Hfuel; lia).
  destruct (has_uint32 g) eqn:Hh.
  - rewrite lemire_while_eq. destruct (uint32 m <? thr); [|by apply accepted_ok].
    destruct fuel as [|fuel]; [lia|].
    pose proof (next_uint32_ok g Hg) as [Hu Hg1].
    apply lemire_while_fresh with (n := n).
    + done.
    + unfold next_uint32. by rewrite Hh.
    + unfold next_uint32. rewrite Hh. done.
    + lia.
    + by apply scaled_draw.
  - by apply lemire_while_fresh with (n := n); [| | |lia|].
Qed.

End rejection.

End bit_generator.

(* ===================================================================== *)
(** ** Bounded draws and the generated matrix *)
(* ===================================================================== *)

Section bounded_draws.
Local Open Scope Z_scope.
Import PCG64.

Lemma lemire_eq fuel rng g :
  Generator.buffered_bounded_lemire_uint32 fuel rng g
  = let rng_excl := uint32 (rng + 1) in
    let m := fst (next_uint32 g) * rng_excl in
    if uint32 m <? rng_excl then
      match Generator.lemire_while fuel
              ((Generator.UINT32_MAX - rng) mod rng_excl) rng_excl m
              (snd (next_uint32 g)) with
      | Ok (m', g') => Ok (Z.shiftr m' 32, g')
      | Raise e => Raise e
      | OutOfFuel => OutOfFuel
      end
    else Ok (Z.shiftr m 32, snd (next_uint32 g)).
Proof.
  unfold Generator.buffered_bounded_lemire_uint32.
  destruct (next_uint32 g) as [u g1]. cbn [fst snd]. cbn zeta.
  destruct (_ <? _); [|done].
  destruct (Generator.lemire_while _ _ _ _ _) as [[m' g']| |]; done.
Qed.

Lemma lemire_mono fuel fuel' rng g x :
  Generator.buffered_bounded_lemire_uint32 fuel rng g = Ok x →
  (fuel ≤ fuel')%nat →
  Generator.buffered_bounded_lemire_uint32 fuel' rng g = Ok x.
Proof.
  rewrite !lemire_eq. cbn zeta. destruct (_ <? _); [|done].
  destruct (Generator.lemire_while fuel _ _ _ _) as [[m' g']| |] eqn:E; try done.
  intros Hx Hle. by rewrite (lemire_while_mono _ _ _ _ _ _ _ E Hle).
Qed.

Lemma scaled_shiftr rex m :
  0 < rex → scaled rex m → 0 ≤ Z.shiftr m 32 < rex.
Proof.
  intros Hrex (u & Hu & ->). rewrite Z.shiftr_div_pow2 by lia.
  split; [apply Z.div_pos; nia|]. apply Z.div_lt_upper_bound; nia.
Qed.

(** A draw from [0, rng] always comes back, and lies in [0, rng]. *)
Lemma lemire_total fuel rng g :
  gen_ok g → 0 ≤ rng < 2 ^ 32 - 1 → (enough_fuel ≤ fuel)%nat →
  ∃ v g', Generator.buffered_bounded_lemire_uint32 fuel rng g = Ok (v, g')
          ∧ gen_ok g' ∧ 0 ≤ v ≤ rng.
Proof.
  intros Hg Hrng Hfuel. rewrite lemire_eq. cbn zeta.
  rewrite (uint32_mod (rng + 1)), Z.mod_small by lia.
  pose proof (next_uint32_ok g Hg) as [Hu Hg1].
  assert (Hm : scaled (rng + 1) (fst (next_uint32 g) * (rng + 1)))
    by (by eexists).
  destruct (_ <? _).
  - pose proof (Z.mod_pos_bound (Generator.UINT32_MAX - rng) (rng + 1)
                  ltac:(lia)).
    destruct (lemire_while_total ((Generator.UINT32_MAX - rng) mod (rng + 1))
                (rng + 1) ltac:(lia) ltac:(lia) _ _ fuel Hg1 Hfuel Hm)
      as (m' & g' & -> & Hg' & Hm').
    exists (Z.shiftr m' 32), g'. split; [done|]. split; [done|].
    pose proof (scaled_shiftr (rng + 1) m' ltac:(lia) Hm'). lia.
  - eexists _, _. split; [done|]. split; [done|].
    pose proof (scaled_shiftr (rng + 1) _ ltac:(lia) Hm). lia.
Qed.

Lemma fill_loop_mono fuel fuel' off rng cnt : ∀ g out x,
  Generator.fill_loop fuel off rng cnt g out = Ok x → (fuel ≤ fuel')%nat →
  Generator.fill_loop fuel' off rng cnt g out = Ok x.
Proof.
  induction cnt as [|cnt IH]; intros g out x; [done|]. simpl.
  destruct (Generator.buffered_bounded_lemire_uint32 fuel rng g)
    as [[v g']| |] eqn:E; try done.
  intros Hx Hle. rewrite (lemire_mono _ _ _ _ _ E Hle). by apply IH.
Qed.

Lemma fill_loop_length fuel off rng cnt : ∀ g out data g',
  Generator.fill_loop fuel off rng cnt g out = Ok (data, g') →
  length data = (length out + cnt)%nat.
Proof.
  induction cnt as [|cnt IH]; intros g out data g'; simpl.
  - intros [= <- _]. rewrite rev_append_rev, length_app, length_rev. simpl. lia.
  - destruct (Generator.buffered_bounded_lemire_uint32 fuel rng g)
      as [[v g1]| |]; try done.
    intros E. rewrite (IH _ _ _ _ E). simpl. lia.
Qed.

Lemma fill_loop_total fuel off rng cnt : ∀ g out,
  gen_ok g → 0 ≤ rng < 2 ^ 32 - 1 → (enough_fuel ≤ fuel)%nat →
  Forall (λ v, off ≤ v ≤ off + rng) out →
  ∃ data g', Generator.fill_loop fuel off rng cnt g out = Ok (data, g')
             ∧ Forall (λ v, off ≤ v ≤ off + rng) data.
Proof.
  induction cnt as [|cnt IH]; intros g out Hg Hrng Hfuel Hout; simpl.
  - eexists _, _. split; [done|].
    rewrite rev_append_rev, app_nil_r. by apply Forall_rev.
  - destruct (lemire_total fuel rng g Hg Hrng Hfuel) as (v & g1 & -> & Hg1 & Hv).
    apply IH; [done..|]. constructor; [lia | done].
Qed.

Lemma int_to_array_ok seed :
  0 ≤ seed → ∃ words, SeedSequence.int_to_array seed = Ok words.
Proof.
  intros Hs. unfold SeedSequence.int_to_array.
  destruct (seed <? 0) eqn:E; [lia|]. destruct (seed =? 0); by eexists.
Qed.

Lemma set_seed_ok s0 s1 i0 i1 : gen_ok (set_seed s0 s1 i0 i1).
Proof.
  unfold set_seed. split; [apply step_range|]. split; [|done].
  cbn [inc]. rewrite <- Z.bit0_mod. unfold uint128.
  rewrite Z.land_spec, Z.lor_spec, Z.shiftl_spec_low by lia. reflexivity.
Qed.

Lemma default_rng_ok seed :
  0 ≤ seed → ∃ g, Generator.default_rng seed = Ok g ∧ gen_ok g.
Proof.
  intros Hs. unfold Generator.default_rng, PCG64.seed.
  destruct (int_to_array_ok seed Hs) as [words ->].
  eexists. split; [reflexivity | apply set_seed_ok].
Qed.

Lemma default_rng_negative seed :
  seed < 0 → Generator.default_rng seed = Raise ValueError.
Proof.
  intros Hs. unfold Generator.default_rng, PCG64.seed, SeedSequence.int_to_array.
  destruct (seed <? 0) eqn:E; [done | lia].
Qed.

End bounded_draws.

(* ===================================================================== *)
(** ** The matrix generator *)
(* ===================================================================== *)

Section generator.
Local Open Scope Z_scope.

Lemma new_shape_ok R N :
  0 ≤ R → 0 ≤ N → ¬ too_big R N →
  np.new_shape (R, N) = Ok (Z.to_nat R, Z.to_nat N).
Proof.
  unfold too_big, np.new_shape, np.check_dims, np.NPY_MAX_INTP, np.itemsize.
  cbn [fst snd]. intros HR HN Hfit.
  destruct (Z.eqb_spec R 0) as [->|HR0]; destruct (Z.eqb_spec N 0) as [->|HN0].
  - done.
  - destruct (Z.ltb_spec N 0); [lia|].
    rewrite Z.max_l, Z.max_r in Hfit by lia.
    destruct (Z.ltb_spec (2 ^ 63 - 1) (8 * N)); [lia | done].
  - destruct (Z.ltb_spec R 0); [lia|].
    rewrite Z.max_r, Z.max_l in Hfit by lia.
    destruct (Z.ltb_spec (2 ^ 63 - 1) (8 * R)); [lia | done].
  - destruct (Z.ltb_spec R 0); [lia|]. destruct (Z.ltb_spec N 0); [lia|].
    rewrite !Z.max_r in Hfit by lia.
    destruct (Z.ltb_spec (2 ^ 63 - 1) (8 * R)); [nia|].
    destruct (Z.ltb_spec (2 ^ 63 - 1) (8 * R * N)); [lia | done].
Qed.

Lemma new_shape_error R N :
  R < 0 ∨ N < 0 ∨ too_big R N → np.new_shape (R, N) = Raise ValueError.
Proof.
  unfold too_big, np.new_shape, np.check_dims, np.NPY_MAX_INTP, np.itemsize.
  cbn [fst snd]. intros Hbad.
  destruct (Z.eqb_spec R 0) as [->|HR0]; destruct (Z.eqb_spec N 0) as [->|HN0].
  - exfalso. rewrite !Z.max_l in Hbad by lia. lia.
  - destruct (Z.ltb_spec N 0); [done|].
    rewrite Z.max_l, Z.max_r in Hbad by lia.
    destruct (Z.ltb_spec (2 ^ 63 - 1) (8 * N)); [done | lia].
  - destruct (Z.ltb_spec R 0); [done|].
    rewrite Z.max_r, Z.max_l in Hbad by lia.
    destruct (Z.ltb_spec (2 ^ 63 - 1) (8 * R)); [done | lia].
  - destruct (Z.ltb_spec R 0); [done|].
    destruct (Z.ltb_spec (2 ^ 63 - 1) (8 * R)); [done|].
    destruct (Z.ltb_spec N 0); [done|].
    rewrite !Z.max_r in Hbad by lia.
    destruct (Z.ltb_spec (2 ^ 63 - 1) (8 * R * N)); [done | lia].
Qed.

Lemma generate_ok fuel seed R N g data g' (h : heap) :
  Generator.default_rng seed = Ok g → 0 ≤ R → 0 ≤ N → ¬ too_big R N →
  Generator.random_bounded_uint64_fill fuel 0 9 (Z.to_nat R * Z.to_nat N) g
  = Ok (data, g') →
  Generator.generate fuel seed (R, N) h
  = Ok (fresh_at h (Z.to_nat R, Z.to_nat N), h ++ [data]).
Proof.
  intros Hg HR HN Hfit Hfill. unfold Generator.generate.
  rewrite (bind_ok (lift _) _ h g h) by (by rewrite Hg).
  unfold Generator.integers.
  rewrite (bind_ok (lift _) _ h (Z.to_nat R, Z.to_nat N) h)
    by (by rewrite new_shape_ok).
  cbn [fst snd]. change (10 - 1 - 0) with 9.
  erewrite bind_ok; [|unfold lift; by rewrite Hfill]. reflexivity.
Qed.

Lemma generate_rejected fuel seed R N (h : heap) :
  0 ≤ seed → R < 0 ∨ N < 0 ∨ too_big R N →
  Generator.generate fuel seed (R, N) h = Raise ValueError.
Proof.
  intros Hs Hbad. unfold Generator.generate.
  destruct (default_rng_ok seed Hs) as (g & Hg & _).
  rewrite (bind_ok (lift _) _ h g h) by (by rewrite Hg).
  unfold Generator.integers, mbind, M_bind, lift.
  by rewrite new_shape_error.
Qed.

Lemma generate_bad_seed fuel seed size (h : heap) :
  seed < 0 → Generator.generate fuel seed size h = Raise ValueError.
Proof.
  intros Hs. unfold Generator.generate, mbind, M_bind, lift.
  by rewrite default_rng_negative.
Qed.

(** With enough fuel the generator returns an [R × N] array of digits. *)
Lemma generate_total fuel seed R N (h : heap) :
  0 ≤ seed → 0 ≤ R → 0 ≤ N → ¬ too_big R N → (enough_fuel ≤ fuel)%nat →
  ∃ data, Generator.generate fuel seed (R, N) h
          = Ok (fresh_at h (Z.to_nat R, Z.to_nat N), h ++ [data])
          ∧ length data = (Z.to_nat R * Z.to_nat N)%nat
          ∧ Forall (λ v, 0 ≤ v < 10) data.
Proof.
  intros Hs HR HN Hfit Hfuel.
  destruct (default_rng_ok seed Hs) as (g & Hg & Hok).
  destruct (fill_loop_total fuel 0 9 (Z.to_nat R * Z.to_nat N) g []
              Hok ltac:(lia) Hfuel ltac:(constructor))
    as (data & g' & Hfill & Hdata).
  exists data. split; [by eapply generate_ok|]. split.
  - by rewrite (fill_loop_length _ _ _ _ _ _ _ _ Hfill).
  - eapply Forall_impl; [exact Hdata|]. intros v Hv. simpl in Hv. lia.
Qed.

Lemma generate_inv fuel seed R N (h : heap) x :
  Generator.generate fuel seed (R, N) h = Ok x →
  0 ≤ seed ∧ 0 ≤ R ∧ 0 ≤ N ∧ ¬ too_big R N ∧
  ∃ g data g',
    Generator.default_rng seed = Ok g ∧
    Generator.random_bounded_uint64_fill fuel 0 9 (Z.to_nat R * Z.to_nat N) g
    = Ok (data, g') ∧
    x = (fresh_at h (Z.to_nat R, Z.to_nat N), h ++ [data]).
Proof.
  intros E.
  destruct (decide (seed < 0)) as [Hs|Hs];
    [by rewrite generate_bad_seed in E|].
  assert (Hs' : 0 ≤ seed) by lia.
  assert (Hgood : ¬ (R < 0 ∨ N < 0 ∨ too_big R N)).
  { intros Hbad. by rewrite generate_rejected in E. }
  assert (HR : 0 ≤ R) by lia. assert (HN : 0 ≤ N) by lia.
  assert (Hfit : ¬ too_big R N) by tauto.
  split; [lia|]. split; [lia|]. split; [lia|]. split; [done|].
  destruct (default_rng_ok seed Hs') as (g & Hg & _).
  destruct (Generator.random_bounded_uint64_fill fuel 0 9
              (Z.to_nat R * Z.to_nat N) g) as [[data g']| |] eqn:Hfill.
  - exists g, data, g'. split; [done|]. split; [done|].
    rewrite (generate_ok _ _ _ _ _ _ _ _ Hg HR HN Hfit Hfill) in E.
    by injection E.
  - exfalso. revert E. unfold Generator.generate.
    rewrite (bind_ok (lift _) _ h g h) by (by rewrite Hg).
    unfold Generator.integers.
    rewrite (bind_ok (lift _) _ h (Z.to_nat R, Z.to_nat N) h)
      by (by rewrite new_shape_ok).
    cbn [fst snd]. change (10 - 1 - 0) with 9.
    unfold mbind, M_bind, lift. by rewrite Hfill.
  - exfalso. revert E. unfold Generator.generate.
    rewrite (bind_ok (lift _) _ h g h) by (by rewrite Hg).
    unfold Generator.integers.
    rewrite (bind_ok (lift _) _ h (Z.to_nat R, Z.to_nat N) h)
      by (by rewrite new_shape_ok).
    cbn [fst snd]. change (10 - 1 - 0) with 9.
    unfold mbind, M_bind, lift. by rewrite Hfill.
Qed.

(** The digits depend on the seed and the extents only: every invocation
    that returns, in whatever store and with whatever fuel, appends the
    same buffer; with enough fuel every invocation returns. *)
Lemma generate_digits seed R N :
  0 ≤ seed → 0 ≤ R → 0 ≤ N → ¬ too_big R N →
  ∃ data,
    length data = (Z.to_nat R * Z.to_nat N)%nat ∧
    Forall (λ v, 0 ≤ v < 10) data ∧
    (∀ fuel (h : heap), (enough_fuel ≤ fuel)%nat →
       Generator.generate fuel seed (R, N) h
       = Ok (fresh_at h (Z.to_nat R, Z.to_nat N), h ++ [data])) ∧
    (∀ fuel (h : heap) x, Generator.generate fuel seed (R, N) h = Ok x →
       x = (fresh_at h (Z.to_nat R, Z.to_nat N), h ++ [data])).
Proof.
  intros Hs HR HN Hfit.
  destruct (default_rng_ok seed Hs) as (g & Hg & Hok).
  destruct (fill_loop_total enough_fuel 0 9 (Z.to_nat R * Z.to_nat N) g []
              Hok ltac:(lia) ltac:(lia) ltac:(constructor))
    as (data & g' & Hfill & Hdata).
  exists data. split; [by rewrite (fill_loop_length _ _ _ _ _ _ _ _ Hfill)|].
  split; [eapply Forall_impl; [exact Hdata|]; intros v Hv; simpl in Hv; lia|].
  split.
  - intros fuel h Hfuel. eapply generate_ok; [done..|].
    by apply (fill_loop_mono enough_fuel fuel _ _ _ _ _ _ Hfill).
  - intros fuel h x E.
    destruct (generate_inv _ _ _ _ _ _ E)
      as (_ & _ & _ & _ & g1 & data1 & g1' & Hg1 & Hfill1 & ->).
    rewrite Hg in Hg1. injection Hg1 as <-.
    pose proof (fill_loop_mono _ (Nat.max fuel enough_fuel) _ _ _ _ _ _ Hfill1
                  ltac:(lia)) as H1.
    pose proof (fill_loop_mono _ (Nat.max fuel enough_fuel) _ _ _ _ _ _ Hfill
                  ltac:(lia)) as H2.
    unfold Generator.random_bounded_uint64_fill in H1.
    rewrite H1 in H2. by injection H2 as -> _.
Qed.

Lemma peek_generated (h : heap) data R N i j :
  peek (h ++ [data]) (fresh_at h (R, N)) i j
  = default 0 (data !! (i * N + j)%nat).
Proof. apply (peek_fresh h data (R, N)). Qed.

Lemma entries_generated (h : heap) data (R N : nat) :
  length data = (R * N)%nat → Forall (λ v, 0 ≤ v < 10) data →
  entries_below 10 (h ++ [data]) (fresh_at h (R, N)).
Proof.
  intros Hlen Hall i j Hi Hj. cbn [fresh_at np.shape fst snd] in Hi, Hj.
  rewrite peek_generated.
  destruct (lookup_lt_is_Some_2 data (i * N + j)) as [v Hv].
  { rewrite Hlen. by apply index_bound. }
  rewrite Hv. cbn [default].
  by apply (Forall_lookup_1 _ _ _ _ Hall Hv).
Qed.

Lemma dotprod_shift f g n :
  dotprod f g (S n)
  = f 0%nat * g 0%nat + dotprod (λ k, f (S k)) (λ k, g (S k)) n.
Proof.
  induction n as [|n IH]; [simpl; lia|].
  change (dotprod f g (S (S n)))
    with (dotprod f g (S n) + f (S n) * g (S n)).
  rewrite IH. simpl. lia.
Qed.

Lemma dotprod_zero_l f g n : (∀ k, f k = 0) → dotprod f g n = 0.
Proof. intros Hf. induction n as [|n IH]; simpl; [done|]. rewrite IH, Hf. lia. Qed.

Lemma dotprod_zero_r f g n : (∀ k, g k = 0) → dotprod f g n = 0.
Proof. intros Hg. induction n as [|n IH]; simpl; [done|]. rewrite IH, Hg. lia. Qed.

Lemma dot_acc_spec n : ∀ (l1 l2 : list Z) acc,
  dot_acc n l1 l2 acc
  = acc + dotprod (λ k, default 0 (l1 !! k)) (λ k, default 0 (l2 !! k)) n.
Proof.
  induction n as [|n IH]; intros l1 l2 acc; [simpl; lia|].
  destruct l1 as [|x l1].
  { rewrite dotprod_zero_l by done. simpl. lia. }
  destruct l2 as [|y l2].
  { rewrite dotprod_zero_r by done. simpl. lia. }
  rewrite dotprod_shift. cbn [dot_acc]. rewrite IH. simpl. lia.
Qed.

Lemma gram_generated (h : heap) data R N i j :
  gram (h ++ [data]) (fresh_at h (R, N)) i j = rows_dot N data i j.
Proof.
  unfold gram, rows_dot. cbn [fresh_at np.shape snd].
  rewrite dot_acc_spec, Z.add_0_l.
  apply dotprod_ext; intros k _; rewrite peek_generated, lookup_drop; done.
Qed.

End generator.

(* ===================================================================== *)
(** ** The generated matrix of the scripts *)
(* ===================================================================== *)

Section scenario.
Local Open Scope Z_scope.

(** The 200000 draws for seed 8675309 need no fuel at all, and the row
    dot products of the resulting 2 × 100000 matrix are these. *)
Lemma ARR_summary_value :
  ARR_summary 0 script_dot.n = Some (2842216, 2016906, 2840381).
Proof. vm_cast_no_check (eq_refl (Some (2842216, 2016906, 2840381))). Qed.

Lemma fill_length fuel off rng cnt g data g' :
  Generator.random_bounded_uint64_fill fuel off rng cnt g = Ok (data, g') →
  length data = cnt.
Proof. intros E. by rewrite (fill_loop_length _ _ _ _ _ _ _ _ E). Qed.

Lemma ARR_summary_inv fuel n x :
  ARR_summary fuel n = Some x →
  ∃ g data g',
    Generator.default_rng 8675309 = Ok g ∧
    Generator.random_bounded_uint64_fill fuel 0 9 (Z.to_nat 2 * Z.to_nat n) g
    = Ok (data, g') ∧
    x = (rows_dot (Z.to_nat n) data 0 0,
         rows_dot (Z.to_nat n) data 0 1,
         rows_dot (Z.to_nat n) data 1 1).
Proof.
  intros H. unfold ARR_summary in H.
  remember (Generator.default_rng 8675309) as r eqn:Hg in H.
  destruct r as [g| |]; [|discriminate..].
  remember (Generator.random_bounded_uint64_fill fuel 0 9 _ g) as r
    eqn:Hfill in H.
  destruct r as [[data g']| |]; [|discriminate..].
  injection H as <-. exists g, data, g'.
  split; [by symmetry|]. split; [by symmetry|]. reflexivity.
Qed.

Lemma ARR_generated fuel (h : heap) :
  ∃ data,
    Generator.generate fuel 8675309 (2, script_dot.n) h
    = Ok (fresh_at h (Z.to_nat 2, Z.to_nat script_dot.n), h ++ [data])
    ∧ length data = (Z.to_nat 2 * Z.to_nat script_dot.n)%nat
    ∧ rows_dot (Z.to_nat script_dot.n) data 0 0 = 2842216
    ∧ rows_dot (Z.to_nat script_dot.n) data 0 1 = 2016906
    ∧ rows_dot (Z.to_nat script_dot.n) data 1 1 = 2840381.
Proof.
  destruct (ARR_summary_inv _ _ _ ARR_summary_value)
    as (g & data & g' & Hg & Hfill & Hx).
  injection Hx as H00 H01 H11.
  exists data. split; [|split; [|auto]].
  - apply (generate_ok fuel 8675309 2 script_dot.n g data g' h Hg).
    + lia.
    + unfold script_dot.n; lia.
    + unfold too_big, script_dot.n; lia.
    + apply (fill_loop_mono 0 fuel _ _ _ _ _ _ Hfill). lia.
  - exact (fill_length _ _ _ _ _ _ _ Hfill).
Qed.

Lemma expected_gram (h : heap) data (N : nat) :
  rows_dot N data 0 0 = 2842216 →
  rows_dot N data 0 1 = 2016906 →
  rows_dot N data 1 1 = 2840381 →
  gram_matrix (h ++ [data]) (fresh_at h (Z.to_nat 2, N)) = expected.
Proof.
  intros H00 H01 H11. change (Z.to_nat 2) with 2%nat. unfold gram_matrix.
  cbn [fresh_at np.shape fst seq map].
  rewrite (gram_sym _ _ 1 0), !gram_generated, H00, H01, H11.
  reflexivity.
Qed.

Lemma ARR_valid (h : heap) data (R N : nat) :
  length data = (R * N)%nat → valid (h ++ [data]) (fresh_at h (R, N)).
Proof. intros Hlen. by apply contig_valid, contig_fresh. Qed.

(** Each variant, run on the generated matrix, shows the literal. *)
Lemma scenario_tolist s fuel (h : heap) :
  returns (arr ← Generator.generate fuel 8675309 (2, script_dot.n);
           r ← my_func_of s arr; np.tolist r) h
          (λ m _, m = expected).
Proof.
  destruct (ARR_generated fuel h) as (data & Hgen & Hlen & H00 & H01 & H11).
  apply returns_bind. eapply returns_eq; [exact Hgen|].
  pose proof (ARR_valid h data _ _ Hlen) as Hv.
  apply returns_bind.
  eapply returns_weaken; [apply my_func_of_spec, Hv|].
  intros r h' Hpost.
  eapply reads_returns.
  { apply reads_tolist, contig_valid, Hpost. }
  rewrite (post_matrix _ _ _ _ Hpost).
  exact (expected_gram h data _ H00 H01 H11).
Qed.

Lemma scenario_main s fuel (h : heap) :
  returns (arr ← Generator.generate fuel 8675309 (2, script_dot.n);
           r ← my_func_of s arr;
           np.assert_array_equal r expected) h (λ _ _, True).
Proof.
  destruct (ARR_generated fuel h) as (data & Hgen & Hlen & H00 & H01 & H11).
  apply returns_bind. eapply returns_eq; [exact Hgen|].
  pose proof (ARR_valid h data _ _ Hlen) as Hv.
  apply returns_bind.
  eapply returns_weaken; [apply my_func_of_spec, Hv|].
  intros r h' Hpost. unfold np.assert_array_equal.
  apply returns_bind. eapply reads_returns.
  { apply reads_tolist, contig_valid, Hpost. }
  rewrite (post_matrix _ _ _ _ Hpost).
  rewrite (expected_gram h data _ H00 H01 H11).
  rewrite decide_True by done. by apply returns_ret.
Qed.

(** The matrix a generated array shows does not depend on the store it
    was allocated in. *)
Lemma matrix_generated (h : heap) data sh :
  matrix_of (h ++ [data]) (fresh_at h sh) = matrix_of [data] (fresh_at [] sh).
Proof.
  apply matrix_of_ext; [done|]. intros i j _ _. destruct sh as [R N].
  rewrite peek_generated. symmetry. exact (peek_generated [] data R N i j).
Qed.

(** The generator refuses an empty array with a huge extent: nothing has
    to be stored, yet the byte count [8 * 2^62] does not fit. *)
Lemma generate_huge_empty fuel seed (h : heap) :
  0 ≤ seed →
  Generator.generate fuel seed (2 ^ 62, 0) h = Raise ValueError.
Proof.
  intros Hs. apply generate_rejected; [done|]. right. right.
  unfold too_big. lia.
Qed.

End scenario.

(* ===================================================================== *)
(** ** The claims of the specification *)
(* ===================================================================== *)

Section claims.
Local Open Scope Z_scope.

Lemma valid_sample : valid sample_store sample.
Proof. by apply (valid_c_array _ _ _ [1; 2; 3; 4; 5; 6]). Qed.

Lemma valid_big : valid big_store big.
Proof. by apply (valid_c_array _ _ _ [4294967296]). Qed.

Lemma valid_large : valid large_store big.
Proof. by apply (valid_c_array _ _ _ [3037000500]). Qed.



Lemma valid_nines : valid nines_store nines.
Proof. by apply (valid_c_array _ _ _ [9; 9]). Qed.

(** On an [int64] array the dtype-aware functions are the ones of the
    scripts. *)
Lemma my_func_as_int64 s a : my_func_as_of s np.int64 a = my_func_of s a.
Proof. destruct s; reflexivity. Qed.

Lemma single_entry (P : Z → Prop) (h : heap) :
  P (peek h big 0 0) →
  ∀ i j, (i < fst (np.shape big))%nat → (j < snd (np.shape big))%nat →
         P (peek h big i j).
Proof.
  intros HP i j Hi Hj. cbn in Hi, Hj.
  by replace i with 0%nat by lia; replace j with 0%nat by lia.
Qed.

End claims.

(* ===================================================================== *)
(** ** C1: the result is the product with the transpose *)
(* ===================================================================== *)

(** C1, as the specification states it, fails: the entries are computed in
    64-bit arithmetic, so for the 1 × 1 matrix [[2^32]] every variant
    returns [[0]] while the exact product is [[2^64]]. *)
Lemma C1_exact_product_overflows :
  ¬ exact_product_claim (my_script.my_func (λ _, 0%Z)) ∧
  ¬ exact_product_claim script_mprof.my_func ∧
  ¬ exact_product_claim script_bcast_mprof.my_func ∧
  ¬ exact_product_claim script_dot.my_func.
Proof.
  assert (Hin : int64_entries big_store big).
  { exact (single_entry Int64.in_range big_store ltac:(vm_compute; split; discriminate)). }
  repeat split; intros Hclaim;
    destruct (Hclaim big_store big valid_big Hin) as (r & h' & E & _ & Hcell);
    vm_compute in E; injection E as <- <-;
    specialize (Hcell 0 0 ltac:(cbn; lia) ltac:(cbn; lia));
    vm_compute in Hcell; discriminate Hcell.
Qed.

(** C1 (amended): for every well-formed R × N [int64] matrix, each variant
    of [my_func] returns an R × R matrix whose entry (i, j) is the sum over
    k of M[i][k] * M[j][k] reduced to [int64] (modulo 2^64); it is the exact
    sum, the product of M with its transpose, whenever that sum fits. *)
Theorem C1_product_with_transpose (s : strategy) (h : heap) (a : np.ndarray) :
  valid h a →
  returns (my_func_of s a) h (λ r h',
    np.shape r = (fst (np.shape a), fst (np.shape a)) ∧
    ∀ i j, i < fst (np.shape a) → j < fst (np.shape a) →
      peek h' r i j = Int64.wrap (gram h a i j) ∧
      (Int64.in_range (gram h a i j) → peek h' r i j = gram h a i j)).
Proof.
  intros Hv. eapply returns_weaken; [by apply my_func_of_spec|].
  intros r h' (_ & _ & Hsh & _ & Hcells). split; [done|].
  intros i j Hi Hj. rewrite Hcells by done. split; [done|]. apply wrap_id.
Qed.

Lemma C1_product_with_transpose_witness :
  valid sample_store sample ∧
  returns (my_func_of Naive sample) sample_store (λ r h',
    np.shape r = (fst (np.shape sample), fst (np.shape sample)) ∧
    ∀ i j, i < fst (np.shape sample) → j < fst (np.shape sample) →
      peek h' r i j = Int64.wrap (gram sample_store sample i j) ∧
      (Int64.in_range (gram sample_store sample i j) →
       peek h' r i j = gram sample_store sample i j)).
Proof.
  split; [exact valid_sample|].
  exact (C1_product_with_transpose Naive sample_store sample valid_sample).
Defined.

(* ===================================================================== *)
(** ** C2: the strategies agree *)
(* ===================================================================== *)

(** C2, as the specification states it for every integer matrix, fails
    on a matrix of a narrow dtype: [@] computes in the dtype of its
    operands, while the naive loop adds the products to an [int64] array
    and [np.sum] accumulates in [int64]. For the 1 × 2 [int8] matrix
    [[9, 9]] the naive and the broadcast variant return [[162]] and the
    direct multiply returns [[-94]]. *)
Lemma C2_int8_product_differs :
  returns (script_mprof.my_func_as np.int8 nines) nines_store
    (λ r h', matrix_of h' r = [[162]]%Z) ∧
  returns (script_bcast_mprof.my_func_as np.int8 nines) nines_store
    (λ r h', matrix_of h' r = [[162]]%Z) ∧
  returns (script_dot.my_func_as np.int8 nines) nines_store
    (λ r h', matrix_of h' r = [[-94]]%Z) ∧
  ¬ strategies_agree_claim.
Proof.
  assert (Hin : entries_of np.int8 nines_store nines).
  { intros i j Hi Hj. cbn in Hi, Hj.
    destruct i as [|i]; [|lia]. destruct j as [|[|j]]; [| |lia];
      vm_compute; split; discriminate. }
  split; [|split; [|split]].
  - eexists _, _. split; vm_compute; reflexivity.
  - eexists _, _. split; vm_compute; reflexivity.
  - eexists _, _. split; vm_compute; reflexivity.
  - intros Hclaim.
    destruct (Hclaim np.int8 nines_store nines valid_nines Hin)
      as (m & (r1 & h1 & E1 & M1) & _ & (r3 & h3 & E3 & M3)).
    vm_compute in E1. injection E1 as <- <-.
    vm_compute in E3. injection E3 as <- <-.
    vm_compute in M1. vm_compute in M3. rewrite <- M1 in M3. discriminate M3.
Qed.

(** C2 (amended): on every well-formed [int64] matrix, the dtype of the
    matrices the scripts generate, the naive triple loop, the
    broadcast-reduction and the direct matrix multiply (and the printing
    variant as well) return the same R × R matrix, element by element. *)
Theorem C2_strategies_agree (h : heap) (a : np.ndarray) :
  valid h a →
  ∃ m : list (list Z),
    ∀ s, returns (my_func_of s a) h (λ r h',
           np.shape r = (fst (np.shape a), fst (np.shape a)) ∧
           matrix_of h' r = m).
Proof.
  intros Hv. exists (gram_matrix h a). intros s.
  eapply returns_weaken; [by apply my_func_of_spec|].
  intros r h' Hpost. split; [apply Hpost | by apply post_matrix].
Qed.

Lemma C2_strategies_agree_witness :
  valid sample_store sample ∧
  ∃ m : list (list Z),
    ∀ s, returns (my_func_of s sample) sample_store (λ r h',
           np.shape r = (fst (np.shape sample), fst (np.shape sample)) ∧
           matrix_of h' r = m).
Proof.
  split; [exact valid_sample|].
  exact (C2_strategies_agree sample_store sample valid_sample).
Defined.

(* ===================================================================== *)
(** ** C3: square, symmetric, non-negative *)
(* ===================================================================== *)

(** C3, as stated, fails in its last part: for the 1 × 1 matrix
    [[3037000500]] of a non-negative [int64], the square exceeds 2^63 and
    every variant returns a negative entry. *)
Lemma C3_nonneg_result_overflows :
  ¬ nonneg_result_claim (my_script.my_func (λ _, 0%Z)) ∧
  ¬ nonneg_result_claim script_mprof.my_func ∧
  ¬ nonneg_result_claim script_bcast_mprof.my_func ∧
  ¬ nonneg_result_claim script_dot.my_func.
Proof.
  assert (Hin : int64_entries large_store big).
  { exact (single_entry Int64.in_range large_store ltac:(vm_compute; split; discriminate)). }
  assert (Hnn : nonneg_entries large_store big).
  { exact (single_entry (λ z, 0 ≤ z)%Z large_store ltac:(vm_compute; discriminate)). }
  repeat split; intros Hclaim;
    destruct (Hclaim large_store big valid_large Hin Hnn) as (r & h' & E & Hcell);
    vm_compute in E; injection E as <- <-;
    specialize (Hcell 0 0 ltac:(cbn; lia) ltac:(cbn; lia));
    vm_compute in Hcell; by apply Hcell.
Qed.

(** C3 (amended): for every well-formed R × N matrix of non-negative
    [int64] integers the result of each variant is square (R × R) and
    symmetric, and every entry whose exact dot product is below 2^63 is
    non-negative; this covers all entries when the inputs lie in [0, 10)
    and 81 * N < 2^63. *)
Theorem C3_square_symmetric_nonneg (s : strategy) (h : heap) (a : np.ndarray) :
  valid h a → nonneg_entries h a →
  returns (my_func_of s a) h (λ r h',
    np.shape r = (fst (np.shape a), fst (np.shape a)) ∧
    (∀ i j, i < fst (np.shape a) → j < fst (np.shape a) →
            peek h' r i j = peek h' r j i) ∧
    (∀ i j, i < fst (np.shape a) → j < fst (np.shape a) →
            (gram h a i j ≤ Int64.max_signed)%Z → (0 ≤ peek h' r i j)%Z) ∧
    (entries_below 10 h a →
     (Z.of_nat (snd (np.shape a)) * 81 ≤ Int64.max_signed)%Z →
     ∀ i j, i < fst (np.shape a) → j < fst (np.shape a) →
            (0 ≤ peek h' r i j)%Z)).
Proof.
  intros Hv Hnn. eapply returns_weaken; [by apply my_func_of_spec|].
  intros r h' (_ & _ & Hsh & _ & Hcells). split; [done|].
  assert (Hfit : ∀ i j, i < fst (np.shape a) → j < fst (np.shape a) →
            (gram h a i j ≤ Int64.max_signed)%Z → (0 ≤ peek h' r i j)%Z).
  { intros i j Hi Hj Hle. pose proof (gram_nonneg h a i j Hnn Hi Hj).
    rewrite Hcells by done. rewrite wrap_id; [done|].
    unfold Int64.in_range, Int64.min_signed. lia. }
  split; [|split; [exact Hfit|]].
  - intros i j Hi Hj. by rewrite !Hcells, gram_sym.
  - intros Hdigits HN i j Hi Hj. apply Hfit; [done..|].
    pose proof (gram_bound 10 h a i j Hdigits Hi Hj). lia.
Qed.

Lemma C3_square_symmetric_nonneg_witness :
  valid sample_store sample ∧ nonneg_entries sample_store sample ∧
  returns (my_func_of Broadcast sample) sample_store (λ r h',
    np.shape r = (fst (np.shape sample), fst (np.shape sample)) ∧
    (∀ i j, i < fst (np.shape sample) → j < fst (np.shape sample) →
            peek h' r i j = peek h' r j i) ∧
    (∀ i j, i < fst (np.shape sample) → j < fst (np.shape sample) →
            (gram sample_store sample i j ≤ Int64.max_signed)%Z →
            (0 ≤ peek h' r i j)%Z) ∧
    (entries_below 10 sample_store sample →
     (Z.of_nat (snd (np.shape sample)) * 81 ≤ Int64.max_signed)%Z →
     ∀ i j, i < fst (np.shape sample) → j < fst (np.shape sample) →
            (0 ≤ peek h' r i j)%Z)).
Proof.
  assert (Hnn : nonneg_entries sample_store sample).
  { intros i j Hi Hj. cbn in Hi, Hj.
    destruct i as [|[|i]]; [| |lia]; destruct j as [|[|[|j]]]; try lia;
      vm_compute; discriminate. }
  split; [exact valid_sample|]. split; [exact Hnn|].
  exact (C3_square_symmetric_nonneg Broadcast sample_store sample valid_sample Hnn).
Defined.

(* ===================================================================== *)
(** ** C7: no input is rejected *)
(* ===================================================================== *)




(* ===================================================================== *)
(** ** C8: a matrix without columns *)
(* ===================================================================== *)



(* ===================================================================== *)
(** ** C9: the input is left alone and the result is fresh *)
(* ===================================================================== *)

(** C9: after [my_func(M)] returns, every buffer that existed before the
    call, the one of M in particular, holds what it held before, so M shows
    the same entries; the result lives in a buffer that did not exist
    before the call and is not the buffer of M. *)
Theorem C9_input_unchanged_result_fresh (s : strategy) (h : heap) (a : np.ndarray) :
  valid h a →
  returns (my_func_of s a) h (λ r h',
    (∀ b buf, h !! b = Some buf → h' !! b = Some buf) ∧
    matrix_of h' a = matrix_of h a ∧
    h !! np.base r = None ∧
    np.base r ≠ np.base a ∧
    is_Some (h' !! np.base r)).
Proof.
  intros Hv. eapply returns_weaken; [by apply my_func_of_spec|].
  intros r h' (Hp & Hb & Hsh & Hc & _).
  split; [intros b buf Hl; by eapply prefix_lookup_Some|].
  split; [apply matrix_of_ext; [done | intros; by apply peek_prefix]|].
  split; [apply lookup_ge_None_2; lia|].
  split.
  - destruct Hv as (buf & Hl & _). apply lookup_lt_Some in Hl. lia.
  - destruct Hc as (_ & _ & buf & Hl & _). by exists buf.
Qed.

Lemma C9_input_unchanged_result_fresh_witness :
  valid sample_store sample ∧
  returns (my_func_of (Printing (λ k, Z.of_nat k)) sample) sample_store (λ r h',
    (∀ b buf, sample_store !! b = Some buf → h' !! b = Some buf) ∧
    matrix_of h' sample = matrix_of sample_store sample ∧
    sample_store !! np.base r = None ∧
    np.base r ≠ np.base sample ∧
    is_Some (h' !! np.base r)).
Proof.
  split; [exact valid_sample|].
  exact (C9_input_unchanged_result_fresh (Printing (λ k, Z.of_nat k))
           sample_store sample valid_sample).
Defined.

(* ===================================================================== *)
(** ** C10: nothing uninitialised is returned *)
(* ===================================================================== *)

(** C10: in the printing variant the buffer comes from [np.empty], yet the
    two loops assign every cell: whatever the allocator left in the block,
    the returned R × R matrix is the same, the wrapped product of the
    input with its transpose. *)
Theorem C10_no_uninitialized_cell (h : heap) (a : np.ndarray) (junk junk' : nat → Z) :
  valid h a →
  ∃ m : list (list Z),
    m = gram_matrix h a ∧
    returns (my_script.my_func junk a) h (λ r h',
      np.shape r = (fst (np.shape a), fst (np.shape a)) ∧ matrix_of h' r = m) ∧
    returns (my_script.my_func junk' a) h (λ r h',
      np.shape r = (fst (np.shape a), fst (np.shape a)) ∧ matrix_of h' r = m).
Proof.
  intros Hv. exists (gram_matrix h a). split; [done|].
  split; (eapply returns_weaken; [by apply my_script_spec|]);
    intros r h' Hpost; (split; [apply Hpost | by apply post_matrix]).
Qed.

Lemma C10_no_uninitialized_cell_witness :
  valid sample_store sample ∧
  ∃ m : list (list Z),
    m = gram_matrix sample_store sample ∧
    returns (my_script.my_func (λ _, 0%Z) sample) sample_store (λ r h',
      np.shape r = (fst (np.shape sample), fst (np.shape sample)) ∧
      matrix_of h' r = m) ∧
    returns (my_script.my_func (λ k, (Z.of_nat k - 7)%Z) sample) sample_store
      (λ r h',
      np.shape r = (fst (np.shape sample), fst (np.shape sample)) ∧
      matrix_of h' r = m).
Proof.
  split; [exact valid_sample|].
  exact (C10_no_uninitialized_cell sample_store sample
           (λ _, 0%Z) (λ k, (Z.of_nat k - 7)%Z) valid_sample).
Defined.

(* ===================================================================== *)
(** ** C4: the regression value of the scripts *)
(* ===================================================================== *)

(** C4: for the matrix generated with seed 8675309, R = 2 and N = 100000,
    the naive, the broadcast and the direct-multiply [my_func] all return
    exactly [[2842216, 2016906], [2016906, 2840381]], with any fuel and in
    any store; hence the assertion of each of the three scripts passes. *)
Theorem C4_expected_literal (fuel : nat) (h : heap) :
  returns (arr ← script_mprof.ARR fuel; r ← script_mprof.my_func arr;
           np.tolist r) h (λ m _, m = expected) ∧
  returns (arr ← script_bcast_mprof.ARR fuel; r ← script_bcast_mprof.my_func arr;
           np.tolist r) h (λ m _, m = expected) ∧
  returns (arr ← script_dot.ARR fuel; r ← script_dot.my_func arr;
           np.tolist r) h (λ m _, m = expected) ∧
  returns (script_mprof.main fuel) h (λ _ _, True) ∧
  returns (script_bcast_mprof.main fuel) h (λ _ _, True) ∧
  returns (script_dot.main fuel) h (λ _ _, True).
Proof.
  split; [exact (scenario_tolist Naive fuel h)|].
  split; [exact (scenario_tolist Broadcast fuel h)|].
  split; [exact (scenario_tolist DirectMultiply fuel h)|].
  split; [exact (scenario_main Naive fuel h)|].
  split; [exact (scenario_main Broadcast fuel h)|].
  exact (scenario_main DirectMultiply fuel h).
Qed.

(* ===================================================================== *)
(** ** C5: the generator is deterministic and draws digits *)
(* ===================================================================== *)

(** C5: the generator is deterministic. For every seed and extents R, N
    it accepts there is one R × N matrix of digits in [0, 10), determined
    by the seed and the extents alone, that every invocation produces:
    whatever the store it runs in and the fuel it is given (enough for its
    rejection loop), it returns a valid R × N array showing that matrix;
    an invocation that returns with less fuel shows it as well; and of two
    invocations made one after the other, the second leaves the array of
    the first intact and returns the same matrix in another buffer. *)
Theorem C5_generator_deterministic (seed R N : Z) :
  (0 ≤ seed)%Z → (0 ≤ R)%Z → (0 ≤ N)%Z → ¬ too_big R N →
  ∃ m : list (list Z),
    (∀ fuel h, enough_fuel ≤ fuel →
       returns (Generator.generate fuel seed (R, N)) h (λ a h',
         np.shape a = (Z.to_nat R, Z.to_nat N) ∧ valid h' a ∧
         entries_below 10 h' a ∧ matrix_of h' a = m)) ∧
    (∀ fuel h a h', Generator.generate fuel seed (R, N) h = Ok (a, h') →
       matrix_of h' a = m) ∧
    (∀ fuel1 fuel2 h, enough_fuel ≤ fuel1 → enough_fuel ≤ fuel2 →
       returns (a1 ← Generator.generate fuel1 seed (R, N);
                a2 ← Generator.generate fuel2 seed (R, N);
                mret (a1, a2)) h
         (λ p h', np.base p.1 ≠ np.base p.2 ∧
                  matrix_of h' p.1 = m ∧ matrix_of h' p.2 = m)).
Proof.
  intros Hs HR HN Hfit.
  destruct (generate_digits seed R N Hs HR HN Hfit)
    as (data & Hlen & Hall & Htot & Hdet).
  exists (matrix_of [data] (fresh_at [] (Z.to_nat R, Z.to_nat N))).
  split; [|split].
  - intros fuel h Hf. eapply returns_eq; [by apply Htot|].
    split; [done|]. split; [by apply ARR_valid|].
    split; [by apply entries_generated | apply matrix_generated].
  - intros fuel h a h' E. apply Hdet in E. injection E as -> ->.
    apply matrix_generated.
  - intros fuel1 fuel2 h Hf1 Hf2.
    apply returns_bind. eapply returns_eq; [by apply Htot|].
    apply returns_bind. eapply returns_eq; [by apply Htot|].
    apply returns_ret. cbn [fst snd]. split; [|split].
    + cbn [fresh_at np.base]. rewrite length_app. simpl. lia.
    + rewrite <- (matrix_generated h data).
      apply matrix_of_ext; [done|]. intros i j _ _.
      apply peek_prefix; [by apply prefix_app_r | by apply ARR_valid].
    + apply matrix_generated.
Qed.

Lemma C5_generator_deterministic_witness :
  (0 ≤ 8675309)%Z ∧ (0 ≤ 2)%Z ∧ (0 ≤ 3)%Z ∧ ¬ too_big 2 3 ∧
  ∃ m : list (list Z),
    (∀ fuel h, enough_fuel ≤ fuel →
       returns (Generator.generate fuel 8675309 (2, 3)%Z) h (λ a h',
         np.shape a = (Z.to_nat 2, Z.to_nat 3) ∧ valid h' a ∧
         entries_below 10 h' a ∧ matrix_of h' a = m)) ∧
    (∀ fuel h a h', Generator.generate fuel 8675309 (2, 3)%Z h = Ok (a, h') →
       matrix_of h' a = m) ∧
    (∀ fuel1 fuel2 h, enough_fuel ≤ fuel1 → enough_fuel ≤ fuel2 →
       returns (a1 ← Generator.generate fuel1 8675309 (2, 3)%Z;
                a2 ← Generator.generate fuel2 8675309 (2, 3)%Z;
                mret (a1, a2)) h
         (λ p h', np.base p.1 ≠ np.base p.2 ∧
                  matrix_of h' p.1 = m ∧ matrix_of h' p.2 = m)).
Proof.
  assert (H1 : (0 ≤ 8675309)%Z) by lia.
  assert (H2 : (0 ≤ 2)%Z) by lia.
  assert (H3 : (0 ≤ 3)%Z) by lia.
  assert (H4 : ¬ too_big 2 3) by (unfold too_big; lia).
  repeat (split; [assumption|]).
  exact (C5_generator_deterministic 8675309 2 3 H1 H2 H3 H4).
Defined.

(* ===================================================================== *)
(** ** C6: errors of the generator *)
(* ===================================================================== *)

(** C6, as stated, fails: a zero extent is not an error. Asked for a
    0 × 5 matrix the generator returns an empty array. *)
Lemma C6_zero_extent_accepted : ¬ invalid_dimension_claim.
Proof.
  intros Hclaim.
  destruct (Hclaim 0 8675309%Z 0%Z 5%Z [] ltac:(lia) ltac:(lia)) as [e E].
  vm_compute in E. discriminate E.
Qed.

(** C6 (amended): the generator raises (numpy's [ValueError]) exactly when
    an extent, or the seed, is negative, or the shape is too big for an
    [int64] array, that is when eight times the product of the extents
    other than 0 exceeds 2^63 - 1. With any other arguments, zero extents
    included, it returns an array of the requested shape. There is no
    separate error for a zero extent. *)
Theorem C6_generator_errors (fuel : nat) (seed R N : Z) (h : heap) :
  enough_fuel ≤ fuel →
  ((seed < 0)%Z ∨ (R < 0)%Z ∨ (N < 0)%Z ∨ too_big R N →
   Generator.generate fuel seed (R, N) h = Raise ValueError) ∧
  ((0 ≤ seed)%Z → (0 ≤ R)%Z → (0 ≤ N)%Z → ¬ too_big R N →
   ∃ arr h', Generator.generate fuel seed (R, N) h = Ok (arr, h') ∧
             np.shape arr = (Z.to_nat R, Z.to_nat N)).
Proof.
  intros Hf. split.
  - intros Hbad. destruct (decide (seed < 0)%Z) as [Hs|Hs].
    + by apply generate_bad_seed.
    + apply generate_rejected; [lia|]. destruct Hbad as [?|?]; [lia | done].
  - intros Hs HR HN Hfit.
    destruct (generate_total fuel seed R N h Hs HR HN Hfit Hf) as (data & E & _).
    by eexists _, _.
Qed.

Lemma C6_generator_errors_witness :
  enough_fuel ≤ enough_fuel ∧
  (((8675309 < 0)%Z ∨ (0 < 0)%Z ∨ (5 < 0)%Z ∨ too_big 0 5 →
    Generator.generate enough_fuel 8675309 (0, 5)%Z [] = Raise ValueError) ∧
   ((0 ≤ 8675309)%Z → (0 ≤ 0)%Z → (0 ≤ 5)%Z → ¬ too_big 0 5 →
    ∃ arr h', Generator.generate enough_fuel 8675309 (0, 5)%Z [] = Ok (arr, h') ∧
              np.shape arr = (Z.to_nat 0, Z.to_nat 5))).
Proof.
  assert (H1 : enough_fuel ≤ enough_fuel) by apply Nat.le_refl.
  split; [assumption|].
  exact (C6_generator_errors enough_fuel 8675309 0 5 [] H1).
Defined.

(* ===================================================================== *)
(** ** Further verified properties of the code *)
(* ===================================================================== *)

(* ===================================================================== *)
(** ** Seeding: from the integer seed to the generator state *)
(* ===================================================================== *)

Section seeding.
Local Open Scope Z_scope.

Lemma int_to_words_zero fuel : SeedSequence.int_to_words fuel 0 = [].
Proof. by destruct fuel. Qed.

Lemma int_to_words_spec fuel : ∀ n,
  0 ≤ n < 2 ^ (32 * Z.of_nat fuel) →
  words_to_int (SeedSequence.int_to_words fuel n) = n ∧
  Forall (λ w, 0 ≤ w < 2 ^ 32) (SeedSequence.int_to_words fuel n) ∧
  (0 < n → last (SeedSequence.int_to_words fuel n) ≠ Some 0).
Proof.
  induction fuel as [|fuel IH]; intros n Hn.
  - change (2 ^ (32 * Z.of_nat 0)) with 1 in Hn.
    assert (n = 0) as -> by lia. split; [done|]. split; [constructor | lia].
  - cbn [SeedSequence.int_to_words]. destruct (0 <? n) eqn:Hpos.
    + assert (Hq : 0 ≤ n / 2 ^ 32 < 2 ^ (32 * Z.of_nat fuel)).
      { split; [apply Z.div_pos; lia|]. apply Z.div_lt_upper_bound; [lia|].
        rewrite <- Z.pow_add_r by lia.
        replace (32 + 32 * Z.of_nat fuel) with (32 * Z.of_nat (S fuel)) by lia.
        lia. }
      destruct (IH _ Hq) as (Hdec & Hall & Hlast).
      split; [|split].
      * cbn [words_to_int fold_right]. fold (words_to_int
          (SeedSequence.int_to_words fuel (n / 2 ^ 32))).
        rewrite Hdec, uint32_mod.
        pose proof (Z.div_mod n (2 ^ 32) ltac:(lia)). lia.
      * constructor; [apply uint32_range | done].
      * intros _. destruct (decide (n / 2 ^ 32 = 0)) as [E|E].
        -- rewrite E, int_to_words_zero. cbn.
           rewrite uint32_mod. intros [= Hz].
           pose proof (Z.div_mod n (2 ^ 32) ltac:(lia)). lia.
        -- specialize (Hlast ltac:(lia)).
           destruct (SeedSequence.int_to_words fuel (n / 2 ^ 32)) as [|w ws];
             [done | exact Hlast].
    + assert (n = 0) as -> by lia. split; [done|]. split; [constructor | lia].
Qed.

Lemma log2_fuel n : 0 < n → n < 2 ^ (32 * Z.of_nat (S (Z.to_nat (Z.log2 n)))).
Proof.
  intros Hn. pose proof (Z.log2_spec n Hn) as [_ Hlt].
  pose proof (Z.log2_nonneg n).
  eapply Z.lt_le_trans; [exact Hlt|].
  apply Z.pow_le_mono_r; lia.
Qed.

End seeding.

(** X1: the seed is split into little-endian 32-bit words without loss:
    for a non-negative seed the words decode back to the seed, each lies in
    [0, 2^32), there is at least one, and the top word is non-zero unless
    the seed is 0. *)
Theorem X1_seed_words_round_trip (seed : Z) :
  (0 ≤ seed)%Z →
  ∃ ws, SeedSequence.int_to_array seed = Ok ws ∧
        words_to_int ws = seed ∧
        Forall (λ w, 0 ≤ w < 2 ^ 32)%Z ws ∧
        ws ≠ [] ∧
        ((0 < seed)%Z → last ws ≠ Some 0%Z).
Proof.
  intros Hs. unfold SeedSequence.int_to_array.
  destruct (seed <? 0)%Z eqn:Hneg; [lia|].
  destruct (seed =? 0)%Z eqn:Hz.
  - assert (seed = 0%Z) as -> by lia. exists [0%Z].
    split; [done|]. split; [done|].
    split; [by repeat constructor|]. split; [done | lia].
  - assert (Hpos : (0 < seed)%Z) by lia.
    destruct (int_to_words_spec _ seed (conj Hs (log2_fuel seed Hpos)))
      as (Hdec & Hall & Hlast).
    eexists. split; [done|]. split; [done|]. split; [done|].
    split; [|done]. intros E. rewrite E in Hdec. cbn in Hdec. lia.
Qed.

Lemma X1_seed_words_round_trip_witness :
  (0 ≤ 8675309)%Z ∧
  ∃ ws, SeedSequence.int_to_array 8675309 = Ok ws ∧
        words_to_int ws = 8675309%Z ∧
        Forall (λ w, 0 ≤ w < 2 ^ 32)%Z ws ∧
        ws ≠ [] ∧
        ((0 < 8675309)%Z → last ws ≠ Some 0%Z).
Proof.
  assert (H : (0 ≤ 8675309)%Z) by lia.
  split; [exact H|]. exact (X1_seed_words_round_trip 8675309 H).
Defined.

(* ===================================================================== *)
(** ** Properties of the bit generator and of the bounded draw *)
(* ===================================================================== *)

Section generator_extras.
Local Open Scope Z_scope.
Import PCG64.

Lemma set_seed_fields s0 s1 i0 i1 :
  0 ≤ inc (set_seed s0 s1 i0 i1) < 2 ^ 128 ∧
  has_uint32 (set_seed s0 s1 i0 i1) = false.
Proof.
  split; [|done]. cbn [set_seed inc]. rewrite uint128_mod.
  apply Z.mod_pos_bound. lia.
Qed.

Lemma advance_state k g :
  state (advance k g) = lcg_iter k (inc g) (state g) ∧
  inc (advance k g) = inc g.
Proof.
  induction k as [|k [IHs IHi]]; [done|].
  cbn [advance lcg_iter next_uint64 snd state inc]. by rewrite IHs, IHi.
Qed.

Lemma lemire_threshold rng :
  0 ≤ rng < 2 ^ 32 - 1 →
  0 ≤ (Generator.UINT32_MAX - rng) mod (rng + 1) < rng + 1
  ∧ uint32 (rng + 1) = rng + 1.
Proof.
  intros Hr. split; [apply Z.mod_pos_bound; lia|].
  rewrite uint32_mod. apply Z.mod_small. lia.
Qed.

(** The first draw and the redraws are one and the same loop. *)
Lemma lemire_as_loop fuel rng g :
  0 ≤ rng < 2 ^ 32 - 1 →
  Generator.buffered_bounded_lemire_uint32 fuel rng g
  = match Generator.lemire_while fuel
            ((Generator.UINT32_MAX - rng) mod (rng + 1)) (rng + 1)
            (fst (next_uint32 g) * (rng + 1)) (snd (next_uint32 g)) with
    | Ok (m', g') => Ok (Z.shiftr m' 32, g')
    | Raise e => Raise e
    | OutOfFuel => OutOfFuel
    end.
Proof.
  intros Hr. destruct (lemire_threshold rng Hr) as [Hthr Hrex].
  rewrite lemire_eq. cbn zeta. rewrite !Hrex.
  destruct (_ <? rng + 1) eqn:Hlt; [done|].
  rewrite lemire_while_eq.
  destruct (_ <? (Generator.UINT32_MAX - rng) mod (rng + 1)) eqn:Hlt2; [lia | done].
Qed.

Lemma fill_loop_struct fuel off rng cnt : ∀ g out l g',
  Generator.fill_loop fuel off rng cnt g out = Ok (l, g') →
  ∃ more, l = rev out ++ more ∧ length more = cnt.
Proof.
  induction cnt as [|cnt IH]; intros g out l g'; simpl.
  - intros [= <- _]. exists []. by rewrite rev_append_rev.
  - destruct (Generator.buffered_bounded_lemire_uint32 fuel rng g)
      as [[v g1]| |]; try done.
    intros E. destruct (IH _ _ _ _ E) as (more & -> & Hlen).
    exists ((off + v) :: more). split; [|simpl; lia].
    simpl. by rewrite <- app_assoc.
Qed.

Lemma fill_loop_prefix fuel off rng cnt k : ∀ g out l1 g1 l2 g2,
  Generator.fill_loop fuel off rng cnt g out = Ok (l1, g1) →
  Generator.fill_loop fuel off rng (cnt + k) g out = Ok (l2, g2) →
  l1 `prefix_of` l2.
Proof.
  induction cnt as [|cnt IH]; intros g out l1 g1 l2 g2; simpl.
  - intros [= <- _] E. destruct (fill_loop_struct _ _ _ _ _ _ _ _ E) as (more & -> & _).
    rewrite rev_append_rev, app_nil_r. by exists more.
  - destruct (Generator.buffered_bounded_lemire_uint32 fuel rng g)
      as [[v g']| |]; try done.
    apply IH.
Qed.

End generator_extras.

(** X2: [default_rng] rejects a negative seed with [ValueError]; for any
    other seed it returns a generator whose state and increment fit in 128
    bits, whose increment is odd and which has no buffered half pending. *)
Theorem X2_default_rng_state (seed : Z) :
  ((seed < 0)%Z → Generator.default_rng seed = Raise ValueError) ∧
  ((0 ≤ seed)%Z →
   ∃ g, Generator.default_rng seed = Ok g ∧
        (0 ≤ PCG64.state g < 2 ^ 128)%Z ∧
        (0 ≤ PCG64.inc g < 2 ^ 128)%Z ∧
        (PCG64.inc g mod 2 = 1)%Z ∧
        PCG64.has_uint32 g = false).
Proof.
  split; [apply default_rng_negative|]. intros Hs.
  unfold Generator.default_rng, PCG64.seed.
  destruct (int_to_array_ok seed Hs) as [words ->].
  eexists. split; [reflexivity|].
  pose proof (set_seed_ok (SeedSequence.generate_state64
    (SeedSequence.mix_entropy words) 4 !!! 0)
    (SeedSequence.generate_state64 (SeedSequence.mix_entropy words) 4 !!! 1)
    (SeedSequence.generate_state64 (SeedSequence.mix_entropy words) 4 !!! 2)
    (SeedSequence.generate_state64 (SeedSequence.mix_entropy words) 4 !!! 3))
    as (Hst & Hodd & _).
  split; [exact Hst|]. split; [apply set_seed_fields|].
  split; [exact Hodd | apply set_seed_fields].
Qed.

(** X3: the generator has full period: from any sound state, every
    128-bit state (its own included) is the state after some number of
    64-bit draws between 1 and 2^128. *)
Theorem X3_pcg64_full_period (g : PCG64.pcg64_state) (t : Z) :
  gen_ok g → (0 ≤ t < 2 ^ 128)%Z →
  ∃ k : nat, 0 < k ∧ (Z.of_nat k ≤ 2 ^ 128)%Z ∧
             PCG64.state (advance k g) = t ∧
             PCG64.inc (advance k g) = PCG64.inc g.
Proof.
  intros (Hs & Hodd & _) Ht.
  destruct (lcg_reach (PCG64.inc g) (PCG64.state g) t Hodd Ht) as (n & Hn & Hr).
  exists (S n). split; [lia|]. split; [lia|].
  destruct (advance_state (S n) g) as [-> ->]. by split.
Qed.

Lemma X3_pcg64_full_period_witness :
  gen_ok sample_gen ∧ (0 ≤ 5 < 2 ^ 128)%Z ∧
  ∃ k : nat, 0 < k ∧ (Z.of_nat k ≤ 2 ^ 128)%Z ∧
             PCG64.state (advance k sample_gen) = 5%Z ∧
             PCG64.inc (advance k sample_gen) = PCG64.inc sample_gen.
Proof.
  assert (Hg : gen_ok sample_gen) by apply set_seed_ok.
  assert (Ht : (0 ≤ 5 < 2 ^ 128)%Z) by lia.
  split; [exact Hg|]. split; [exact Ht|].
  exact (X3_pcg64_full_period sample_gen 5 Hg Ht).
Defined.

(** X4: with no half pending, two successive 32-bit draws are the low and
    the high half of one 64-bit draw: they recombine to it, the state has
    advanced exactly once and no half is left pending. *)
Theorem X4_uint32_draws_split_one_uint64 (g : PCG64.pcg64_state) :
  PCG64.has_uint32 g = false →
  (fst (PCG64.next_uint32 g)
   + 2 ^ 32 * fst (PCG64.next_uint32 (snd (PCG64.next_uint32 g)))
   = fst (PCG64.next_uint64 g))%Z ∧
  PCG64.state (snd (PCG64.next_uint32 (snd (PCG64.next_uint32 g))))
  = PCG64.state (snd (PCG64.next_uint64 g)) ∧
  PCG64.inc (snd (PCG64.next_uint32 (snd (PCG64.next_uint32 g)))) = PCG64.inc g ∧
  PCG64.has_uint32 (snd (PCG64.next_uint32 (snd (PCG64.next_uint32 g)))) = false.
Proof.
  intros Hno.
  set (w := PCG64.output_xsl_rr_128_64 (PCG64.step (PCG64.state g) (PCG64.inc g))).
  assert (E : PCG64.next_uint32 g
              = (uint32 w,
                 {| PCG64.state := PCG64.step (PCG64.state g) (PCG64.inc g);
                    PCG64.inc := PCG64.inc g; PCG64.has_uint32 := true;
                    PCG64.uinteger := Z.shiftr w 32 |})).
  { unfold PCG64.next_uint32. by rewrite Hno. }
  rewrite E. cbn [fst snd]. unfold PCG64.next_uint32.
  cbn [PCG64.has_uint32 PCG64.uinteger PCG64.state PCG64.inc
       PCG64.next_uint64 fst snd].
  split; [|done]. fold w.
  rewrite uint32_mod, Z.shiftr_div_pow2 by lia.
  pose proof (Z.div_mod w (2 ^ 32) ltac:(lia)). lia.
Qed.

Lemma X4_uint32_draws_split_one_uint64_witness :
  PCG64.has_uint32 sample_gen = false ∧
  (fst (PCG64.next_uint32 sample_gen)
   + 2 ^ 32 * fst (PCG64.next_uint32 (snd (PCG64.next_uint32 sample_gen)))
   = fst (PCG64.next_uint64 sample_gen))%Z ∧
  PCG64.state (snd (PCG64.next_uint32 (snd (PCG64.next_uint32 sample_gen))))
  = PCG64.state (snd (PCG64.next_uint64 sample_gen)) ∧
  PCG64.inc (snd (PCG64.next_uint32 (snd (PCG64.next_uint32 sample_gen))))
  = PCG64.inc sample_gen ∧
  PCG64.has_uint32 (snd (PCG64.next_uint32 (snd (PCG64.next_uint32 sample_gen))))
  = false.
Proof.
  split; [reflexivity|].
  exact (X4_uint32_draws_split_one_uint64 sample_gen eq_refl).
Defined.

(** X5: a bounded draw from [0, rng], for any rng below 2^32 - 1, always
    returns when the rejection loop has enough fuel; the value lies in
    [0, rng] and the generator stays sound. *)
Theorem X5_bounded_draw_in_range (fuel : nat) (rng : Z) (g : PCG64.pcg64_state) :
  gen_ok g → (0 ≤ rng < 2 ^ 32 - 1)%Z → enough_fuel ≤ fuel →
  ∃ v g', Generator.buffered_bounded_lemire_uint32 fuel rng g = Ok (v, g') ∧
          (0 ≤ v ≤ rng)%Z ∧ gen_ok g'.
Proof.
  intros Hg Hr Hf.
  destruct (lemire_total fuel rng g Hg Hr Hf) as (v & g' & E & Hg' & Hv).
  by exists v, g'.
Qed.

Lemma X5_bounded_draw_in_range_witness :
  gen_ok sample_gen ∧ (0 ≤ 9 < 2 ^ 32 - 1)%Z ∧ enough_fuel ≤ enough_fuel ∧
  ∃ v g', Generator.buffered_bounded_lemire_uint32 enough_fuel 9 sample_gen
          = Ok (v, g') ∧ (0 ≤ v ≤ 9)%Z ∧ gen_ok g'.
Proof.
  assert (Hg : gen_ok sample_gen) by apply set_seed_ok.
  assert (Hr : (0 ≤ 9 < 2 ^ 32 - 1)%Z) by lia.
  assert (Hf : enough_fuel ≤ enough_fuel) by apply Nat.le_refl.
  split; [exact Hg|]. split; [exact Hr|]. split; [exact Hf|].
  exact (X5_bounded_draw_in_range enough_fuel 9 sample_gen Hg Hr Hf).
Defined.

(** X6: a bounded draw keeps the first 32-bit value whose scaled low half
    reaches the threshold (2^32 - 1 - rng) mod (rng + 1) and returns the
    high half of the product; a value below the threshold is thrown away,
    and the draw then behaves exactly like a new draw from the advanced
    generator. *)
Theorem X6_rejected_draw_is_redrawn (fuel : nat) (rng : Z) (g : PCG64.pcg64_state) :
  (0 ≤ rng < 2 ^ 32 - 1)%Z →
  Generator.buffered_bounded_lemire_uint32 fuel rng g
  = if ((Generator.UINT32_MAX - rng) mod (rng + 1)
        <=? uint32 (fst (PCG64.next_uint32 g) * (rng + 1)))%Z
    then Ok (Z.shiftr (fst (PCG64.next_uint32 g) * (rng + 1)) 32,
             snd (PCG64.next_uint32 g))
    else match fuel with
         | O => OutOfFuel
         | S fuel' =>
             Generator.buffered_bounded_lemire_uint32 fuel' rng
               (snd (PCG64.next_uint32 g))
         end.
Proof.
  intros Hr. rewrite lemire_as_loop, lemire_while_eq by done.
  destruct (_ <=? _)%Z eqn:Hle.
  - destruct (_ <? _)%Z eqn:Hlt; [lia | done].
  - destruct (_ <? _)%Z eqn:Hlt; [|lia].
    destruct fuel as [|fuel]; [done|]. by rewrite <- lemire_as_loop.
Qed.

Lemma X6_rejected_draw_is_redrawn_witness :
  (0 ≤ 9 < 2 ^ 32 - 1)%Z ∧
  Generator.buffered_bounded_lemire_uint32 3 9 sample_gen
  = if ((Generator.UINT32_MAX - 9) mod (9 + 1)
        <=? uint32 (fst (PCG64.next_uint32 sample_gen) * (9 + 1)))%Z
    then Ok (Z.shiftr (fst (PCG64.next_uint32 sample_gen) * (9 + 1)) 32,
             snd (PCG64.next_uint32 sample_gen))
    else Generator.buffered_bounded_lemire_uint32 2 9
           (snd (PCG64.next_uint32 sample_gen)).
Proof.
  assert (Hr : (0 ≤ 9 < 2 ^ 32 - 1)%Z) by lia.
  split; [exact Hr|].
  exact (X6_rejected_draw_is_redrawn 3 9 sample_gen Hr).
Defined.

(** X7: the rejection makes the ten digits exactly equally likely: of the
    2^32 possible 32-bit values, those that are kept and give the digit v
    form a block of 429496729 consecutive values, whatever v is (only the
    6 values of the residue classes below the threshold are rejected). *)
Theorem X7_digits_equally_likely (u v : Z) :
  (0 ≤ u < 2 ^ 32)%Z → (0 ≤ v < 10)%Z →
  (((Generator.UINT32_MAX - 9) mod (9 + 1) ≤ uint32 (u * (9 + 1)))%Z
   ∧ Z.shiftr (u * (9 + 1)) 32 = v)
  ↔ ((v * 2 ^ 32 + 15) / 10 ≤ u < (v * 2 ^ 32 + 15) / 10 + 429496729)%Z.
Proof.
  intros Hu Hv. rewrite uint32_mod, Z.shiftr_div_pow2 by lia.
  change ((Generator.UINT32_MAX - 9) mod (9 + 1))%Z with 6%Z.
  change (9 + 1)%Z with 10%Z. change (2 ^ 32)%Z with 4294967296%Z.
  pose proof (Z.div_mod (u * 10) 4294967296 ltac:(lia)).
  pose proof (Z.mod_pos_bound (u * 10) 4294967296 ltac:(lia)).
  pose proof (Z.div_mod (v * 4294967296 + 15) 10 ltac:(lia)).
  pose proof (Z.mod_pos_bound (v * 4294967296 + 15) 10 ltac:(lia)).
  split.
  - intros [H6 <-]. lia.
  - intros Hrange.
    assert (Hq : (u * 10 / 4294967296 = v)%Z).
    { symmetry.
      apply Z.div_unique with (r := (u * 10 - 4294967296 * v)%Z); lia. }
    split; [|done]. lia.
Qed.

Lemma X7_digits_equally_likely_witness :
  (0 ≤ 3000000000 < 2 ^ 32)%Z ∧ (0 ≤ 6 < 10)%Z ∧
  ((((Generator.UINT32_MAX - 9) mod (9 + 1) ≤ uint32 (3000000000 * (9 + 1)))%Z
    ∧ Z.shiftr (3000000000 * (9 + 1)) 32 = 6%Z)
   ↔ ((6 * 2 ^ 32 + 15) / 10 ≤ 3000000000
      < (6 * 2 ^ 32 + 15) / 10 + 429496729)%Z).
Proof.
  assert (Hu : (0 ≤ 3000000000 < 2 ^ 32)%Z) by lia.
  assert (Hv : (0 ≤ 6 < 10)%Z) by lia.
  split; [exact Hu|]. split; [exact Hv|].
  exact (X7_digits_equally_likely 3000000000 6 Hu Hv).
Defined.

Section generator_store.
Local Open Scope Z_scope.

Lemma generate_fuel_irrelevant fuel fuel' seed size (h : heap) x :
  Generator.generate fuel seed size h = Ok x → (fuel ≤ fuel')%nat →
  Generator.generate fuel' seed size h = Ok x.
Proof.
  intros E Hle. destruct size as [R N].
  destruct (generate_inv _ _ _ _ _ _ E)
    as (Hs & HR & HN & Hfit & g & data & g' & Hg & Hfill & ->).
  apply (generate_ok fuel' seed R N g data g' h Hg HR HN Hfit).
  by apply (fill_loop_mono fuel fuel' _ _ _ _ _ _ Hfill).
Qed.

Lemma max_fuel (a b : nat) : (a ≤ Nat.max a b)%nat ∧ (b ≤ Nat.max a b)%nat.
Proof. lia. Qed.

End generator_store.

(** X8: whenever the generator returns, the seed and both extents are
    non-negative, the store has grown by exactly one buffer of R * N digits
    in [0, 10) while every earlier buffer is untouched, and the array is
    the C-contiguous R × N view of that new buffer. *)
Theorem X8_generate_allocates_one_buffer
  (fuel : nat) (seed R N : Z) (h : heap) (arr : np.ndarray) (h' : heap) :
  Generator.generate fuel seed (R, N) h = Ok (arr, h') →
  (0 ≤ seed)%Z ∧ (0 ≤ R)%Z ∧ (0 ≤ N)%Z ∧
  ∃ data, h' = h ++ [data] ∧
          length data = Z.to_nat R * Z.to_nat N ∧
          Forall (λ v, 0 ≤ v < 10)%Z data ∧
          arr = fresh_at h (Z.to_nat R, Z.to_nat N) ∧
          contig h' arr.
Proof.
  intros E.
  pose proof (generate_fuel_irrelevant _ _ _ _ _ _ E
                (proj1 (max_fuel fuel enough_fuel))) as E'.
  destruct (generate_inv _ _ _ _ _ _ E) as (Hs & HR & HN & Hfit & _).
  destruct (generate_total (Nat.max fuel enough_fuel) seed R N h Hs HR HN Hfit
              (proj2 (max_fuel fuel enough_fuel))) as (data & Et & Hlen & Hall).
  rewrite Et in E'. injection E' as <- <-.
  split; [done|]. split; [done|]. split; [done|].
  exists data. split; [done|]. split; [done|]. split; [done|]. split; [done|].
  by apply contig_fresh.
Qed.

Lemma X8_generate_allocates_one_buffer_witness :
  Generator.generate 0 8675309 (2, 3)%Z sample_store
  = Ok (fresh_at sample_store (2, 3), sample_store ++ [[7; 3; 3; 8; 3; 6]%Z]) ∧
  (0 ≤ 8675309)%Z ∧ (0 ≤ 2)%Z ∧ (0 ≤ 3)%Z ∧
  ∃ data, sample_store ++ [[7; 3; 3; 8; 3; 6]%Z] = sample_store ++ [data] ∧
          length data = Z.to_nat 2 * Z.to_nat 3 ∧
          Forall (λ v, 0 ≤ v < 10)%Z data ∧
          fresh_at sample_store (2, 3)
          = fresh_at sample_store (Z.to_nat 2, Z.to_nat 3) ∧
          contig (sample_store ++ [[7; 3; 3; 8; 3; 6]%Z])
                 (fresh_at sample_store (2, 3)).
Proof.
  assert (E : Generator.generate 0 8675309 (2, 3)%Z sample_store
              = Ok (fresh_at sample_store (2, 3),
                    sample_store ++ [[7; 3; 3; 8; 3; 6]%Z]))
    by (vm_compute; reflexivity).
  split; [exact E|].
  exact (X8_generate_allocates_one_buffer 0 8675309 2 3 sample_store _ _ E).
Defined.

(** X9: matrices of different sizes generated from the same seed share
    their draws: the buffer of the smaller one is a prefix of the buffer of
    the larger one, so the first row of an R × N matrix is the beginning of
    the first row of any R' × N' matrix with N ≤ N'. (The first row of
    [my_script]'s 2 × 10^7 matrix starts with the first row of the
    2 × 10^5 matrix of the other scripts.) *)
Theorem X9_smaller_matrix_is_prefix
  (fuel fuel' : nat) (seed R N R' N' : Z) (h : heap)
  (a1 a2 : np.ndarray) (h1 h2 : heap) :
  Generator.generate fuel seed (R, N) h = Ok (a1, h1) →
  Generator.generate fuel' seed (R', N') h = Ok (a2, h2) →
  (Z.to_nat R * Z.to_nat N ≤ Z.to_nat R' * Z.to_nat N') →
  (∃ d1 d2, h1 = h ++ [d1] ∧ h2 = h ++ [d2] ∧ d1 `prefix_of` d2) ∧
  ((0 < R)%Z → (N ≤ N')%Z →
   ∀ k, k < Z.to_nat N → peek h1 a1 0 k = peek h2 a2 0 k).
Proof.
  intros E1 E2 Hle.
  destruct (max_fuel fuel fuel') as [Hf Hf'].
  apply (generate_fuel_irrelevant _ _ _ _ _ _ E1) in Hf.
  apply (generate_fuel_irrelevant _ _ _ _ _ _ E2) in Hf'.
  destruct (generate_inv _ _ _ _ _ _ Hf)
    as (Hs & HR & HN & _ & g & d1 & g1 & Hg & Hfill1 & [= -> ->]).
  destruct (generate_inv _ _ _ _ _ _ Hf')
    as (_ & HR' & HN' & _ & g' & d2 & g2 & Hg' & Hfill2 & [= -> ->]).
  rewrite Hg in Hg'. injection Hg' as <-.
  assert (Hpre : d1 `prefix_of` d2).
  { replace (Z.to_nat R' * Z.to_nat N')
      with (Z.to_nat R * Z.to_nat N
            + (Z.to_nat R' * Z.to_nat N' - Z.to_nat R * Z.to_nat N))
      in Hfill2 by lia.
    exact (fill_loop_prefix _ _ _ _ _ _ _ _ _ _ _ Hfill1 Hfill2). }
  split; [by exists d1, d2|].
  intros HRpos HNN k Hk. rewrite !peek_generated, !Nat.mul_0_l, !Nat.add_0_l.
  pose proof (fill_length _ _ _ _ _ _ _ Hfill1) as Hlen1.
  destruct (lookup_lt_is_Some_2 d1 k) as [v Hv]; [rewrite Hlen1; nia|].
  by rewrite Hv, (prefix_lookup_Some _ _ _ _ Hv Hpre).
Qed.

Lemma X9_smaller_matrix_is_prefix_witness :
  Generator.generate 0 8675309 (2, 3)%Z []
  = Ok (fresh_at [] (2, 3), [[7; 3; 3; 8; 3; 6]%Z]) ∧
  Generator.generate 1 8675309 (2, 4)%Z []
  = Ok (fresh_at [] (2, 4), [[7; 3; 3; 8; 3; 6; 4; 9]%Z]) ∧
  (Z.to_nat 2 * Z.to_nat 3 ≤ Z.to_nat 2 * Z.to_nat 4) ∧
  (∃ d1 d2, [[7; 3; 3; 8; 3; 6]%Z] = [] ++ [d1] ∧
            [[7; 3; 3; 8; 3; 6; 4; 9]%Z] = [] ++ [d2] ∧ d1 `prefix_of` d2) ∧
  ((0 < 2)%Z → (3 ≤ 4)%Z →
   ∀ k, k < Z.to_nat 3 →
        peek [[7; 3; 3; 8; 3; 6]%Z] (fresh_at [] (2, 3)) 0 k
        = peek [[7; 3; 3; 8; 3; 6; 4; 9]%Z] (fresh_at [] (2, 4)) 0 k).
Proof.
  assert (E1 : Generator.generate 0 8675309 (2, 3)%Z []
               = Ok (fresh_at [] (2, 3), [[7; 3; 3; 8; 3; 6]%Z]))
    by (vm_compute; reflexivity).
  assert (E2 : Generator.generate 1 8675309 (2, 4)%Z []
               = Ok (fresh_at [] (2, 4), [[7; 3; 3; 8; 3; 6; 4; 9]%Z]))
    by (vm_compute; reflexivity).
  assert (Hle : Z.to_nat 2 * Z.to_nat 3 ≤ Z.to_nat 2 * Z.to_nat 4)
    by (vm_compute; lia).
  split; [exact E1|]. split; [exact E2|]. split; [exact Hle|].
  exact (X9_smaller_matrix_is_prefix 0 1 8675309 2 3 2 4 [] _ _ _ _ E1 E2 Hle).
Defined.

(* ===================================================================== *)
(** ** Further properties of [my_func] *)
(* ===================================================================== *)

Section my_func_extras.
Local Open Scope Z_scope.

Lemma dotprod_self_nonneg f n : 0 ≤ dotprod f f n.
Proof. induction n as [|n IH]; simpl; [done | nia]. Qed.

Lemma dotprod_self_zero f n :
  dotprod f f n = 0 → ∀ k, (k < n)%nat → f k = 0.
Proof.
  induction n as [|n IH]; intros Hz k Hk; [lia|].
  simpl in Hz. pose proof (dotprod_self_nonneg f n).
  assert (dotprod f f n = 0 ∧ f n = 0) as [Hd Hn] by nia.
  destruct (decide (k = n)) as [->|]; [done | apply IH; [done | lia]].
Qed.

Lemma gram_matrix_generated (h : heap) data (R N : nat) :
  gram_matrix (h ++ [data]) (fresh_at h (R, N))
  = map (λ i, map (λ j, Int64.wrap (rows_dot N data i j)) (seq 0 R)) (seq 0 R).
Proof.
  unfold gram_matrix. cbn [fresh_at np.shape fst].
  apply map_ext. intros i. apply map_ext. intros j.
  by rewrite gram_generated.
Qed.

Lemma rows_dot_bound (h : heap) data (R N : nat) i j :
  length data = (R * N)%nat → Forall (λ v, 0 ≤ v < 10) data →
  (i < R)%nat → (j < R)%nat →
  0 ≤ rows_dot N data i j ≤ Z.of_nat N * 81.
Proof.
  intros Hlen Hall Hi Hj. rewrite <- (gram_generated h data R N).
  pose proof (gram_bound 10 (h ++ [data]) (fresh_at h (R, N)) i j
                (entries_generated h data R N Hlen Hall) Hi Hj) as Hb.
  cbn [fresh_at np.shape snd] in Hb. lia.
Qed.

Lemma rows_dot_sym N data i j : rows_dot N data i j = rows_dot N data j i.
Proof. unfold rows_dot. rewrite !dot_acc_spec. f_equal. apply dotprod_comm. Qed.

Lemma generate_total_any_store fuel seed R N :
  0 ≤ seed → 0 ≤ R → 0 ≤ N → ¬ too_big R N → (enough_fuel ≤ fuel)%nat →
  ∃ data, length data = (Z.to_nat R * Z.to_nat N)%nat ∧
          Forall (λ v, 0 ≤ v < 10) data ∧
          ∀ h : heap, Generator.generate fuel seed (R, N) h
                      = Ok (fresh_at h (Z.to_nat R, Z.to_nat N), h ++ [data]).
Proof.
  intros Hs HR HN Hfit Hfuel.
  destruct (default_rng_ok seed Hs) as (g & Hg & Hok).
  destruct (fill_loop_total fuel 0 9 (Z.to_nat R * Z.to_nat N) g []
              Hok ltac:(lia) Hfuel ltac:(constructor))
    as (data & g' & Hfill & Hdata).
  exists data. split; [exact (fill_length _ _ _ _ _ _ _ Hfill)|]. split.
  - eapply Forall_impl; [exact Hdata|]. intros v Hv. simpl in Hv. lia.
  - intros h. by eapply generate_ok.
Qed.

End my_func_extras.

(** X10: the whole pipeline never overflows on matrices of realistic size:
    for every seed and extents R, N with 81 * N below 2^63, such that numpy
    can create the R × N matrix and the R × R result (neither is too big),
    generating the matrix and applying any variant of [my_func] returns the
    matrix of the exact row dot products of the generated digits, each
    between 0 and 81 * N. *)
Theorem X10_generated_product_is_exact
  (s : strategy) (fuel : nat) (seed R N : Z) (h : heap) :
  (0 ≤ seed)%Z → (0 ≤ R)%Z → (0 ≤ N)%Z → (N * 81 ≤ Int64.max_signed)%Z →
  ¬ too_big R N → ¬ too_big R R →
  enough_fuel ≤ fuel →
  returns (arr ← Generator.generate fuel seed (R, N);
           r ← my_func_of s arr; np.tolist r) h
    (λ m h', ∃ data,
       (h ++ [data]) `prefix_of` h' ∧
       length data = Z.to_nat R * Z.to_nat N ∧
       Forall (λ v, 0 ≤ v < 10)%Z data ∧
       m = map (λ i, map (λ j, rows_dot (Z.to_nat N) data i j)
                         (seq 0 (Z.to_nat R))) (seq 0 (Z.to_nat R)) ∧
       ∀ i j, i < Z.to_nat R → j < Z.to_nat R →
              (0 ≤ rows_dot (Z.to_nat N) data i j ≤ N * 81)%Z).
Proof.
  intros Hs HR HN Hfit Hin _ Hf.
  destruct (generate_total fuel seed R N h Hs HR HN Hin Hf)
    as (data & E & Hlen & Hall).
  apply returns_bind. eapply returns_eq; [exact E|].
  pose proof (ARR_valid h data _ _ Hlen) as Hv.
  apply returns_bind. eapply returns_weaken; [apply my_func_of_spec, Hv|].
  intros r h' Hpost. eapply reads_returns.
  { apply reads_tolist, contig_valid, Hpost. }
  assert (Hb : ∀ i j, i < Z.to_nat R → j < Z.to_nat R →
            (0 ≤ rows_dot (Z.to_nat N) data i j ≤ N * 81)%Z).
  { intros i j Hi Hj.
    pose proof (rows_dot_bound h data _ _ i j Hlen Hall Hi Hj). lia. }
  exists data. split; [apply Hpost|]. split; [done|]. split; [done|].
  split; [|done].
  rewrite (post_matrix _ _ _ _ Hpost), gram_matrix_generated.
  apply map_ext_in. intros i Hi%in_seq. apply map_ext_in. intros j Hj%in_seq.
  apply wrap_id. specialize (Hb i j ltac:(lia) ltac:(lia)).
  unfold Int64.in_range, Int64.min_signed. lia.
Qed.

Lemma X10_generated_product_is_exact_witness :
  (0 ≤ 8675309)%Z ∧ (0 ≤ 2)%Z ∧ (0 ≤ 100000)%Z ∧
  (100000 * 81 ≤ Int64.max_signed)%Z ∧
  ¬ too_big 2 100000 ∧ ¬ too_big 2 2 ∧ enough_fuel ≤ enough_fuel ∧
  returns (arr ← Generator.generate enough_fuel 8675309 (2, 100000)%Z;
           r ← my_func_of Broadcast arr; np.tolist r) []
    (λ m h', ∃ data,
       ([] ++ [data]) `prefix_of` h' ∧
       length data = Z.to_nat 2 * Z.to_nat 100000 ∧
       Forall (λ v, 0 ≤ v < 10)%Z data ∧
       m = map (λ i, map (λ j, rows_dot (Z.to_nat 100000) data i j)
                         (seq 0 (Z.to_nat 2))) (seq 0 (Z.to_nat 2)) ∧
       ∀ i j, i < Z.to_nat 2 → j < Z.to_nat 2 →
              (0 ≤ rows_dot (Z.to_nat 100000) data i j ≤ 100000 * 81)%Z).
Proof.
  assert (H1 : (0 ≤ 8675309)%Z) by lia.
  assert (H2 : (0 ≤ 2)%Z) by lia.
  assert (H3 : (0 ≤ 100000)%Z) by lia.
  assert (H4 : (100000 * 81 ≤ Int64.max_signed)%Z) by (vm_compute; discriminate).
  assert (H5 : ¬ too_big 2 100000) by (unfold too_big; lia).
  assert (H6 : ¬ too_big 2 2) by (unfold too_big; lia).
  assert (H7 : enough_fuel ≤ enough_fuel) by apply Nat.le_refl.
  repeat (split; [assumption|]).
  exact (X10_generated_product_is_exact Broadcast enough_fuel 8675309 2 100000 []
           H1 H2 H3 H4 H5 H6 H7).
Defined.

(** X11: [my_script.py] prints the exact products of its 2 × 10^7 matrix.
    There is one buffer of 2 * 10^7 digits that the generator of the script
    delivers in every store; the value handed to [print] is the 2 × 2
    matrix of the exact dot products of the rows of that generated matrix,
    it is symmetric, each entry lies between 0 and 810000000, and it
    depends neither on what [np.empty] exposed nor on the store the script
    starts in. *)
Theorem X11_my_script_prints_exact_matrix (fuel : nat) :
  enough_fuel ≤ fuel →
  ∃ data : list Z,
    length data = 2 * Z.to_nat my_script.n ∧
    Forall (λ v, 0 ≤ v < 10)%Z data ∧
    ∀ (junk : nat → Z) (h : heap),
      let arr := fresh_at h (2, Z.to_nat my_script.n) in
      let h1 := h ++ [data] in
      my_script.ARR fuel h = Ok (arr, h1) ∧
      returns (my_script.main fuel junk) h (λ m _,
        m = [[gram h1 arr 0 0; gram h1 arr 0 1];
             [gram h1 arr 1 0; gram h1 arr 1 1]]) ∧
      gram h1 arr 0 1 = gram h1 arr 1 0 ∧
      ∀ i j, i < 2 → j < 2 → (0 ≤ gram h1 arr i j ≤ 810000000)%Z.
Proof.
  intros Hf.
  assert (Hn : (0 ≤ my_script.n)%Z) by (unfold my_script.n; lia).
  assert (H0 : (0 ≤ 8675309)%Z) by lia. assert (H2 : (0 ≤ 2)%Z) by lia.
  assert (Hfit : ¬ too_big 2 my_script.n)
    by (unfold too_big, my_script.n; lia).
  destruct (generate_total_any_store fuel 8675309 2 my_script.n H0 H2 Hn Hfit Hf)
    as (data & Hlen & Hall & Hgen).
  assert (HN : Z.of_nat (Z.to_nat my_script.n) = 10000000%Z)
    by (unfold my_script.n; lia).
  unfold my_script.main, my_script.ARR.
  change (Z.to_nat 2) with 2 in Hlen, Hgen.
  revert Hlen Hgen HN. generalize (Z.to_nat my_script.n). intros N Hlen Hgen HN.
  exists data. split; [exact Hlen|]. split; [exact Hall|].
  intros junk h. cbn zeta.
  assert (Hb : ∀ i j, i < 2 → j < 2 →
            (0 ≤ gram (h ++ [data]) (fresh_at h (2%nat, N)) i j ≤ 810000000)%Z).
  { intros i j Hi Hj. rewrite gram_generated.
    pose proof (rows_dot_bound [] data 2 N i j Hlen Hall Hi Hj) as Hb.
    lia. }
  split; [apply Hgen|]. split; [|split; [apply gram_sym | exact Hb]].
  apply returns_bind. eapply returns_eq; [apply Hgen|].
  pose proof (ARR_valid h data _ _ Hlen) as Hv.
  apply returns_bind. eapply returns_weaken; [apply my_script_spec, Hv|].
  intros r h' Hpost. eapply reads_returns.
  { apply reads_tolist, contig_valid, Hpost. }
  rewrite (post_matrix _ _ _ _ Hpost). unfold gram_matrix.
  cbn [fresh_at np.shape fst seq map].
  rewrite !wrap_id; [done|..];
    (unfold Int64.in_range, Int64.min_signed, Int64.max_signed;
     match goal with |- (_ ≤ gram _ _ ?i ?j ≤ _)%Z =>
       specialize (Hb i j ltac:(lia) ltac:(lia)) end;
     cbn [fresh_at] in Hb; lia).
Qed.

Lemma X11_my_script_prints_exact_matrix_witness :
  enough_fuel ≤ enough_fuel ∧
  ∃ data : list Z,
    length data = 2 * Z.to_nat my_script.n ∧
    Forall (λ v, 0 ≤ v < 10)%Z data ∧
    ∀ (junk : nat → Z) (h : heap),
      let arr := fresh_at h (2, Z.to_nat my_script.n) in
      let h1 := h ++ [data] in
      my_script.ARR enough_fuel h = Ok (arr, h1) ∧
      returns (my_script.main enough_fuel junk) h (λ m _,
        m = [[gram h1 arr 0 0; gram h1 arr 0 1];
             [gram h1 arr 1 0; gram h1 arr 1 1]]) ∧
      gram h1 arr 0 1 = gram h1 arr 1 0 ∧
      ∀ i j, i < 2 → j < 2 → (0 ≤ gram h1 arr i j ≤ 810000000)%Z.
Proof.
  assert (H : enough_fuel ≤ enough_fuel) by apply Nat.le_refl.
  split; [exact H|]. exact (X11_my_script_prints_exact_matrix enough_fuel H).
Defined.

(** X12: a zero row of the input gives a zero row and a zero column of the
    result, in every variant. *)
Theorem X12_zero_row_gives_zero_row_and_column
  (s : strategy) (h : heap) (a : np.ndarray) (i : nat) :
  valid h a → i < fst (np.shape a) →
  (∀ k, k < snd (np.shape a) → peek h a i k = 0%Z) →
  returns (my_func_of s a) h (λ r h',
    ∀ j, j < fst (np.shape a) →
         peek h' r i j = 0%Z ∧ peek h' r j i = 0%Z).
Proof.
  intros Hv Hi Hzero. eapply returns_weaken; [by apply my_func_of_spec|].
  intros r h' (_ & _ & _ & _ & Hcells) j Hj.
  rewrite !Hcells by done. rewrite (gram_sym h a j i).
  unfold gram. rewrite (dotprod_ext _ (λ _, 0%Z) _ (peek h a j)) by auto.
  by rewrite dotprod_zero_l.
Qed.

Lemma X12_zero_row_gives_zero_row_and_column_witness :
  valid zero_row_store sample ∧ 0 < fst (np.shape sample) ∧
  (∀ k, k < snd (np.shape sample) → peek zero_row_store sample 0 k = 0%Z) ∧
  returns (my_func_of Naive sample) zero_row_store (λ r h',
    ∀ j, j < fst (np.shape sample) →
         peek h' r 0 j = 0%Z ∧ peek h' r j 0 = 0%Z).
Proof.
  assert (Hv : valid zero_row_store sample)
    by (by apply (valid_c_array _ _ _ [0; 0; 0; 4; 5; 6]%Z)).
  assert (Hi : 0 < fst (np.shape sample)) by (cbn; lia).
  assert (Hz : ∀ k, k < snd (np.shape sample) →
                    peek zero_row_store sample 0 k = 0%Z).
  { intros k Hk. cbn in Hk. destruct k as [|[|[|k]]]; try lia; reflexivity. }
  split; [exact Hv|]. split; [exact Hi|]. split; [exact Hz|].
  exact (X12_zero_row_gives_zero_row_and_column Naive zero_row_store sample 0
           Hv Hi Hz).
Defined.

(** X13: conversely, when the sum of squares of row i fits in an [int64]
    and the diagonal entry (i, i) of the result is 0, row i of the input
    is all zeros. *)
Theorem X13_zero_diagonal_means_zero_row
  (s : strategy) (h : heap) (a : np.ndarray) (i : nat) :
  valid h a → i < fst (np.shape a) → Int64.in_range (gram h a i i) →
  returns (my_func_of s a) h (λ r h',
    peek h' r i i = 0%Z →
    ∀ k, k < snd (np.shape a) → peek h a i k = 0%Z).
Proof.
  intros Hv Hi Hfit. eapply returns_weaken; [by apply my_func_of_spec|].
  intros r h' (_ & _ & _ & _ & Hcells) Hz.
  rewrite Hcells, wrap_id in Hz by done.
  by apply dotprod_self_zero.
Qed.

Lemma X13_zero_diagonal_means_zero_row_witness :
  valid zero_row_store sample ∧ 0 < fst (np.shape sample) ∧
  Int64.in_range (gram zero_row_store sample 0 0) ∧
  returns (my_func_of DirectMultiply sample) zero_row_store (λ r h',
    peek h' r 0 0 = 0%Z →
    ∀ k, k < snd (np.shape sample) → peek zero_row_store sample 0 k = 0%Z).
Proof.
  assert (Hv : valid zero_row_store sample)
    by (by apply (valid_c_array _ _ _ [0; 0; 0; 4; 5; 6]%Z)).
  assert (Hi : 0 < fst (np.shape sample)) by (cbn; lia).
  assert (Hf : Int64.in_range (gram zero_row_store sample 0 0))
    by (vm_compute; split; discriminate).
  split; [exact Hv|]. split; [exact Hi|]. split; [exact Hf|].
  exact (X13_zero_diagonal_means_zero_row DirectMultiply zero_row_store sample 0
           Hv Hi Hf).
Defined.

(** X15: calling [my_func] again (with any variant) on the same input
    leaves the first result intact and returns the same matrix in another
    buffer: results of different calls never share storage. *)
Theorem X15_second_call_is_independent
  (s1 s2 : strategy) (h : heap) (a r1 : np.ndarray) (h1 : heap) :
  valid h a → my_func_of s1 a h = Ok (r1, h1) →
  returns (my_func_of s2 a) h1 (λ r2 h2,
    np.base r2 ≠ np.base r1 ∧
    matrix_of h2 r1 = matrix_of h1 r1 ∧
    matrix_of h2 r2 = matrix_of h1 r1).
Proof.
  intros Hv E1.
  destruct (my_func_of_spec s1 h a Hv) as (r & h1' & E & Hpost1).
  rewrite E1 in E. injection E as <- <-.
  pose proof Hpost1 as (Hp1 & Hb1 & Hsh1 & Hc1 & _).
  assert (Hv1 : valid h1 a) by (by eapply valid_prefix).
  eapply returns_weaken; [by apply my_func_of_spec|].
  intros r2 h2 Hpost2. pose proof Hpost2 as (Hp2 & Hb2 & Hsh2 & Hc2 & _).
  split; [|split].
  - destruct Hc1 as (_ & _ & buf & Hl & _). apply lookup_lt_Some in Hl. lia.
  - apply matrix_of_ext; [done|]. intros i j Hi Hj.
    apply (peek_prefix h1 h2); [exact Hp2 | exact (contig_valid h1 r1 Hc1)].
  - rewrite (post_matrix _ _ _ _ Hpost2), (post_matrix _ _ _ _ Hpost1).
    unfold gram_matrix. apply map_ext. intros i. apply map_ext. intros j.
    by rewrite (gram_prefix h h1 a i j Hp1 Hv).
Qed.

Lemma X15_second_call_is_independent_witness :
  valid sample_store sample ∧
  my_func_of Naive sample sample_store
  = Ok (c_array 1 (2, 2), sample_store ++ [[14; 32; 32; 77]%Z]) ∧
  returns (my_func_of Broadcast sample) (sample_store ++ [[14; 32; 32; 77]%Z])
    (λ r2 h2,
      np.base r2 ≠ np.base (c_array 1 (2, 2)) ∧
      matrix_of h2 (c_array 1 (2, 2))
      = matrix_of (sample_store ++ [[14; 32; 32; 77]%Z]) (c_array 1 (2, 2)) ∧
      matrix_of h2 r2
      = matrix_of (sample_store ++ [[14; 32; 32; 77]%Z]) (c_array 1 (2, 2))).
Proof.
  assert (E : my_func_of Naive sample sample_store
              = Ok (c_array 1 (2, 2), sample_store ++ [[14; 32; 32; 77]%Z]))
    by (vm_compute; reflexivity).
  split; [exact valid_sample|]. split; [exact E|].
  exact (X15_second_call_is_independent Naive Broadcast sample_store sample _ _
           valid_sample E).
Defined.

(** X16: [my_func] works on any strided view: applied to the transposed
    view [M.T] of an R × N array it returns the N × N matrix of the dot
    products of the columns of M (reduced to [int64]). *)
Theorem X16_transposed_view_gives_column_products
  (s : strategy) (h : heap) (a : np.ndarray) :
  valid h a →
  returns (my_func_of s (np.T a)) h (λ r h',
    np.shape r = (snd (np.shape a), snd (np.shape a)) ∧
    ∀ i j, i < snd (np.shape a) → j < snd (np.shape a) →
      peek h' r i j
      = Int64.wrap (dotprod (λ k, peek h a k i) (λ k, peek h a k j)
                            (fst (np.shape a)))).
Proof.
  intros Hv. eapply returns_weaken; [by apply my_func_of_spec, valid_T|].
  intros r h' (_ & _ & Hsh & _ & Hcells). split; [done|].
  intros i j Hi Hj. rewrite (Hcells i j) by done. f_equal.
  unfold gram. cbn [np.T np.shape snd].
  apply dotprod_ext; intros k _; apply peek_T.
Qed.

Lemma X16_transposed_view_gives_column_products_witness :
  valid sample_store sample ∧
  returns (my_func_of (Printing (λ _, 0%Z)) (np.T sample)) sample_store (λ r h',
    np.shape r = (snd (np.shape sample), snd (np.shape sample)) ∧
    ∀ i j, i < snd (np.shape sample) → j < snd (np.shape sample) →
      peek h' r i j
      = Int64.wrap (dotprod (λ k, peek sample_store sample k i)
                            (λ k, peek sample_store sample k j)
                            (fst (np.shape sample)))).
Proof.
  split; [exact valid_sample|].
  exact (X16_transposed_view_gives_column_products (Printing (λ _, 0%Z))
           sample_store sample valid_sample).
Defined.

(* ===================================================================== *)
(** ** What each variant allocates *)
(* ===================================================================== *)

Section allocation.
Implicit Types (h : heap) (a r : np.ndarray) (v w : np.ndarray1).

Lemma sizes_app h (d : list Z) : sizes (h ++ [d]) = sizes h ++ [length d].
Proof. unfold sizes. by rewrite map_app. Qed.

Lemma sizes_insert h : ∀ i (buf buf' : list Z),
  h !! i = Some buf → length buf' = length buf → sizes (<[i := buf']> h) = sizes h.
Proof.
  induction h as [|x h IH]; intros i buf buf' Hl Hlen; [done|].
  destruct i as [|i]; simpl in *.
  - injection Hl as ->. by rewrite Hlen.
  - f_equal. by apply (IH i buf buf').
Qed.

Lemma each_of_nil n : each_of n [] = [].
Proof. induction n as [|n IH]; [done | exact IH]. Qed.

Lemma costs_ret {A} (x : A) (R : A → Prop) : R x → costs (mret x) [] R.
Proof. intros HR h a h' [= <- <-]. by rewrite app_nil_r. Qed.

Lemma costs_ret_any {A} (x : A) : costs (mret x) [] (λ _, True).
Proof. by apply costs_ret. Qed.

Lemma costs_raise {A} e l (R : A → Prop) : costs (raise e) l R.
Proof. by intros h a h'. Qed.

Lemma costs_lift {A} (o : outcome A) : costs (lift o) [] (λ x, o = Ok x).
Proof.
  intros h a h'. unfold lift. destruct o; intros E; try done.
  injection E as <- <-. by rewrite app_nil_r.
Qed.

Lemma costs_bind {A B} (m : M A) (f : A → M B) l1 l2
    (R : A → Prop) (S : B → Prop) :
  costs m l1 R → (∀ x, R x → costs (f x) l2 S) →
  costs (m ≫= f) (l1 ++ l2) S.
Proof.
  intros Hm Hf h b h'. unfold mbind, M_bind.
  destruct (m h) as [[x h1]| |] eqn:E; try done.
  destruct (Hm _ _ _ E) as (Hl & HR). intros E2.
  destruct (Hf x HR _ _ _ E2) as (Hl2 & HS).
  split; [|done]. by rewrite Hl2, Hl, app_assoc.
Qed.

Lemma costs_weaken {A} (m : M A) l l' (R R' : A → Prop) :
  costs m l R → l = l' → (∀ x, R x → R' x) → costs m l' R'.
Proof.
  intros Hm <- HR h a h' E. destruct (Hm _ _ _ E) as (? & ?). auto.
Qed.

Lemma costs_load b i : costs (load b i) [] (λ _, True).
Proof.
  intros h z h'. unfold load. destruct (h !! b ≫= _); [|done].
  intros [= _ <-]. by rewrite app_nil_r.
Qed.

Lemma costs_store b i z : costs (store b i z) [] (λ _, True).
Proof.
  intros h u h'. unfold store. destruct (h !! b) as [buf|] eqn:Hl; [|done].
  destruct (decide _); [|done]. intros [= _ <-]. split; [|done].
  rewrite app_nil_r. apply (sizes_insert h b buf); [done|].
  by rewrite length_insert.
Qed.

Lemma costs_fresh sh (data : list Z) :
  costs (np.fresh sh data) [length data] (λ r, np.shape r = sh).
Proof. intros h r h' [= <- <-]. split; [apply sizes_app | done]. Qed.

Lemma costs_fresh1 (data : list Z) :
  costs (np.fresh1 data) [length data] (λ p, np.shape1 p = length data).
Proof. intros h r h' [= <- <-]. split; [apply sizes_app | done]. Qed.

Lemma costs_bind_eq {A B} (m : M A) (f : A → M B) l1 l2 l
    (R : A → Prop) (S : B → Prop) :
  costs m l1 R → (∀ x, R x → costs (f x) l2 S) → l1 ++ l2 = l →
  costs (m ≫= f) l S.
Proof. intros Hm Hf <-. by eapply costs_bind. Qed.

(** A step that allocates nothing, followed by the rest. *)
Lemma costs_then {A B} (m : M A) (f : A → M B) l
    (R : A → Prop) (S : B → Prop) :
  costs m [] R → (∀ x, R x → costs (f x) l S) → costs (m ≫= f) l S.
Proof. intros Hm Hf. by apply (costs_bind_eq m f [] l l R S). Qed.

Lemma costs_any {A} (m : M A) l (R : A → Prop) :
  costs m l R → costs m l (λ _, True).
Proof. intros Hm. by eapply costs_weaken. Qed.

Lemma costs_for_each (body : nat → M unit) c l :
  (∀ i, costs (body i) c (λ _, True)) →
  costs (for_each l body) (each_of (length l) c) (λ _, True).
Proof.
  intros Hb. induction l as [|i l IH]; [apply costs_ret_any|].
  cbn [for_each length].
  apply (costs_bind_eq _ _ c (each_of (length l) c) _ (λ _, True));
    [apply Hb | intros _ _; apply IH | done].
Qed.

Lemma costs_for_range (body : nat → M unit) c n :
  (∀ i, costs (body i) c (λ _, True)) →
  costs (for_range n body) (each_of n c) (λ _, True).
Proof.
  intros Hb. unfold for_range.
  pose proof (costs_for_each body c (seq 0 n) Hb) as H.
  by rewrite length_seq in H.
Qed.

Lemma costs_for_range_nil (body : nat → M unit) n :
  (∀ i, costs (body i) [] (λ _, True)) →
  costs (for_range n body) [] (λ _, True).
Proof.
  intros Hb. eapply costs_weaken;
    [by apply costs_for_range | apply each_of_nil | done].
Qed.

Lemma costs_collect {A} (f : nat → M A) l :
  (∀ k, costs (f k) [] (λ _, True)) →
  costs (collect l f) [] (λ xs, length xs = length l).
Proof.
  intros Hf. induction l as [|i l IH];
    [by apply (costs_ret _ (λ xs, length xs = 0))|].
  cbn [collect].
  apply (costs_then _ _ _ (λ _, True)); [apply Hf|]. intros x _.
  apply (costs_then _ _ _ (λ xs, length xs = length l)); [apply IH|].
  intros xs Hxs. apply (costs_ret _ (λ ys, length ys = S (length l))).
  simpl. by rewrite Hxs.
Qed.

Lemma costs_tabulate {A} (f : nat → M A) n :
  (∀ k, costs (f k) [] (λ _, True)) →
  costs (tabulate n f) [] (λ xs, length xs = n).
Proof.
  intros Hf. unfold tabulate.
  pose proof (costs_collect f (seq 0 n) Hf) as H.
  by rewrite length_seq in H.
Qed.

Lemma costs_read2 (m1 m2 : M Z) :
  costs m1 [] (λ _, True) → costs m2 [] (λ _, True) →
  costs (x ← m1; y ← m2; mret (Int64.mul x y)) [] (λ _, True).
Proof.
  intros H1 H2.
  eapply costs_then; [exact H1|]. intros x _.
  eapply costs_then; [exact H2|]. intros y _. apply costs_ret_any.
Qed.

Lemma costs_reduce (m : M (list Z)) (R : list Z → Prop) :
  costs m [] R → costs (xs ← m; mret (Int64.sum xs)) [] (λ _, True).
Proof.
  intros Hm. eapply costs_then; [exact Hm|]. intros xs _. apply costs_ret_any.
Qed.

Lemma costs_getitem a ij : costs (np.getitem a ij) [] (λ _, True).
Proof.
  unfold np.getitem. destruct (decide _); [apply costs_load | apply costs_raise].
Qed.

Lemma costs_setitem a ij z : costs (np.setitem a ij z) [] (λ _, True).
Proof.
  unfold np.setitem. destruct (decide _); [apply costs_store | apply costs_raise].
Qed.

Lemma costs_iadd a ij z : costs (np.iadd a ij z) [] (λ _, True).
Proof.
  unfold np.iadd. eapply costs_then; [apply costs_getitem|].
  intros x _. apply costs_setitem.
Qed.

Lemma costs_row a i :
  costs (np.row a i) [] (λ p, np.shape1 p = snd (np.shape a)).
Proof.
  unfold np.row.
  destruct (decide _);
    [by apply (costs_ret _ (λ p, np.shape1 p = snd (np.shape a)))
    | apply costs_raise].
Qed.

Lemma costs_col a j :
  costs (np.col a j) [] (λ p, np.shape1 p = fst (np.shape a)).
Proof.
  unfold np.col.
  destruct (decide _);
    [by apply (costs_ret _ (λ p, np.shape1 p = fst (np.shape a)))
    | apply costs_raise].
Qed.

Lemma costs_check (P : Prop) `{Decision P} e :
  costs (if decide P then mret tt else raise e) [] (λ _, True).
Proof. destruct (decide P); [apply costs_ret_any | apply costs_raise]. Qed.

Lemma costs_multiply1 v w n :
  np.shape1 v = n → np.shape1 w = n →
  costs (np.multiply1 v w) [n] (λ _, True).
Proof.
  intros Hv Hw. unfold np.multiply1.
  eapply costs_then; [apply costs_lift|].
  intros d Hd. rewrite Hv, Hw, broadcast_dim_same in Hd. injection Hd as <-.
  eapply costs_then;
    [apply costs_tabulate; intros k; apply costs_read2; apply costs_load|].
  intros data Hlen.
  eapply costs_weaken; [apply costs_fresh1 | by rewrite Hlen | done].
Qed.

Lemma costs_sum v : costs (np.sum v) [] (λ _, True).
Proof.
  unfold np.sum. eapply costs_reduce.
  apply costs_tabulate. intros k. apply costs_load.
Qed.

Lemma costs_multiply a (b : np.ndarray) n0 n1 :
  np.broadcast_dim (fst (np.shape a)) (fst (np.shape b)) = Ok n0 →
  np.broadcast_dim (snd (np.shape a)) (snd (np.shape b)) = Ok n1 →
  costs (np.multiply a b) [n0 * n1] (λ p, np.shape p = (n0, n1)).
Proof.
  intros H0 H1. unfold np.multiply.
  eapply costs_then; [apply costs_lift|].
  intros d0 Hd0. rewrite H0 in Hd0. injection Hd0 as <-.
  eapply costs_then; [apply costs_lift|].
  intros d1 Hd1. rewrite H1 in Hd1. injection Hd1 as <-.
  eapply costs_then;
    [apply costs_tabulate; intros k; apply costs_read2; apply costs_load|].
  intros data Hlen.
  eapply costs_weaken; [apply costs_fresh | by rewrite Hlen | done].
Qed.

Lemma costs_sum_axis0 a :
  costs (np.sum_axis0 a) [snd (np.shape a)] (λ _, True).
Proof.
  unfold np.sum_axis0.
  eapply costs_then;
    [apply costs_tabulate; intros j; eapply costs_reduce;
     apply costs_tabulate; intros i; apply costs_load|].
  intros data Hlen.
  eapply costs_weaken; [apply costs_fresh1 | by rewrite Hlen | done].
Qed.

Lemma costs_setrow a i v : costs (np.setrow a i v) [] (λ _, True).
Proof.
  unfold np.setrow.
  eapply costs_then; [apply costs_row|]. intros r _.
  eapply costs_then; [apply costs_check|]. intros _ _.
  eapply costs_then; [apply costs_tabulate; intros k; apply costs_load|].
  intros xs _. apply costs_for_range_nil. intros k. apply costs_store.
Qed.

Lemma costs_matmul a (b : np.ndarray) :
  costs (np.matmul a b) [fst (np.shape a) * snd (np.shape b)] (λ _, True).
Proof.
  unfold np.matmul. destruct (np.shape a) as [n k], (np.shape b) as [k' m].
  cbn [fst snd].
  eapply costs_then; [apply costs_check|]. intros _ _.
  eapply costs_then;
    [apply costs_tabulate; intros p; eapply costs_reduce;
     apply costs_tabulate; intros e; apply costs_read2; apply costs_load|].
  intros data Hlen.
  eapply costs_weaken; [apply costs_fresh | by rewrite Hlen | done].
Qed.

Lemma costs_zeros sh :
  costs (np.zeros sh) [fst sh * snd sh] (λ _, True).
Proof.
  unfold np.zeros.
  eapply costs_weaken; [apply costs_fresh | by rewrite length_replicate | done].
Qed.

Lemma costs_empty junk sh :
  costs (np.empty junk sh) [fst sh * snd sh] (λ _, True).
Proof.
  unfold np.empty.
  eapply costs_weaken;
    [apply costs_fresh | by rewrite length_map, length_seq | done].
Qed.

(** A call that allocates its result, runs loops and returns. *)
Lemma costs_body {A} (m : M A) (loops : A → M unit) n l :
  costs m [n] (λ _, True) →
  (∀ result, costs (loops result) l (λ _, True)) →
  costs (result ← m; loops result;; mret result) (n :: l) (λ _, True).
Proof.
  intros Hm Hl.
  apply (costs_bind_eq _ _ [n] l _ (λ _, True)); [done | | done].
  intros result _.
  apply (costs_bind_eq _ _ l [] _ (λ _, True));
    [apply Hl | intros _ _; apply costs_ret_any | apply app_nil_r].
Qed.

Lemma costs_naive a :
  costs (script_mprof.my_func a) [fst (np.shape a) * fst (np.shape a)]
        (λ _, True).
Proof.
  unfold script_mprof.my_func. destruct (np.shape a) as [nrow ncol].
  cbn [fst snd]. apply costs_body; [apply (costs_zeros (nrow, nrow))|].
  intros result.
  apply costs_for_range_nil. intros rix.
  apply costs_for_range_nil. intros cix.
  apply costs_for_range_nil. intros eix.
  eapply costs_then; [apply costs_getitem|]. intros x _.
  eapply costs_then; [apply costs_getitem|]. intros y _. apply costs_iadd.
Qed.

Lemma costs_direct a :
  costs (script_dot.my_func a) [fst (np.shape a) * fst (np.shape a)]
        (λ _, True).
Proof.
  unfold script_dot.my_func.
  apply (costs_bind_eq _ _ [fst (np.shape a) * fst (np.shape a)] [] _
           (λ _, True));
    [apply (costs_matmul a (np.T a)) | intros result _; apply costs_ret_any
    | done].
Qed.

Lemma costs_broadcast a :
  costs (script_bcast_mprof.my_func a)
        (fst (np.shape a) * fst (np.shape a)
         :: each_of (fst (np.shape a))
              [snd (np.shape a) * fst (np.shape a); fst (np.shape a)])
        (λ _, True).
Proof.
  unfold script_bcast_mprof.my_func.
  destruct (np.shape a) as [nrow ncol] eqn:Hsh. cbn [fst snd].
  apply costs_body; [apply (costs_zeros (nrow, nrow))|].
  intros result. apply costs_for_range. intros rix.
  eapply costs_then; [apply costs_row|].
  intros r1 Hr1. rewrite Hsh in Hr1. cbn [snd] in Hr1.
  apply (costs_bind_eq _ _ [ncol * nrow] [nrow] _
           (λ p, np.shape p = (ncol, nrow))); [| | done].
  - apply costs_multiply.
    + cbn [np.newaxis np.T np.shape fst]. rewrite Hr1, Hsh.
      apply broadcast_dim_same.
    + cbn [np.newaxis np.T np.shape snd]. rewrite Hsh.
      apply broadcast_dim_one.
  - intros p Hp.
    apply (costs_bind_eq _ _ [nrow] [] _ (λ _, True)); [| | done].
    + eapply costs_weaken; [apply costs_sum_axis0 | by rewrite Hp | done].
    + intros sm _. apply costs_setrow.
Qed.

Lemma costs_printing junk a :
  costs (my_script.my_func junk a)
        (fst (np.shape a) * fst (np.shape a)
         :: each_of (fst (np.shape a))
              (each_of (fst (np.shape a)) [snd (np.shape a)]))
        (λ _, True).
Proof.
  unfold my_script.my_func.
  apply costs_body;
    [apply (costs_empty junk (fst (np.shape a), fst (np.shape a)))|].
  intros result. apply costs_for_range. intros rix.
  apply costs_for_range. intros cix.
  eapply costs_then; [apply costs_row|]. intros r1 Hr1.
  eapply costs_then; [apply costs_col|]. intros c1 Hc1.
  cbn [np.T np.shape fst] in Hc1.
  apply (costs_bind_eq _ _ [snd (np.shape a)] [] _ (λ _, True)); [| | done].
  - by apply costs_multiply1.
  - intros p _. eapply costs_then; [apply costs_sum|].
    intros sm _. apply costs_setitem.
Qed.

Lemma costs_my_func_of s a :
  costs (my_func_of s a)
        (footprint s (fst (np.shape a)) (snd (np.shape a))) (λ _, True).
Proof.
  destruct s; cbn [my_func_of footprint].
  - apply costs_printing.
  - apply costs_naive.
  - apply costs_broadcast.
  - apply costs_direct.
Qed.

End allocation.

(** X14: what each variant allocates on an R × N input. A call appends
    buffers to the store and leaves every buffer that existed as it was,
    size and contents. The first new buffer is the R × R result. The
    naive loop and the matrix multiply allocate nothing else. The
    broadcast variant allocates, after the result and for each of the R
    rows, a temporary of N * R elements and one of R elements. The
    printing variant allocates, after the result and for each of the R * R
    cells, a temporary of N elements. *)
Theorem X14_allocation_profile (s : strategy) (h : heap) (a : np.ndarray) :
  valid h a →
  returns (my_func_of s a) h (λ r h',
    ∃ new : list (list Z),
      h' = h ++ new ∧
      map length new = footprint s (fst (np.shape a)) (snd (np.shape a)) ∧
      np.base r = length h).
Proof.
  intros Hv. destruct (my_func_of_spec s h a Hv) as (r & h' & E & Hpost).
  exists r, h'. split; [done|].
  destruct Hpost as ([new ->] & Hbase & _). exists new. split; [done|].
  split; [|done].
  destruct (costs_my_func_of s a h r _ E) as (Hl & _).
  unfold sizes in Hl. rewrite map_app in Hl. by apply app_inv_head in Hl.
Qed.

Lemma X14_allocation_profile_witness :
  valid sample_store sample ∧
  returns (my_func_of Broadcast sample) sample_store (λ r h',
    ∃ new : list (list Z),
      h' = sample_store ++ new ∧
      map length new
      = footprint Broadcast (fst (np.shape sample)) (snd (np.shape sample)) ∧
      np.base r = length sample_store).
Proof.
  split; [exact valid_sample|].
  exact (X14_allocation_profile Broadcast sample_store sample valid_sample).
Defined.
